(** * Hybrid retrieval, reranking and answer generation of the legal QA system

    A shallow embedding of [retriever_custom.py], [generator.py] and
    [rag_qa.py], of the rendering of a user message in [frontend/app.py]
    and of the leaf records and windows of [backend/clean_and_split.py].
    Python [str] values are sequences of Unicode code points,
    Python [float] values are IEEE-754 binary64 numbers (Rocq's primitive
    floats), dictionaries are finite maps, and the external collaborators
    (tokenizer, BM25 scorer, numpy's argsort, embedding model, vector store,
    cross-encoder, generation model) are the fields of one interface. *)

From Stdlib Require Import ZArith NArith List Floats Ascii String Sorted Lia
  DecimalString.
From stdpp Require Import base option list strings gmap.

Set Warnings "-inexact-float".
Local Open Scope Z_scope.

(** ** Python strings *)

(** A [str] is a list of code points. *)
Abbreviation str := (list N).

(** Source literals are written as UTF-8 text; [utf8] decodes the bytes of a
    well-formed literal into its code points. *)
Fixpoint utf8 (bs : list N) : str :=
  match bs with
  | [] => []
  | b0 :: r0 =>
    if (b0 <? 128)%N then b0 :: utf8 r0
    else match r0 with
    | [] => []
    | b1 :: r1 =>
      if (b0 <? 224)%N then ((b0 mod 32) * 64 + b1 mod 64)%N :: utf8 r1
      else match r1 with
      | [] => []
      | b2 :: r2 =>
        if (b0 <? 240)%N
        then ((b0 mod 16) * 4096 + (b1 mod 64) * 64 + b2 mod 64)%N :: utf8 r2
        else match r2 with
        | [] => []
        | b3 :: r3 =>
          ((b0 mod 8) * 262144 + (b1 mod 64) * 4096
           + (b2 mod 64) * 64 + b3 mod 64)%N :: utf8 r3
        end
      end
    end
  end.

Definition lit (s : string) : str :=
  utf8 (map N_of_ascii (list_ascii_of_string s)).
Arguments lit : simpl never.

(** The tables of the Unicode database that [str] methods and the [re]
    module consult. *)
Class UnicodeDB := {
  (** [str.isspace] on one character; also the class [\s] *)
  uni_isspace : N -> bool;
  (** the class [\d] *)
  uni_isdecimal : N -> bool;
  (** [str.isalnum] on one character; [\w] is this or an underscore *)
  uni_isalnum : N -> bool;
  (** a pattern character against a subject character under [re.IGNORECASE] *)
  re_ieq : N -> N -> bool;
  (** [str.lower] *)
  str_lower : str -> str
}.

Section Strings.
Context {U : UnicodeDB}.

Fixpoint lstrip (s : str) : str :=
  match s with
  | [] => []
  | c :: t => if uni_isspace c then lstrip t else s
  end.

Definition rstrip (s : str) : str := reverse (lstrip (reverse s)).

(** [s.strip()] *)
Definition strip (s : str) : str := rstrip (lstrip s).

(** [re.sub(r"\s+", " ", s)]: every maximal run of white space becomes one
    space. *)
Fixpoint collapse_ws_from (in_run : bool) (s : str) : str :=
  match s with
  | [] => []
  | c :: t =>
    if uni_isspace c
    then (if in_run then collapse_ws_from true t
          else 32%N :: collapse_ws_from true t)
    else c :: collapse_ws_from false t
  end.

Definition collapse_ws (s : str) : str := collapse_ws_from false s.

End Strings.

(** ** The fragment of [re] used by the two query patterns *)

Inductive charclass :=
| CSpace                                  (* \s *)
| CDigit                                  (* \d *)
| CSet (letters : str) (digits : bool).   (* [IVXLC\d] *)

Inductive regex :=
| RLit (c : N)
| REps
| RFail
| RSeq (r1 r2 : regex)
| RAlt (r1 r2 : regex)
| RPlus (cls : charclass)
| RStar (cls : charclass)
| RWordB.                                 (* \b *)

(** A literal word, and an alternation. *)
Definition RStr (s : str) : regex := foldr (fun c r => RSeq (RLit c) r) REps s.

Definition RAlts (rs : list regex) : regex := foldr RAlt RFail rs.

Section Regex.
Context {U : UnicodeDB}.

Definition in_class (cls : charclass) (c : N) : bool :=
  match cls with
  | CSpace => uni_isspace c
  | CDigit => uni_isdecimal c
  | CSet letters digits =>
      existsb (fun l => re_ieq l c) letters || (digits && uni_isdecimal c)
  end.

(** [\w] on a position that may lie outside the string. *)
Definition is_word (c : option N) : bool :=
  match c with
  | Some x => uni_isalnum x || (x =? 95)%N
  | None => false
  end.

(** A matching state: the character before the cursor and the text after
    it. *)
Definition mstate : Type := option N * str.

(** All states reached by consuming zero or more characters of a class. *)
Fixpoint span (cls : charclass) (prev : option N) (s : str) : list mstate :=
  (prev, s) ::
  match s with
  | [] => []
  | c :: t => if in_class cls c then span cls (Some c) t else []
  end.

(** All states in which a match of [r] started at [st] can end: the
    backtracking matcher succeeds exactly when this list is not empty. *)
Fixpoint rmatch (r : regex) (st : mstate) : list mstate :=
  match r with
  | RLit c =>
      match st.2 with
      | x :: t => if re_ieq c x then [(Some x, t)] else []
      | [] => []
      end
  | REps => [st]
  | RFail => []
  | RSeq r1 r2 => flat_map (rmatch r2) (rmatch r1 st)
  | RAlt r1 r2 => rmatch r1 st ++ rmatch r2 st
  | RPlus cls =>
      match st.2 with
      | x :: t => if in_class cls x then span cls (Some x) t else []
      | [] => []
      end
  | RStar cls => span cls st.1 st.2
  | RWordB => if xorb (is_word st.1) (is_word (head st.2)) then [st] else []
  end.

Definition matches_at (r : regex) (prev : option N) (s : str) : bool :=
  match rmatch r (prev, s) with
  | [] => false
  | _ :: _ => true
  end.

Fixpoint search_from (r : regex) (prev : option N) (s : str) : bool :=
  matches_at r prev s ||
  match s with
  | [] => false
  | c :: t => search_from r (Some c) t
  end.

(** The truth value of [pattern.search(s)]. *)
Definition re_search (r : regex) (s : str) : bool := search_from r None s.

End Regex.

(** ** PATTERNS *)

Definition LEGAL_TOKENS : list str :=
  map lit ["Chương"; "Mục"; "Điều"; "Khoản"; "Điểm"]%string.

Definition NUMERIC_UNITS : list str :=
  map lit ["giờ"; "km/h"; "triệu"; "nghìn"; "đồng"; "lần"; "ngày"; "tháng";
           "năm"; "%"; "phần trăm"; "cm3"; "cc"; "tấn"; "km"; "m"; "kW";
           "điểm"; "giấy phép lái xe"]%string.

Definition words_alt (ws : list str) : regex := RAlts (map RStr ws).

(** [\b(Chương|Mục|Điều|Khoản|Điểm)\s+[IVXLC\d]+], ignoring case *)
Definition LEGAL_HINT_RE : regex :=
  RSeq RWordB
    (RSeq (words_alt LEGAL_TOKENS)
       (RSeq (RPlus CSpace) (RPlus (CSet (lit "IVXLC") true)))).

(** [\b(\d+)\s*(giờ|km/h|...|giấy phép lái xe)\b], ignoring case *)
Definition NUMERIC_INFO_RE : regex :=
  RSeq RWordB
    (RSeq (RPlus CDigit)
       (RSeq (RStar CSpace) (RSeq (words_alt NUMERIC_UNITS) RWordB))).

(** ** Python floats *)

Definition is_nan (x : float) : bool := negb (PrimFloat.eqb x x).

(** [bool(x)] for a float: zero of either sign is falsy, NaN is truthy. *)
Definition float_truthy (x : float) : bool := negb (PrimFloat.eqb x 0%float).

(** The built-ins [max(a, b)] and [min(a, b)]: the first argument is kept
    unless the second is strictly better. *)
Definition py_max (a b : float) : float := if PrimFloat.ltb a b then b else a.
Definition py_min (a b : float) : float := if PrimFloat.ltb b a then b else a.

(** ** tune_alpha *)

Section TuneAlpha.
Context {U : UnicodeDB}.

Definition tune_alpha (query : str) (base_alpha : float) : float :=
  if re_search LEGAL_HINT_RE query then py_max 0.30 (base_alpha - 0.25)
  else if re_search NUMERIC_INFO_RE query then py_max 0.40 (base_alpha - 0.15)
  else py_min 0.75 (base_alpha + 0.20).

End TuneAlpha.

(** A finite part of the Unicode database, used by the closed examples:
    Basic Latin, Latin-1 and Latin Extended-A (U+0000 to U+017F), the horn
    letters (U+01A0, U+01A1, U+01AF, U+01B0) and Latin Extended Additional
    (U+1E00 to U+1EFF).  On these characters the tables below are CPython's
    ([str.isspace], [\d], [str.isalnum], the lower-case mapping, and the
    matching of one pattern character under [re.IGNORECASE], with its three
    special pairs i/dotless i, s/long s and s-with-dot/long s-with-dot).  A
    character outside this part is taken to be caseless and not
    alphanumeric, which Unicode does not promise; the examples hold no such
    character. *)
Definition vn_isspace (c : N) : bool :=
  ((9 <=? c) && (c <=? 13) || (28 <=? c) && (c <=? 32) || (c =? 133)
   || (c =? 160) || (c =? 5760) || (8192 <=? c) && (c <=? 8202)
   || (c =? 8232) || (c =? 8233) || (c =? 8239) || (c =? 8287)
   || (c =? 12288))%N.

Definition vn_isdecimal (c : N) : bool := ((48 <=? c) && (c <=? 57))%N.

(** The lower-case mapping of one character to one character. *)
Definition vn_tolower (c : N) : N :=
  if ((65 <=? c) && (c <=? 90))%N then (c + 32)%N
  else if ((192 <=? c) && (c <=? 222) && negb (c =? 215))%N then (c + 32)%N
  else if (c =? 304)%N then 105%N
  else if (((256 <=? c) && (c <=? 311) || (330 <=? c) && (c <=? 375))
           && N.even c)%N then (c + 1)%N
  else if (((313 <=? c) && (c <=? 328) || (377 <=? c) && (c <=? 382))
           && N.odd c)%N then (c + 1)%N
  else if (c =? 376)%N then 255%N
  else if ((c =? 416) || (c =? 431))%N then (c + 1)%N
  else if (((7680 <=? c) && (c <=? 7829) || (7840 <=? c) && (c <=? 7935))
           && N.even c)%N then (c + 1)%N
  else if (c =? 7838)%N then 223%N
  else c.

(** [str.lower] on one character: U+0130 becomes two characters. *)
Definition vn_lower (c : N) : str :=
  if (c =? 304)%N then [105; 775]%N else [vn_tolower c].

(** What [re.IGNORECASE] compares: the lower-case mapping, and the three
    pairs that the [re] module adds to it. *)
Definition vn_fold (c : N) : N :=
  if (c =? 305)%N then 105%N
  else if (c =? 383)%N then 115%N
  else if (c =? 7835)%N then 7777%N
  else vn_tolower c.

(** [str.isalnum] on one character, digits apart. *)
Definition vn_isalpha (c : N) : bool :=
  ((65 <=? c) && (c <=? 90) || (97 <=? c) && (c <=? 122)
   || (c =? 170) || (c =? 178) || (c =? 179) || (c =? 181) || (c =? 185)
   || (c =? 186) || (188 <=? c) && (c <=? 190)
   || (192 <=? c) && (c <=? 255) && negb (c =? 215) && negb (c =? 247)
   || (256 <=? c) && (c <=? 383) || (416 <=? c) && (c <=? 417)
   || (431 <=? c) && (c <=? 432) || (7680 <=? c) && (c <=? 7935))%N.

#[export] Instance vn_unicode : UnicodeDB := {
  uni_isspace := vn_isspace;
  uni_isdecimal := vn_isdecimal;
  uni_isalnum c := vn_isalpha c || vn_isdecimal c;
  re_ieq p c := (vn_fold p =? vn_fold c)%N;
  str_lower := flat_map vn_lower
}.

(** ** Exceptions and oracle calls *)

Inductive exn := ValueError | IndexError | TypeError.

Inductive result (A : Type) :=
| Ok (a : A)
| Raise (e : exn).
Arguments Ok {A} a.
Arguments Raise {A} e.

(** A fragment's property dictionary; a stored null is [Some None]. *)
Abbreviation Props := (gmap string (option str)).

(** The calls made to the model oracles and to the vector store. *)
Inductive event :=
| EvEncode (query : str)
| EvNearVector (k : Z)
| EvPredict (pairs : list (str * option str))
| EvGenerate (prompt : str).

(** A computation: the oracle calls it made, in order, and how it ended. *)
Record M (A : Type) := MkM { trace : list event; outcome : result A }.
Arguments MkM {A} trace outcome.
Arguments trace {A} m.
Arguments outcome {A} m.

#[export] Instance M_ret : MRet M := fun A a => MkM [] (Ok a).

#[export] Instance M_bind : MBind M := fun A B f m =>
  match outcome m with
  | Ok a => MkM (trace m ++ trace (f a)) (outcome (f a))
  | Raise e => MkM (trace m) (Raise e)
  end.

Definition raise {A} (e : exn) : M A := MkM [] (Raise e).

Definition call {A} (ev : event) (reply : A) : M A := MkM [ev] (Ok reply).

(** ** The environment of the module *)

Record DenseObj := { properties : Props; distance : option float }.

Inductive GemReply :=
| GemText (text : option str)        (* [resp.text] *)
| GemError (message : str).          (* an exception, rendered *)

Class Env := {
  (** [ViTokenizer.tokenize(q).split()] *)
  vi_tokenize : str -> list str;
  (** [bm25_index.get_scores], one score per document of the index *)
  bm25_get_scores : list str -> list float;
  (** [np.argsort] with the default kind *)
  np_argsort : list float -> list nat;
  (** [emb_model.encode([q], normalize_embeddings=True)[0]] *)
  emb_encode : str -> list float;
  (** [weaviate_collection.query.near_vector(...).objects] *)
  near_vector : list float -> Z -> list DenseObj;
  (** [reranker.predict] *)
  reranker_predict : list (str * option str) -> list float;
  (** [model.generate_content] *)
  generate_content : str -> GemReply;
  (** the chunks loaded at start-up *)
  chunks_cache : list Props
}.

Definition INITIAL_K : Z := 20.
Definition FINAL_K : Z := 5.

Record Candidate := {
  props : Props;
  score : float;
  rerank_score : option float
}.

(** ** Python lists and numpy arrays *)

(** [l[:k]] *)
Definition slice_to {A} (l : list A) (k : Z) : list A :=
  if k <? 0 then take (Z.to_nat (Z.of_nat (length l) + k)) l
  else take (Z.to_nat k) l.

(** [l[i]] for a non-negative index *)
Definition py_index {A} (l : list A) (i : nat) : M A :=
  match l !! i with
  | Some x => mret x
  | None => raise IndexError
  end.

(** [a[idxs]] *)
Definition np_take (a : list float) (idxs : list nat) : M (list float) :=
  mapM (py_index a) idxs.

Definition np_maximum (a b : float) : float :=
  if is_nan a then a else if is_nan b then b
  else if PrimFloat.ltb a b then b else a.

(** [np.max(l)]: an empty array has no maximum *)
Definition np_max (l : list float) : M float :=
  match l with
  | [] => raise ValueError
  | x :: t => mret (fold_left np_maximum t x)
  end.

(** [l.sort(key=key, reverse=True)] for keys that can be compared, that is
    when no key is NaN: a stable sort, in which elements with equal keys keep
    their order.  With a NaN among the keys Python's comparisons are not an
    order and the list it leaves is not this one; every statement below
    about the order that a sort produces is made under the hypothesis that
    no key is NaN ([comparable]). *)
Section Sort.
Context {A : Type} (key : A -> float).

Fixpoint insert_desc (x : A) (l : list A) : list A :=
  match l with
  | [] => [x]
  | y :: t =>
    if PrimFloat.ltb (key x) (key y) then y :: insert_desc x t else x :: l
  end.

Definition sort_desc (l : list A) : list A := foldr insert_desc [] l.

End Sort.

(** [d.get(k, "")] and [d.get(k)] on a property dictionary *)
Definition get_or_empty (p : Props) (k : string) : option str :=
  default (Some []) (p !! k).

Definition get_or_none (p : Props) (k : string) : option str :=
  default None (p !! k).

(** [v or ""] *)
Definition or_empty (v : option str) : str := default [] v.

Definition nonempty (s : str) : bool :=
  match s with
  | [] => false
  | _ :: _ => true
  end.

Definition py_join (sep : str) (l : list str) : str :=
  match l with
  | [] => []
  | x :: t => x ++ flat_map (fun y => sep ++ y) t
  end.

(** ** RETRIEVAL FUNCTIONS *)

Section Retriever.
Context {U : UnicodeDB} {E : Env}.

Definition retrieve_bm25 (query : str) (k : Z) : M (list nat * list float) :=
  let tokenized_query := vi_tokenize query in
  let scores := bm25_get_scores tokenized_query in
  let top_indices := slice_to (np_argsort (map PrimFloat.opp scores)) k in
  top_scores ← np_take scores top_indices;
  mret (top_indices, top_scores).

(** [1.0 - obj.metadata.distance if obj.metadata.distance else 0.0] *)
Definition dense_score (d : option float) : float :=
  match d with
  | Some x => if float_truthy x then (1.0 - x)%float else 0.0%float
  | None => 0.0%float
  end.

Definition dense_candidate (obj : DenseObj) : Candidate :=
  {| props := properties obj;
     score := dense_score (distance obj);
     rerank_score := None |}.

Definition retrieve_dense (query : str) (k : Z) : M (list Candidate) :=
  q_vec ← call (EvEncode query) (emb_encode query);
  objects ← call (EvNearVector k) (near_vector q_vec k);
  mret (map dense_candidate objects).

Definition citation_of (p : Props) : option str :=
  get_or_empty p "display_citation".

(** The loop filling [bm25_score_map]. *)
Fixpoint build_score_map (pairs : list (nat * float))
    (m : gmap (option str) float) : M (gmap (option str) float) :=
  match pairs with
  | [] => mret m
  | (idx, sc) :: t =>
    chunk ← py_index chunks_cache idx;
    build_score_map t (<[citation_of chunk := sc]> m)
  end.

Definition map_get (m : gmap (option str) float) (key : option str) : float :=
  default 0.0%float (m !! key).

Definition fuse_dense (alpha : float) (m : gmap (option str) float)
    (dense_res : Candidate) : Candidate :=
  let citation := citation_of (props dense_res) in
  let dense_score := score dense_res in
  let bm25_score := map_get m citation in
  {| props := props dense_res;
     score := (alpha * dense_score + (1 - alpha) * bm25_score)%float;
     rerank_score := None |}.

Definition fuse_bm25 (alpha : float) (m : gmap (option str) float)
    (chunk : Props) : Candidate :=
  let bm25_score := map_get m (citation_of chunk) in
  {| props := chunk;
     score := ((1 - alpha) * bm25_score)%float;
     rerank_score := None |}.

(** The loop adding the BM25-only results to [combined]. *)
Fixpoint add_bm25_only (alpha : float) (m : gmap (option str) float)
    (dense_citations : gset (option str)) (idxs : list nat)
    (combined : list Candidate) : M (list Candidate) :=
  match idxs with
  | [] => mret combined
  | idx :: t =>
    chunk ← py_index chunks_cache idx;
    if decide (citation_of chunk ∈ dense_citations)
    then add_bm25_only alpha m dense_citations t combined
    else add_bm25_only alpha m dense_citations t
           (combined ++ [fuse_bm25 alpha m chunk])
  end.

(** [retrieve_hybrid] up to the sort: the list [combined]. *)
Definition hybrid_combined (query : str) (alpha : float) (k : Z)
    : M (list Candidate) :=
  '(bm25_indices, bm25_scores) ← retrieve_bm25 query k;
  top ← np_max bm25_scores;
  let bm25_scores_norm :=
    map (fun s => (s / (top + 1e-8))%float) bm25_scores in
  dense_results ← retrieve_dense query k;
  bm25_score_map ← build_score_map (zip bm25_indices bm25_scores_norm) ∅;
  let combined := map (fuse_dense alpha bm25_score_map) dense_results in
  let dense_citations : gset (option str) :=
    list_to_set (map (fun r => citation_of (props r)) dense_results) in
  add_bm25_only alpha bm25_score_map dense_citations bm25_indices combined.

Definition retrieve_hybrid (query : str) (alpha : float) (k : Z)
    : M (list Candidate) :=
  combined ← hybrid_combined query alpha k;
  mret (slice_to (sort_desc score combined) k).

(** [c["rerank_score"] = s] *)
Definition with_rerank (c : Candidate) (s : float) : Candidate :=
  {| props := props c; score := score c; rerank_score := Some s |}.

(** The loop storing [rerank_score] in every candidate. *)
Fixpoint set_rerank_scores (candidates : list Candidate)
    (scores : list float) (i : nat) : M (list Candidate) :=
  match candidates with
  | [] => mret []
  | c :: t =>
    s ← py_index scores i;
    rest ← set_rerank_scores t scores (S i);
    mret (with_rerank c s :: rest)
  end.

Definition rerank_key (c : Candidate) : float :=
  default 0.0%float (rerank_score c).

Definition rerank (query : str) (candidates : list Candidate) (final_k : Z)
    : M (list Candidate) :=
  match candidates with
  | [] => mret []
  | _ :: _ =>
    let texts := map (fun c => get_or_empty (props c) "enriched_text")
                     candidates in
    let pairs := map (fun text => (query, text)) texts in
    scores ← call (EvPredict pairs) (reranker_predict pairs);
    scored ← set_rerank_scores candidates scores 0;
    mret (slice_to (sort_desc rerank_key scored) final_k)
  end.

End Retriever.

(** ** Context formatting and the main retrieve function *)

Inductive pyval := PyNone | PyInt (n : Z) | PyBool (b : bool).

(** [bool(v)] *)
Definition truthy (v : pyval) : bool :=
  match v with
  | PyNone => false
  | PyInt n => negb (n =? 0)
  | PyBool b => b
  end.

(** [int(v)] *)
Definition py_int (v : pyval) : M Z :=
  match v with
  | PyNone => raise TypeError
  | PyInt n => mret n
  | PyBool b => mret (if b then 1 else 0)
  end.

Definition nl : str := [10%N].
Definition dq : str := [34%N].

Definition when (b : bool) (line : str) : list str := if b then [line] else [].

Section Formatter.
Context {U : UnicodeDB} {E : Env}.

Definition field (p : Props) (k : string) : str :=
  strip (or_empty (get_or_none p k)).

(** The text block of one result, [ctx_chunk]. *)
Definition format_chunk (p : Props) : str :=
  let law := field p "law" in
  let chapter := field p "chapter" in
  let section := field p "section" in
  let article_no := field p "article_no" in
  let article_title := field p "article_title" in
  let clause_no := or_empty (get_or_none p "clause_no") in
  let clause_head := field p "clause_head" in
  let point := field p "point" in
  let body_for_ctx := field p "text" in
  let display_citation := field p "display_citation" in
  let art_line :=
    strip (lit "Điều " ++ article_no)
    ++ (if nonempty article_title then lit ". " ++ article_title else []) in
  let lines :=
    when (nonempty display_citation)
         (lit "[Căn cứ: " ++ display_citation ++ lit "]")
    ++ when (nonempty law) law
    ++ when (nonempty chapter) chapter
    ++ when (nonempty section) section
    ++ when (nonempty article_no || nonempty article_title) art_line
    ++ (if nonempty point
        then
          (if nonempty clause_no && nonempty clause_head
           then [lit "Khoản " ++ clause_no ++ lit ". " ++ clause_head]
           else when (nonempty clause_no) (lit "Khoản " ++ clause_no))
          ++ [lit "Điểm " ++ point ++ lit ")"]
          ++ when (nonempty body_for_ctx) body_for_ctx
        else
          when (nonempty clause_no) (lit "Khoản " ++ clause_no)
          ++ when (nonempty body_for_ctx) body_for_ctx) in
  strip (py_join nl lines).

(** The source citation of one result. *)
Definition source_of (p : Props) : str :=
  or_empty (get_or_empty p "display_citation").

(** [retrieve] once [k] is an integer. *)
Definition retrieve_top (question : str) (k : Z) : M (str * list str) :=
  let alpha := tune_alpha question 0.55 in
  candidates ← retrieve_hybrid question alpha INITIAL_K;
  top_results ← rerank question candidates k;
  let contexts :=
    filter (fun c => nonempty c = true)
           (map (fun res => format_chunk (props res)) top_results) in
  let sources := map (fun res => source_of (props res)) top_results in
  mret (py_join (nl ++ nl) contexts, sources).

Definition retrieve (question : str) (k : pyval) : M (str * list str) :=
  k ← (if truthy k then py_int k else mret 5);
  retrieve_top question k.

End Formatter.

(** ** generator.py *)

Definition INSUFFICIENT : str :=
  lit "Trong các trích dẫn luật được cung cấp, không có đủ thông tin để trả lời chính xác câu hỏi này.".

Definition EMPTY_REPLY : str :=
  lit "Không tìm thấy đủ thông tin trong các văn bản luật đã được lập chỉ mục để trả lời câu hỏi này.".

Definition TRUNCATED_MARK : str :=
  nl ++ lit "… (đã cắt ngắn context do quá dài)".

Definition USER_PROMPT_TMPL (question context : str) : str :=
  py_join nl
    [lit "Câu hỏi của người dùng:";
     question;
     [];
     lit "Các đoạn luật (trích từ văn bản pháp luật, bạn PHẢI bám sát):";
     context;
     [];
     lit "Yêu cầu:";
     lit "- Trước hết hãy trả lời trực tiếp câu hỏi, trình bày mạch lạc, dễ hiểu.";
     lit "- Nếu câu hỏi liên quan đến mức phạt, trách nhiệm, nghĩa vụ thì hãy liệt kê rõ theo từng trường hợp liên quan trong context (ví dụ: theo loại xe, đối tượng vi phạm, hành vi...).";
     lit "- Ở cuối câu trả lời, thêm một dòng riêng:";
     lit "  " ++ dq ++ lit "Căn cứ pháp lý: ..." ++ dq ++ lit " ";
     lit "  và liệt kê các căn cứ pháp lý dựa trên thông tin trong dòng [Căn cứ: ...] ở đầu mỗi đoạn luật.";
     lit "  Ví dụ: nếu thấy " ++ dq ++ lit "[Căn cứ: khoản 4 Điều 2 Luật số 35/2024/QH15]" ++ dq ++ lit " thì ghi " ++ dq ++ lit "khoản 4 Điều 2 Luật số 35/2024/QH15" ++ dq ++ lit ".";
     lit "- Không được viện dẫn bất kỳ căn cứ nào không có trong các đoạn luật ở trên.";
     []].

Section Generator.
Context {U : UnicodeDB} {E : Env}.

(** The loop of [_dedupe_sources]. *)
Definition dedupe_key (s : str) : str := collapse_ws (str_lower (strip s)).

Fixpoint dedupe_loop (sources : list str) (seen : gset str) (out : list str)
    : list str :=
  match sources with
  | [] => out
  | s :: t =>
    let key := dedupe_key s in
    if nonempty key && negb (bool_decide (key ∈ seen))
    then dedupe_loop t ({[key]} ∪ seen) (out ++ [s])
    else dedupe_loop t seen out
  end.

Definition _dedupe_sources (sources : list str) : list str :=
  dedupe_loop sources ∅ [].

Definition _truncate_context (ctx : str) (max_chars : Z) : str :=
  if Z.of_nat (length ctx) <=? max_chars then ctx
  else slice_to ctx max_chars ++ TRUNCATED_MARK.

Definition _build_prompt (question context : str) : str :=
  USER_PROMPT_TMPL (strip question) (strip context).

(** [sources] is [None] when the caller leaves it out. *)
Definition generate_answer (question context : str)
    (sources : option (list str)) : M (str * list str) :=
  if negb (nonempty (strip context)) || (Z.of_nat (length context) <? 300)
  then mret (INSUFFICIENT, [])
  else
    let truncated_context := _truncate_context context 20000 in
    let sources := _dedupe_sources (default [] sources) in
    let prompt := _build_prompt question truncated_context in
    resp ← call (EvGenerate prompt) (generate_content prompt);
    let text :=
      match resp with
      | GemText t =>
          let text := strip (or_empty t) in
          if nonempty text then text else EMPTY_REPLY
      | GemError message => lit "Lỗi khi gọi Gemini API: " ++ message
      end in
    mret (text, sources).

(** [ask_law] of rag_qa.py *)
Definition ask_law (question : str) (k : pyval) : M (str * list str) :=
  '(context, sources) ← retrieve question k;
  generate_answer question context (Some sources).

End Generator.

(** ** A small environment

    Six fragments with fixed raw lexical scores, a vector store that returns
    two of them, and a cross-encoder that scores a fragment by the first
    letter of its enriched text. *)

Definition demo_chunk (citation enriched body : string) : Props :=
  <["display_citation" := Some (lit citation)]>
    (<["enriched_text" := Some (lit enriched)]>
       (<["text" := Some (lit body)]> ∅)).

Definition demo_chunks : list Props :=
  [demo_chunk "khoản 2 Điều 15" "a: tốc độ tối đa" "tốc độ tối đa";
   demo_chunk "khoản 1 Điều 5" "b: nồng độ cồn" "nồng độ cồn";
   demo_chunk "điểm a khoản 3 Điều 7" "c: giấy phép lái xe" "giấy phép lái xe";
   demo_chunk "khoản 4 Điều 9" "d: dừng xe, đỗ xe" "dừng xe, đỗ xe";
   demo_chunk "khoản 1 Điều 12" "e: vượt xe" "vượt xe";
   demo_chunk "điểm b khoản 2 Điều 21" "f: mũ bảo hiểm" "mũ bảo hiểm"].

Fixpoint insert_asc (a : list float) (i : nat) (l : list nat) : list nat :=
  match l with
  | [] => [i]
  | j :: t =>
    if PrimFloat.ltb (default 0%float (a !! j)) (default 0%float (a !! i))
    then j :: insert_asc a i t else i :: l
  end.

Definition demo_argsort (a : list float) : list nat :=
  foldr (insert_asc a) [] (seq 0 (length a)).

Definition demo_relevance (text : option str) : float :=
  match text with
  | Some (c :: _) =>
      if (c =? 97)%N then 0.9%float
      else if (c =? 98)%N then 0.2%float
      else if (c =? 99)%N then 0.7%float
      else if (c =? 100)%N then 0.4%float
      else if (c =? 101)%N then 0.6%float else 0.1%float
  | _ => 0%float
  end.

Definition demo_objects : list DenseObj :=
  match demo_chunks with
  | c0 :: _ :: c2 :: _ =>
      [ {| properties := c0; distance := Some 0.1%float |};
        {| properties := c2; distance := Some 0.4%float |} ]
  | _ => []
  end.

#[export] Instance demo_env : Env := {
  vi_tokenize q := [q];
  bm25_get_scores _ := [10; 5; 0; 3; 0; 1]%float;
  np_argsort := demo_argsort;
  emb_encode _ := [1%float];
  near_vector _ k := slice_to demo_objects k;
  reranker_predict pairs := map (fun p => demo_relevance p.2) pairs;
  generate_content _ := GemText (Some (lit "Theo khoản 2 Điều 15."));
  chunks_cache := demo_chunks
}.

(** * Properties *)

(** ** Computations in [M] *)

Lemma bind_Ok {A B} (m : M A) (f : A -> M B) (a : A) :
  outcome m = Ok a ->
  m ≫= f = MkM (trace m ++ trace (f a)) (outcome (f a)).
Proof. intros H. unfold mbind, M_bind. now rewrite H. Qed.

Lemma bind_Raise {A B} (m : M A) (f : A -> M B) (e : exn) :
  outcome m = Raise e -> m ≫= f = MkM (trace m) (Raise e).
Proof. intros H. unfold mbind, M_bind. now rewrite H. Qed.

Lemma bind_ret {A B} (a : A) (f : A -> M B) : mret a ≫= f = f a.
Proof. unfold mbind, M_bind, mret, M_ret. simpl. now destruct (f a). Qed.

Lemma bind_call {A B} (ev : event) (a : A) (f : A -> M B) :
  call ev a ≫= f = MkM (ev :: trace (f a)) (outcome (f a)).
Proof. reflexivity. Qed.

Lemma outcome_bind_Ok {A B} (m : M A) (f : A -> M B) (a : A) :
  outcome m = Ok a -> outcome (m ≫= f) = outcome (f a).
Proof. intros H. now rewrite (bind_Ok _ _ _ H). Qed.

Lemma outcome_bind_inv {A B} (m : M A) (f : A -> M B) (b : B) :
  outcome (m ≫= f) = Ok b ->
  exists a, outcome m = Ok a /\ outcome (f a) = Ok b.
Proof.
  unfold mbind, M_bind. destruct (outcome m) as [a|e] eqn:Hm; simpl.
  - intros H. now exists a.
  - discriminate.
Qed.

(** ** The order of binary64 numbers *)

Lemma float_neq (x y : float) :
  PrimFloat.eqb x y = false -> PrimFloat.eqb y y = true -> x <> y.
Proof. intros H1 H2 ->. congruence. Qed.

Lemma ltb_leb (x y : float) :
  PrimFloat.ltb x y = true -> PrimFloat.leb x y = true.
Proof.
  rewrite FloatAxioms.ltb_spec, FloatAxioms.leb_spec. unfold SFltb, SFleb.
  destruct (SFcompare _ _) as [[]|]; congruence.
Qed.

Lemma SFcompare_antisym (x y : spec_float) :
  SFcompare y x = option_map CompOpp (SFcompare x y).
Proof.
  destruct x as [sx|sx| |sx mx ex], y as [sy|sy| |sy my ey]; simpl;
    try reflexivity; try (destruct sx; reflexivity);
    try (destruct sy; reflexivity);
    try (destruct sx, sy; reflexivity).
  destruct sx, sy; simpl; try reflexivity;
    rewrite (Z.compare_antisym ex ey);
    destruct (ex ?= ey)%Z eqn:He; simpl; try reflexivity;
    rewrite (Pos.compare_cont_antisym mx my Eq); simpl;
    destruct (Pos.compare_cont Eq mx my); reflexivity.
Qed.

Lemma is_nan_SF (x : float) :
  is_nan x = false -> Prim2SF x <> S754_nan.
Proof.
  unfold is_nan. rewrite FloatAxioms.eqb_spec. unfold SFeqb.
  intros H E. rewrite E in H. discriminate.
Qed.

Lemma SFcompare_defined (x y : spec_float) :
  x <> S754_nan -> y <> S754_nan -> SFcompare x y <> None.
Proof.
  destruct x as [sx|sx| |sx mx ex], y as [sy|sy| |sy my ey]; simpl;
    intros Hx Hy; congruence.
Qed.

(** Among numbers that are not NaN, [<] and [<=] are complementary. *)
Lemma ltb_false_leb (x y : float) :
  is_nan x = false -> is_nan y = false ->
  PrimFloat.ltb x y = false -> PrimFloat.leb y x = true.
Proof.
  intros Hx%is_nan_SF Hy%is_nan_SF.
  rewrite FloatAxioms.ltb_spec, FloatAxioms.leb_spec. unfold SFltb, SFleb.
  rewrite (SFcompare_antisym (Prim2SF x) (Prim2SF y)).
  pose proof (SFcompare_defined _ _ Hx Hy) as Hd.
  destruct (SFcompare (Prim2SF x) (Prim2SF y)) as [[]|]; simpl; congruence.
Qed.

Lemma leb_refl (x : float) : is_nan x = false -> PrimFloat.leb x x = true.
Proof.
  intros Hx. apply ltb_false_leb; try assumption.
  rewrite FloatAxioms.ltb_spec. unfold SFltb.
  pose proof (SFcompare_antisym (Prim2SF x) (Prim2SF x)) as H.
  destruct (SFcompare (Prim2SF x) (Prim2SF x)) as [[]|]; simpl in *; congruence.
Qed.

Lemma SFopp_compare (x y : spec_float) :
  SFcompare (SFopp x) (SFopp y) = SFcompare y x.
Proof.
  rewrite (SFcompare_antisym x y).
  destruct x as [sx|sx| |sx mx ex], y as [sy|sy| |sy my ey]; simpl;
    try reflexivity; try (destruct sx; reflexivity);
    try (destruct sy; reflexivity);
    try (destruct sx, sy; reflexivity).
  destruct sx, sy; simpl; try reflexivity;
    destruct (ex ?= ey)%Z; simpl; try reflexivity;
    destruct (Pos.compare_cont Eq mx my); reflexivity.
Qed.

Lemma ltb_opp (x y : float) :
  PrimFloat.ltb (- x) (- y) = PrimFloat.ltb y x.
Proof.
  rewrite !FloatAxioms.ltb_spec, !FloatAxioms.opp_spec. unfold SFltb. now rewrite SFopp_compare.
Qed.

(** ** Slices *)

Lemma slice_to_take {A} (l : list A) (k : Z) :
  0 <= k -> slice_to l k = take (Z.to_nat k) l.
Proof. intros Hk. unfold slice_to. destruct (Z.ltb_spec k 0); [lia|done]. Qed.

Lemma slice_to_length {A} (l : list A) (k : Z) :
  0 <= k -> Z.of_nat (length (slice_to l k)) = Z.min (Z.of_nat (length l)) k.
Proof. intros Hk. rewrite slice_to_take, length_take by done. lia. Qed.

Lemma slice_to_prefix {A} (l : list A) (k : Z) :
  exists n, slice_to l k = take n l.
Proof. unfold slice_to. destruct (k <? 0); eauto. Qed.

Lemma slice_to_submseteq {A} (l : list A) (k : Z) : slice_to l k ⊆+ l.
Proof. destruct (slice_to_prefix l k) as [n ->]. apply submseteq_take. Qed.

Lemma Sorted_take {A} (R : relation A) (l : list A) (n : nat) :
  Sorted R l -> Sorted R (take n l).
Proof.
  intros H. revert n. induction H as [|x l Hl IH Hx]; intros [|n]; simpl;
    try constructor; auto.
  destruct Hx as [|y l' Hxy]; destruct n; simpl; constructor; auto.
Qed.

Lemma Sorted_slice_to {A} (R : relation A) (l : list A) (k : Z) :
  Sorted R l -> Sorted R (slice_to l k).
Proof. destruct (slice_to_prefix l k) as [n ->]. apply Sorted_take. Qed.

(** ** The descending stable sort *)

Section SortFacts.
Context {A : Type} (key : A -> float).

(** [a] may stand before [b] in a list that is sorted from high to low. *)
Definition desc (a b : A) : Prop := PrimFloat.leb (key b) (key a) = true.

Definition comparable (l : list A) : Prop :=
  Forall (fun x => is_nan (key x) = false) l.

Lemma insert_desc_perm (x : A) (l : list A) : insert_desc key x l ≡ₚ x :: l.
Proof.
  induction l as [|y l IH]; simpl; [done|].
  destruct (PrimFloat.ltb _ _); [|done].
  rewrite IH. apply Permutation_swap.
Qed.

Lemma sort_desc_perm (l : list A) : sort_desc key l ≡ₚ l.
Proof.
  induction l as [|x l IH]; simpl; [done|].
  rewrite insert_desc_perm. now rewrite IH.
Qed.

Lemma sort_desc_length (l : list A) : length (sort_desc key l) = length l.
Proof. now rewrite sort_desc_perm. Qed.

Lemma insert_desc_sorted (x : A) (l : list A) :
  is_nan (key x) = false -> comparable l ->
  Sorted desc l -> Sorted desc (insert_desc key x l).
Proof.
  intros Hx Hl Hs. induction Hs as [|y l Hs IH Hy]; simpl.
  - repeat constructor.
  - apply Forall_cons in Hl as [Hny Hl].
    destruct (PrimFloat.ltb (key x) (key y)) eqn:Hlt.
    + constructor; [auto|].
      destruct Hy as [|z l Hyz]; simpl.
      * constructor. now apply ltb_leb.
      * destruct (PrimFloat.ltb (key x) (key z)); constructor;
          [done | now apply ltb_leb].
    + constructor; [now constructor|].
      constructor. now apply ltb_false_leb.
Qed.

Lemma sort_desc_comparable (l : list A) :
  comparable l -> comparable (sort_desc key l).
Proof. unfold comparable. now rewrite sort_desc_perm. Qed.

Lemma sort_desc_sorted (l : list A) :
  comparable l -> Sorted desc (sort_desc key l).
Proof.
  induction l as [|x l IH]; intros Hl; simpl; [constructor|].
  apply Forall_cons in Hl as [Hx Hl].
  apply insert_desc_sorted; auto using sort_desc_comparable.
Qed.

End SortFacts.


Lemma sort_desc_cons {A} (key : A -> float) (x : A) (l : list A) :
  sort_desc key (x :: l) = insert_desc key x (sort_desc key l).
Proof. reflexivity. Qed.



(** ** What the matcher accepts *)

Section RegexFacts.
Context {U : UnicodeDB}.

(** The character before the cursor once [w] has been read. *)
Definition after (prev : option N) (w : str) : option N :=
  match last w with
  | Some x => Some x
  | None => prev
  end.

(** [den r prev w rest]: the pattern [r] matches the text [w] that stands
    after the character [prev] and before the text [rest]. *)
Fixpoint den (r : regex) (prev : option N) (w rest : str) : Prop :=
  match r with
  | RLit c => exists x, w = [x] /\ re_ieq c x = true
  | REps => w = []
  | RFail => False
  | RSeq r1 r2 =>
      exists w1 w2, w = w1 ++ w2 /\ den r1 prev w1 (w2 ++ rest)
                    /\ den r2 (after prev w1) w2 rest
  | RAlt r1 r2 => den r1 prev w rest \/ den r2 prev w rest
  | RPlus cls => w <> [] /\ Forall (fun c => in_class cls c = true) w
  | RStar cls => Forall (fun c => in_class cls c = true) w
  | RWordB => w = [] /\ xorb (is_word prev) (is_word (head rest)) = true
  end.

Lemma after_nil (prev : option N) : after prev [] = prev.
Proof. reflexivity. Qed.

Lemma after_cons (prev : option N) (c : N) (w : str) :
  after prev (c :: w) = after (Some c) w.
Proof. unfold after. rewrite last_cons. now destruct (last w). Qed.

Lemma after_app (prev : option N) (w1 w2 : str) :
  after prev (w1 ++ w2) = after (after prev w1) w2.
Proof. unfold after. rewrite last_app. now destruct (last w2). Qed.

Lemma span_spec (cls : charclass) (prev : option N) (s : str) (st : mstate) :
  st ∈ span cls prev s <->
  exists w, s = w ++ st.2 /\ st.1 = after prev w
            /\ Forall (fun c => in_class cls c = true) w.
Proof.
  revert prev. induction s as [|c t IH]; intros prev; simpl.
  - rewrite list_elem_of_singleton. split.
    + intros ->. exists []. simpl. auto.
    + intros (w & Hs & Hp & _). symmetry in Hs.
      apply app_eq_nil in Hs as [-> Hs]. destruct st; simpl in *. now subst.
  - rewrite elem_of_cons. split.
    + intros [->|Hin].
      * exists []. simpl. auto.
      * destruct (in_class cls c) eqn:Hc; [|now apply elem_of_nil in Hin].
        apply IH in Hin as (w & Hs & Hp & Hw).
        exists (c :: w). rewrite after_cons. simpl. rewrite <- Hs. auto.
    + intros (w & Hs & Hp & Hw). destruct w as [|x w]; simpl in Hs.
      * left. destruct st; simpl in *. now subst.
      * right. injection Hs as <- Hs. apply Forall_cons in Hw as [Hx Hw].
        rewrite Hx. apply IH. exists w. rewrite after_cons in Hp. auto.
Qed.

(** The matcher is sound and complete for [den]. *)
Lemma rmatch_den (r : regex) (prev : option N) (s : str) (st : mstate) :
  st ∈ rmatch r (prev, s) <->
  exists w, s = w ++ st.2 /\ st.1 = after prev w /\ den r prev w st.2.
Proof.
  revert prev s st. induction r as [c| | |r1 IH1 r2 IH2|r1 IH1 r2 IH2|cls|cls|];
    intros prev s [p' s']; cbn [rmatch den fst snd].
  - destruct s as [|x t].
    + split; [intros H; now apply elem_of_nil in H|].
      intros (w & Hs & _ & y & -> & _). done.
    + split.
      * destruct (re_ieq c x) eqn:Hc; [|intros H; now apply elem_of_nil in H].
        intros [= -> ->]%list_elem_of_singleton. exists [x]. eauto.
      * intros (w & Hs & Hp & y & -> & Hy). simpl in Hs. injection Hs as -> ->.
        rewrite Hy. apply list_elem_of_singleton. now rewrite Hp.
  - rewrite list_elem_of_singleton. split.
    + intros [= -> ->]. now exists [].
    + intros (w & Hs & Hp & ->). simpl in *. now subst.
  - split; [intros H; now apply elem_of_nil in H|]. now intros (w & _ & _ & []).
  - rewrite list_elem_of_In, in_flat_map. split.
    + intros ([p1 s1] & H1 & H2).
      apply list_elem_of_In, IH1 in H1 as (w1 & Hs1 & Hp1 & Hd1).
      apply list_elem_of_In, IH2 in H2 as (w2 & Hs2 & Hp2 & Hd2).
      simpl in *. subst s1 p1. exists (w1 ++ w2).
      rewrite <- app_assoc, after_app.
      split; [done|]. split; [done|]. exists w1, w2. auto.
    + intros (w & Hs & Hp & w1 & w2 & -> & Hd1 & Hd2).
      exists (after prev w1, w2 ++ s'). split; apply list_elem_of_In.
      * apply IH1. exists w1. simpl. rewrite Hs, <- app_assoc. auto.
      * apply IH2. exists w2. simpl. rewrite after_app in Hp. auto.
  - rewrite elem_of_app, IH1, IH2. simpl. split.
    + intros [(w & ? & ? & ?)|(w & ? & ? & ?)]; exists w; auto.
    + intros (w & ? & ? & [?|?]); [left|right]; exists w; auto.
  - destruct s as [|x t].
    + split; [intros H; now apply elem_of_nil in H|].
      intros (w & Hs & _ & Hne & _). symmetry in Hs.
      now apply app_eq_nil in Hs as [-> _].
    + split.
      * destruct (in_class cls x) eqn:Hx; [|intros H; now apply elem_of_nil in H].
        intros (w & Hs & Hp & Hw)%span_spec. simpl in *.
        exists (x :: w). rewrite after_cons. simpl. rewrite <- Hs. auto.
      * intros (w & Hs & Hp & Hne & Hw). destruct w as [|y w]; [done|].
        simpl in Hs. injection Hs as <- Hs.
        apply Forall_cons in Hw as [Hy Hw]. rewrite Hy.
        apply span_spec. exists w. rewrite after_cons in Hp. auto.
  - apply span_spec.
  - split.
    + destruct (xorb _ _) eqn:Hx; [|intros H; now apply elem_of_nil in H].
      intros [= -> ->]%list_elem_of_singleton. now exists [].
    + intros (w & Hs & Hp & -> & Hx). simpl in *. subst. rewrite Hx.
      now apply list_elem_of_singleton.
Qed.

Lemma matches_at_den (r : regex) (prev : option N) (s : str) :
  matches_at r prev s = true <->
  exists w post, s = w ++ post /\ den r prev w post.
Proof.
  unfold matches_at. split.
  - destruct (rmatch r (prev, s)) as [|st l] eqn:Hm; [done|]. intros _.
    assert (Hin : st ∈ rmatch r (prev, s)) by (rewrite Hm; apply elem_of_cons; now left).
    apply rmatch_den in Hin as (w & Hs & _ & Hd). eauto.
  - intros (w & post & Hs & Hd).
    assert (Hin : (after prev w, post) ∈ rmatch r (prev, s)).
    { apply rmatch_den. exists w. auto. }
    destruct (rmatch r (prev, s)); [now apply elem_of_nil in Hin|done].
Qed.

Lemma search_from_den (r : regex) (prev : option N) (s : str) :
  search_from r prev s = true <->
  exists pre w post, s = pre ++ w ++ post /\ den r (after prev pre) w post.
Proof.
  revert prev. induction s as [|c t IH]; intros prev; cbn [search_from].
  - rewrite orb_false_r, matches_at_den. split.
    + intros (w & post & Hs & Hd). exists [], w, post. auto.
    + intros (pre & w & post & Hs & Hd). symmetry in Hs.
      apply app_eq_nil in Hs as [-> Hs]. eauto.
  - rewrite orb_true_iff, matches_at_den, IH. split.
    + intros [(w & post & Hs & Hd)|(pre & w & post & Hs & Hd)].
      * exists [], w, post. auto.
      * exists (c :: pre), w, post. rewrite after_cons. simpl. now rewrite Hs.
    + intros (pre & w & post & Hs & Hd). destruct pre as [|x pre].
      * left. exists w, post. auto.
      * right. simpl in Hs. injection Hs as <- Hs. rewrite after_cons in Hd.
        exists pre, w, post. auto.
Qed.

(** [pattern.search(q)] succeeds exactly when [q] holds a text that the
    pattern matches in its place. *)
Lemma re_search_den (r : regex) (q : str) :
  re_search r q = true <->
  exists pre w post, q = pre ++ w ++ post /\ den r (last pre) w post.
Proof.
  unfold re_search. rewrite search_from_den.
  split; intros (pre & w & post & Hq & Hd); exists pre, w, post;
    (split; [done|]); unfold after in *; now destruct (last pre).
Qed.

End RegexFacts.

(** *** The two query patterns, in words *)

Section PatternFacts.
Context {U : UnicodeDB}.

(** [w] spells the word [t] when case is ignored. *)
Definition ieq_word (t w : str) : Prop :=
  Forall2 (fun c x => re_ieq c x = true) t w.

(** A word boundary lies between the character [prev] and the text [next]. *)
Definition boundary (prev : option N) (next : str) : Prop :=
  xorb (is_word prev) (is_word (head next)) = true.

(** The query holds a chapter, section, article, clause or point marker that
    starts at a word boundary and is followed by white space and a Roman
    numeral or digit. *)
Definition holds_legal_reference (q : str) : Prop :=
  exists pre tok ws num post,
    q = pre ++ (tok ++ ws ++ num) ++ post /\
    boundary (last pre) (tok ++ ws ++ num ++ post) /\
    (exists t, t ∈ LEGAL_TOKENS /\ ieq_word t tok) /\
    ws <> [] /\ Forall (fun c => uni_isspace c = true) ws /\
    num <> [] /\
    Forall (fun c => in_class (CSet (lit "IVXLC") true) c = true) num.

(** The query holds a number that starts at a word boundary and is followed,
    after optional white space, by a recognized unit that ends at a word
    boundary. *)
Definition holds_number_with_unit (q : str) : Prop :=
  exists pre digits ws unit post,
    q = pre ++ (digits ++ ws ++ unit) ++ post /\
    boundary (last pre) (digits ++ ws ++ unit ++ post) /\
    digits <> [] /\ Forall (fun c => uni_isdecimal c = true) digits /\
    Forall (fun c => uni_isspace c = true) ws /\
    (exists t, t ∈ NUMERIC_UNITS /\ ieq_word t unit) /\
    boundary (after (last pre) (digits ++ ws ++ unit)) post.

(** The query holds a number that starts at a word boundary and is followed,
    after optional white space, by a percent sign, whatever stands after the
    sign. *)
Definition holds_percentage (q : str) : Prop :=
  exists pre digits ws pct post,
    q = pre ++ (digits ++ ws ++ pct) ++ post /\
    boundary (last pre) (digits ++ ws ++ pct ++ post) /\
    digits <> [] /\ Forall (fun c => uni_isdecimal c = true) digits /\
    Forall (fun c => uni_isspace c = true) ws /\
    ieq_word (lit "%") pct.

(** The word boundary that [NUMERIC_INFO_RE] asks for after the unit, at the
    unit "%": the percent sign being no word character, the boundary is
    there only when a word character follows the sign.  A percentage that
    ends the query, or is followed by a space or a punctuation mark, is
    therefore not matched through this unit. *)
Lemma percentage_needs_word_after (prev : option N)
    (digits ws pct post : str) :
  (forall c, re_ieq 37 c = true -> is_word (Some c) = false) ->
  ieq_word (lit "%") pct ->
  boundary (after prev (digits ++ ws ++ pct)) post ->
  is_word (head post) = true.
Proof.
  intros Hsign Hpct. unfold boundary.
  change (lit "%") with [37%N] in Hpct.
  inversion Hpct as [|p c t l Hc Hnil]; subst. inversion Hnil; subst.
  rewrite !after_app. change (after _ [c]) with (Some c).
  rewrite (Hsign c Hc). now destruct (is_word (head post)).
Qed.

Lemma den_RStr (t : str) (prev : option N) (w rest : str) :
  den (RStr t) prev w rest <-> ieq_word t w.
Proof.
  unfold ieq_word. revert prev w rest.
  induction t as [|c t IH]; intros prev w rest; simpl.
  - split; [intros ->; constructor|]. intros H. now inversion H.
  - split.
    + intros (w1 & w2 & -> & (x & -> & Hx) & Hd). simpl.
      constructor; [done|]. now apply IH in Hd.
    + intros H. inversion H as [|? x ? w' Hx Hw]; subst.
      exists [x], w'. split; [done|]. split; [eauto|]. now apply IH.
Qed.

Lemma den_words_alt (ws : list str) (prev : option N) (w rest : str) :
  den (words_alt ws) prev w rest <-> exists t, t ∈ ws /\ ieq_word t w.
Proof.
  unfold words_alt. induction ws as [|t ws IH]; simpl.
  - split; [done|]. intros (t & Ht & _). now apply elem_of_nil in Ht.
  - rewrite den_RStr, IH. split.
    + intros [H|(t' & Ht & H)].
      * exists t. split; [apply elem_of_cons; now left|done].
      * exists t'. split; [apply elem_of_cons; now right|done].
    + intros (t' & [->|Ht]%elem_of_cons & H); [now left|right; eauto].
Qed.

Lemma legal_hint_search (q : str) :
  re_search LEGAL_HINT_RE q = true <-> holds_legal_reference q.
Proof.
  rewrite re_search_den. unfold holds_legal_reference, boundary. split.
  - intros (pre & w & post & Hq & Hd). unfold LEGAL_HINT_RE in Hd.
    cbn [den] in Hd.
    destruct Hd as (w1 & w2 & -> & [-> Hb] & tok & w3 & -> & Htok
                    & ws & num & -> & [Hws1 Hws2] & [Hn1 Hn2]).
    apply den_words_alt in Htok.
    exists pre, tok, ws, num, post. simpl in *.
    rewrite <- !app_assoc in Hb. auto 10.
  - intros (pre & tok & ws & num & post & Hq & Hb & Htok & Hws1 & Hws2
            & Hn1 & Hn2).
    exists pre, (tok ++ ws ++ num), post. split; [done|].
    unfold LEGAL_HINT_RE. cbn [den].
    exists [], (tok ++ ws ++ num). split; [done|]. split.
    { split; [done|]. now rewrite <- !app_assoc. }
    exists tok, (ws ++ num). split; [done|]. split.
    { now apply den_words_alt. }
    exists ws, num. auto.
Qed.

Lemma numeric_info_search (q : str) :
  re_search NUMERIC_INFO_RE q = true <-> holds_number_with_unit q.
Proof.
  rewrite re_search_den. unfold holds_number_with_unit, boundary. split.
  - intros (pre & w & post & Hq & Hd). unfold NUMERIC_INFO_RE in Hd.
    cbn [den] in Hd.
    destruct Hd as (w1 & w2 & -> & [-> Hb] & digits & w3 & -> & [Hd1 Hd2]
                    & ws & w4 & -> & Hws & unit & w5 & -> & Hunit
                    & [-> He]).
    apply den_words_alt in Hunit.
    exists pre, digits, ws, unit, post. simpl in *.
    rewrite !app_nil_r in *. rewrite <- !app_assoc in Hb.
    rewrite <- !after_app in He. auto 10.
  - intros (pre & digits & ws & unit & post & Hq & Hb & Hd1 & Hd2 & Hws
            & Hunit & He).
    exists pre, (digits ++ ws ++ unit), post. split; [done|].
    unfold NUMERIC_INFO_RE. cbn [den].
    exists [], (digits ++ ws ++ unit). split; [done|]. split.
    { split; [done|]. now rewrite <- !app_assoc. }
    exists digits, (ws ++ unit). split; [done|]. split; [done|].
    exists ws, unit. split; [done|]. split; [done|].
    exists unit, []. rewrite app_nil_r. split; [done|]. split.
    { now apply den_words_alt. }
    split; [done|]. simpl. now rewrite <- !after_app.
Qed.

End PatternFacts.

(** ** tune_alpha *)

Example lit_dieu : lit "Điều 15" = [272; 105; 7873; 117; 32; 49; 53]%N.
Proof. reflexivity. Qed.

Example tune_alpha_numeric :
  tune_alpha (lit "phạt 5 triệu đồng") 0.55 = 0.4%float.
Proof. vm_compute. reflexivity. Qed.

(** A percentage followed by a space is not recognized as a number with a
    unit. *)
Example tune_alpha_percent :
  re_search NUMERIC_INFO_RE (lit "giảm 5% giá") = false /\
  tune_alpha (lit "giảm 5% giá") 0.55 = 0.75%float.
Proof. split; vm_compute; reflexivity. Qed.

Example tune_alpha_upper_case :
  tune_alpha (lit "theo ĐIỀU  xv thì sao") 0.55 = 0.30000000000000004%float.
Proof. vm_compute. reflexivity. Qed.

Example tune_alpha_generic :
  tune_alpha (lit "người đi xe dàn hàng ba bị xử phạt như thế nào?") 0.55
  = 0.75%float.
Proof. vm_compute. reflexivity. Qed.

(** The three values at the default base weight, in binary64 arithmetic. *)
Lemma alpha_values :
  py_max 0.30 (0.55 - 0.25) = 0.30000000000000004%float /\
  py_max 0.40 (0.55 - 0.15) = 0.40%float /\
  py_min 0.75 (0.55 + 0.20) = 0.75%float.
Proof. repeat split; vm_compute; reflexivity. Qed.

(** C2, as amended: the first matching pattern decides.  With base 0.55 a
    query that holds a legal reference gets max(0.30, base - 0.25), which in
    binary64 arithmetic is 0.30000000000000004, the number next above 0.30;
    otherwise a query that holds a number with a unit, the number starting
    and the unit ending at a word boundary, gets max(0.40, base - 0.15)
    = 0.40; a query that holds neither, and no number followed by a percent
    sign, gets min(0.75, base + 0.20) = 0.75.  The result always lies in
    [0.30, 0.75].  Nothing is said here of a query whose percentage the
    pattern does not recognize (see [percentage_needs_word_after] and
    [tune_alpha_percent]). *)
Theorem tune_alpha_first_match {U : UnicodeDB} (query : str) :
  (holds_legal_reference query ->
   tune_alpha query 0.55 = py_max 0.30 (0.55 - 0.25) /\
   tune_alpha query 0.55 = 0.30000000000000004%float) /\
  (~ holds_legal_reference query -> holds_number_with_unit query ->
   tune_alpha query 0.55 = py_max 0.40 (0.55 - 0.15) /\
   tune_alpha query 0.55 = 0.40%float) /\
  (~ holds_legal_reference query -> ~ holds_number_with_unit query ->
   ~ holds_percentage query ->
   tune_alpha query 0.55 = py_min 0.75 (0.55 + 0.20) /\
   tune_alpha query 0.55 = 0.75%float) /\
  PrimFloat.leb 0.30 (tune_alpha query 0.55) = true /\
  PrimFloat.leb (tune_alpha query 0.55) 0.75 = true.
Proof.
  destruct alpha_values as (H1 & H2 & H3).
  rewrite <- legal_hint_search, <- numeric_info_search.
  unfold tune_alpha. rewrite H1, H2, H3.
  destruct (re_search LEGAL_HINT_RE query);
    [|destruct (re_search NUMERIC_INFO_RE query)];
    repeat split; try done; vm_compute; reflexivity.
Qed.

(** C2, as stated, fails: the query "Điều 15" holds a legal reference, and
    the value returned for it is not the binary64 number 0.30. *)
Lemma tune_alpha_legal_reference_not_030 :
  re_search LEGAL_HINT_RE (lit "Điều 15") = true /\
  tune_alpha (lit "Điều 15") 0.55 <> 0.30%float /\
  PrimFloat.ltb 0.30 (tune_alpha (lit "Điều 15") 0.55) = true.
Proof.
  split; [vm_compute; reflexivity|]. split.
  - apply float_neq; vm_compute; reflexivity.
  - vm_compute; reflexivity.
Qed.

(** ** retrieve_dense *)

Section DenseFacts.
Context {U : UnicodeDB} {E : Env}.

Lemma retrieve_dense_eq (query : str) (k : Z) :
  retrieve_dense query k =
  MkM [EvEncode query; EvNearVector k]
      (Ok (map dense_candidate (near_vector (emb_encode query) k))).
Proof. reflexivity. Qed.

(** The score of a result whose distance is present and not zero. *)
Lemma dense_score_truthy (d : float) :
  float_truthy d = true -> dense_score (Some d) = (1.0 - d)%float.
Proof. intros H. simpl. now rewrite H. Qed.

Lemma dense_score_absent : dense_score None = 0%float.
Proof. reflexivity. Qed.

(** C4 at the failing input: a result at distance 0, an exact match, is given
    the score 0 and not 1 - 0 = 1, because the number 0.0 is falsy. *)
Theorem dense_score_zero_distance (query : str) (k : Z) (p : Props) :
  outcome (retrieve_dense query k) =
    Ok (map dense_candidate (near_vector (emb_encode query) k)) /\
  score (dense_candidate {| properties := p; distance := Some 0%float |})
    = 0%float /\
  score (dense_candidate {| properties := p; distance := Some (-0)%float |})
    = 0%float /\
  (1.0 - 0)%float = 1%float /\
  (0 <> 1)%float.
Proof.
  repeat split; try (vm_compute; reflexivity).
  apply float_neq; vm_compute; reflexivity.
Qed.

End DenseFacts.

(** ** rerank *)

Section RerankFacts.
Context {U : UnicodeDB} {E : Env}.

Definition rerank_pairs (query : str) (candidates : list Candidate)
    : list (str * option str) :=
  map (fun text => (query, text))
      (map (fun c => get_or_empty (props c) "enriched_text") candidates).

Lemma py_index_Some {A} (l : list A) (i : nat) (x : A) :
  l !! i = Some x -> py_index l i = mret x.
Proof. unfold py_index. now intros ->. Qed.

Lemma py_index_None {A} (l : list A) (i : nat) :
  l !! i = None -> py_index l i = raise IndexError.
Proof. unfold py_index. now intros ->. Qed.

Lemma set_rerank_scores_ok (candidates : list Candidate) (scores : list float)
    (i : nat) :
  (i + length candidates <= length scores)%nat ->
  set_rerank_scores candidates scores i =
  mret (zip_with with_rerank candidates (drop i scores)).
Proof.
  revert i. induction candidates as [|c cs IH]; intros i Hlen; simpl in *.
  - reflexivity.
  - destruct (lookup_lt_is_Some_2 scores i) as [s Hs]; [lia|].
    rewrite (py_index_Some _ _ _ Hs), bind_ret.
    rewrite IH by lia. rewrite bind_ret.
    now rewrite (drop_S _ _ _ Hs).
Qed.

(** The cross-encoder is asked once, and only for a list that is not empty. *)
Lemma rerank_eq (query : str) (candidates : list Candidate) (final_k : Z) :
  let scores := reranker_predict (rerank_pairs query candidates) in
  candidates <> [] ->
  length scores = length candidates ->
  rerank query candidates final_k =
  MkM [EvPredict (rerank_pairs query candidates)]
      (Ok (slice_to (sort_desc rerank_key
                       (zip_with with_rerank candidates scores)) final_k)).
Proof.
  intros scores Hne Hlen. destruct candidates as [|c cs]; [done|].
  unfold rerank.
  change (map (fun text => (query, text)) _)
    with (rerank_pairs query (c :: cs)).
  fold scores. rewrite bind_call.
  rewrite set_rerank_scores_ok by (rewrite Hlen; simpl; lia).
  rewrite bind_ret. reflexivity.
Qed.

Lemma rerank_key_with_rerank (c : Candidate) (s : float) :
  rerank_key (with_rerank c s) = s.
Proof. reflexivity. Qed.

Lemma comparable_zip_with_rerank (candidates : list Candidate)
    (scores : list float) :
  Forall (fun s => is_nan s = false) scores ->
  comparable rerank_key (zip_with with_rerank candidates scores).
Proof.
  intros Hs. unfold comparable. revert candidates.
  induction Hs as [|s scores Hx Hs IH]; intros [|c cs]; simpl;
    constructor; auto.
Qed.







End RerankFacts.

(** ** The run of the small environment *)

Example demo_retrieve_bm25 :
  outcome (retrieve_bm25 (lit "tốc độ") 3) = Ok ([0; 1; 3]%nat, [10; 5; 3]%float).
Proof. vm_compute. reflexivity. Qed.

Example demo_retrieve_sources :
  snd <$> (match outcome (retrieve (lit "tốc độ") (PyInt 2)) with
           | Ok r => Some r | Raise _ => None end)
  = Some [lit "khoản 2 Điều 15"; lit "điểm a khoản 3 Điều 7"].
Proof. vm_compute. reflexivity. Qed.

(** ** An empty lexical result *)

Section EmptyLexical.
Context {U : UnicodeDB} {E : Env}.

Lemma retrieve_bm25_zero (query : str) : retrieve_bm25 query 0 = mret ([], []).
Proof. reflexivity. Qed.



End EmptyLexical.

(** ** retrieve and generate_answer *)

Section Pipeline.
Context {U : UnicodeDB} {E : Env}.

Lemma rerank_length (query : str) (candidates out : list Candidate) (k : Z) :
  0 <= k ->
  outcome (rerank query candidates k) = Ok out ->
  Z.of_nat (length out) <= k.
Proof.
  intros Hk. unfold rerank. destruct candidates as [|c cs].
  - simpl. intros [= <-]. simpl. lia.
  - rewrite bind_call. simpl outcome.
    intros (scored & _ & H)%outcome_bind_inv. simpl in H.
    injection H as <-. rewrite slice_to_length by done. lia.
Qed.

Lemma retrieve_top_sources (question : str) (k : Z) (context : str)
    (sources : list str) :
  0 <= k ->
  outcome (retrieve_top question k) = Ok (context, sources) ->
  Z.of_nat (length sources) <= k.
Proof.
  intros Hk. unfold retrieve_top.
  intros (candidates & _ & H)%outcome_bind_inv.
  apply outcome_bind_inv in H as (top & Htop & H).
  simpl in H. injection H as _ <-.
  rewrite length_map. eapply rerank_length; eauto.
Qed.

(** C10: a falsy [k] (0 or None) is replaced by 5, so that [retrieve] then
    does exactly what it does for [k = 5] and, when it returns, returns at
    most 5 citations; a truthy [k] is passed through [int] and the integer
    bounds the number of results. *)
Theorem retrieve_falsy_k (question context : str) (sources : list str) :
  outcome (retrieve question (PyInt 0)) = Ok (context, sources) ->
  retrieve question (PyInt 0) = retrieve question (PyInt 5) /\
  retrieve question PyNone = retrieve question (PyInt 5) /\
  retrieve question (PyInt 0) = retrieve_top question 5 /\
  Z.of_nat (length sources) <= 5 /\
  (forall n, n <> 0 -> retrieve question (PyInt n) = retrieve_top question n) /\
  retrieve question (PyBool true) = retrieve_top question 1 /\
  (forall n context' sources',
      0 < n ->
      outcome (retrieve question (PyInt n)) = Ok (context', sources') ->
      Z.of_nat (length sources') <= n).
Proof.
  intros H.
  assert (H0 : retrieve question (PyInt 0) = retrieve_top question 5).
  { unfold retrieve. simpl truthy. cbv iota. apply bind_ret. }
  assert (Hn : forall n, n <> 0 ->
             retrieve question (PyInt n) = retrieve_top question n).
  { intros n Hn. unfold retrieve. simpl truthy.
    destruct (Z.eqb_spec n 0); [done|]. simpl. apply bind_ret. }
  split; [reflexivity|]. split; [reflexivity|].
  split; [exact H0|]. repeat split.
  - rewrite H0 in H. eapply retrieve_top_sources; [|exact H]. lia.
  - exact Hn.
  - unfold retrieve. simpl. apply bind_ret.
  - intros n c' s' Hpos Hr. rewrite Hn in Hr by lia.
    eapply retrieve_top_sources; [|exact Hr]. lia.
Qed.

Lemma strip_nil : strip [] = [].
Proof. reflexivity. Qed.

(** C9: a context shorter than the threshold of 300 characters, or made of
    white space only, gives the fixed sentinel and an empty citation list,
    and the trace records no oracle call; the same result reaches the caller
    of [ask_law], whose trace then holds the calls of retrieval only. *)
Theorem generate_answer_insufficient (question context : str)
    (sources : option (list str)) :
  Z.of_nat (length context) < 300 \/ strip context = [] ->
  generate_answer question context sources = MkM [] (Ok (INSUFFICIENT, [])) /\
  generate_answer question [] sources = MkM [] (Ok (INSUFFICIENT, [])) /\
  (forall k cited,
      outcome (retrieve question k) = Ok (context, cited) ->
      ask_law question k
      = MkM (trace (retrieve question k)) (Ok (INSUFFICIENT, []))).
Proof.
  intros H.
  assert (Hg : forall srcs,
             generate_answer question context srcs
             = MkM [] (Ok (INSUFFICIENT, []))).
  { intros srcs. unfold generate_answer.
    destruct H as [H|H].
    - destruct (Z.ltb_spec (Z.of_nat (length context)) 300); [|lia].
      now rewrite orb_true_r.
    - now rewrite H. }
  repeat split; [apply Hg|].
  intros k cited Hr. unfold ask_law.
  rewrite (bind_Ok _ _ _ Hr). simpl. rewrite Hg. simpl.
  now rewrite app_nil_r.
Qed.

End Pipeline.

(** C10 in the small environment: [retrieve(question, 0)] returns five
    results. *)
Definition demo_question : str := lit "tốc độ tối đa".

Definition demo_retrieved : str * list str :=
  match outcome (retrieve demo_question (PyInt 0)) with
  | Ok r => r
  | Raise _ => ([], [])
  end.

Lemma retrieve_falsy_k_witness :
  outcome (retrieve demo_question (PyInt 0))
    = Ok (demo_retrieved.1, demo_retrieved.2) /\
  length demo_retrieved.2 = 5%nat /\
  retrieve demo_question (PyInt 0) = retrieve demo_question (PyInt 5) /\
  Z.of_nat (length demo_retrieved.2) <= 5.
Proof.
  assert (H : outcome (retrieve demo_question (PyInt 0))
              = Ok (demo_retrieved.1, demo_retrieved.2))
    by (vm_compute; reflexivity).
  split; [exact H|]. split; [vm_compute; reflexivity|].
  pose proof (retrieve_falsy_k demo_question _ _ H) as (H1 & _ & _ & H4 & _).
  split; [exact H1 | exact H4].
Defined.

(** C9 on a context of seven characters. *)
Lemma generate_answer_insufficient_witness :
  generate_answer (lit "phạt bao nhiêu?") (lit "Điều 15") None
  = MkM [] (Ok (INSUFFICIENT, [])).
Proof.
  apply (generate_answer_insufficient (lit "phạt bao nhiêu?") (lit "Điều 15")
           None).
  left. vm_compute. reflexivity.
Defined.

(** ** _dedupe_sources *)

Section DedupeFacts.
Context {U : UnicodeDB}.

(** First occurrence wins: an entry is kept when its normalized form is not
    blank and no earlier entry has the same normalized form. *)
Fixpoint first_occurrences (earlier sources : list str) : list str :=
  match sources with
  | [] => []
  | s :: t =>
    let rest := first_occurrences (earlier ++ [s]) t in
    if nonempty (dedupe_key s)
       && negb (bool_decide (dedupe_key s ∈ dedupe_key <$> earlier))
    then s :: rest else rest
  end.

Lemma nonempty_true (s : str) : nonempty s = true <-> s <> [].
Proof. destruct s; simpl; split; congruence. Qed.

Lemma dedupe_loop_spec (sources earlier out : list str) (seen : gset str) :
  (forall key, key ∈ seen <-> key <> [] /\ key ∈ dedupe_key <$> earlier) ->
  dedupe_loop sources seen out = out ++ first_occurrences earlier sources.
Proof.
  revert earlier out seen.
  induction sources as [|s t IH]; intros earlier out seen Hseen; simpl.
  - now rewrite app_nil_r.
  - destruct (nonempty (dedupe_key s)) eqn:Hne; simpl.
    + apply nonempty_true in Hne.
      destruct (bool_decide_reflect (dedupe_key s ∈ seen)) as [Hin|Hin];
        destruct (bool_decide_reflect
                    (dedupe_key s ∈ dedupe_key <$> earlier)) as [Hin'|Hin'];
        simpl.
      * apply IH. intros key. rewrite Hseen, fmap_app, elem_of_app.
        simpl. rewrite list_elem_of_singleton.
        split; [tauto|]. intros [Hk [?| ->]]; tauto.
      * exfalso. apply Hin'. now apply Hseen.
      * exfalso. apply Hin. now apply Hseen.
      * rewrite (IH (earlier ++ [s]) (out ++ [s]) ({[dedupe_key s]} ∪ seen)).
        { now rewrite <- app_assoc. }
        intros key. rewrite elem_of_union, elem_of_singleton, Hseen.
        rewrite fmap_app, elem_of_app. simpl. rewrite list_elem_of_singleton.
        split; [intros [->|[? ?]]; tauto|tauto].
    + apply IH. intros key. rewrite Hseen, fmap_app, elem_of_app.
      simpl. rewrite list_elem_of_singleton.
      split; [tauto|]. intros [Hk [?| ->]]; [tauto|].
      exfalso. apply Hk. now destruct (dedupe_key s).
Qed.

Lemma dedupe_sources_spec (sources : list str) :
  _dedupe_sources sources = first_occurrences [] sources.
Proof.
  unfold _dedupe_sources. rewrite (dedupe_loop_spec sources [] [] ∅); [done|].
  intros key. simpl. rewrite elem_of_empty, elem_of_nil. tauto.
Qed.

Lemma first_occurrences_sublist (earlier sources : list str) :
  first_occurrences earlier sources `sublist_of` sources.
Proof.
  revert earlier. induction sources as [|s t IH]; intros earlier; simpl.
  - constructor.
  - destruct (_ && _); [apply sublist_skip | apply sublist_cons]; apply IH.
Qed.

Lemma first_occurrences_keys (earlier sources : list str) (s : str) :
  s ∈ first_occurrences earlier sources ->
  dedupe_key s <> [] /\ dedupe_key s ∉ dedupe_key <$> earlier.
Proof.
  revert earlier. induction sources as [|x t IH]; intros earlier; simpl.
  - intros H. now apply elem_of_nil in H.
  - assert (Hrest : s ∈ first_occurrences (earlier ++ [x]) t ->
                    dedupe_key s <> [] /\ dedupe_key s ∉ dedupe_key <$> earlier).
    { intros [Hk Hn]%IH. split; [done|]. intros Hin. apply Hn.
      rewrite fmap_app, elem_of_app. now left. }
    destruct (nonempty (dedupe_key x)) eqn:Hne; simpl; [|exact Hrest].
    destruct (bool_decide_reflect
                (dedupe_key x ∈ dedupe_key <$> earlier)) as [Hin|Hin];
      simpl; [exact Hrest|].
    intros [->|H]%elem_of_cons; [|now apply Hrest].
    split; [now apply nonempty_true|done].
Qed.

Lemma first_occurrences_NoDup (earlier sources : list str) :
  NoDup (dedupe_key <$> first_occurrences earlier sources).
Proof.
  revert earlier. induction sources as [|x t IH]; intros earlier; simpl.
  - constructor.
  - destruct (_ && _); [|apply IH].
    rewrite fmap_cons. constructor; [|apply IH].
    intros (s & Hs & Hin)%list_elem_of_fmap.
    apply first_occurrences_keys in Hin as [_ Hin]. apply Hin.
    rewrite <- Hs, fmap_app, elem_of_app. right. simpl.
    apply list_elem_of_singleton. reflexivity.
Qed.

Lemma first_occurrences_covers (earlier sources : list str) (s : str) :
  s ∈ sources -> dedupe_key s <> [] ->
  dedupe_key s ∈ dedupe_key <$> earlier \/
  dedupe_key s ∈ dedupe_key <$> first_occurrences earlier sources.
Proof.
  revert earlier. induction sources as [|x t IH]; intros earlier Hin Hk.
  - now apply elem_of_nil in Hin.
  - assert (Hx : dedupe_key s = dedupe_key x ->
             dedupe_key s ∈ dedupe_key <$> earlier \/
             dedupe_key s ∈ dedupe_key <$> first_occurrences earlier (x :: t)).
    { intros Hsx. simpl. rewrite <- Hsx.
      destruct (bool_decide_reflect
                  (dedupe_key s ∈ dedupe_key <$> earlier)) as [Hi|Hi];
        [now left|right].
      apply nonempty_true in Hk. rewrite Hk. simpl.
      rewrite ?fmap_cons, Hsx. apply elem_of_cons. now left. }
    apply elem_of_cons in Hin as [->|Hin]; [now apply Hx|].
    destruct (IH (earlier ++ [x]) Hin Hk) as [H|H].
    + rewrite fmap_app, elem_of_app in H. destruct H as [H|H]; [now left|].
      simpl in H. apply list_elem_of_singleton in H. now apply Hx.
    + right. simpl. destruct (_ && _); [|done].
      rewrite ?fmap_cons. apply elem_of_cons. now right.
Qed.

End DedupeFacts.

(** The citations that [retrieve] returns are those of the reranked results,
    one for each result and in their order. *)
Lemma retrieve_sources_ranked {U : UnicodeDB} {E : Env} (question : str)
    (k : pyval) (context : str) (sources : list str) :
  outcome (retrieve question k) = Ok (context, sources) ->
  exists n candidates top_results,
    outcome (retrieve_hybrid question (tune_alpha question 0.55) INITIAL_K)
      = Ok candidates /\
    outcome (rerank question candidates n) = Ok top_results /\
    sources = map (fun res => source_of (props res)) top_results.
Proof.
  unfold retrieve. intros (n & _ & H)%outcome_bind_inv.
  unfold retrieve_top in H.
  apply outcome_bind_inv in H as (candidates & Hc & H).
  apply outcome_bind_inv in H as (top & Htop & H).
  exists n, candidates, top. split; [exact Hc|]. split; [exact Htop|].
  cbn [outcome mret M_ret] in H. injection H as _ Hs. exact (eq_sym Hs).
Qed.

(** The citations that [ask_law] returns: none when the retrieved context is
    blank or shorter than 300 characters, the deduplicated citations of
    [retrieve] otherwise. *)
Lemma ask_law_cited {U : UnicodeDB} {E : Env} (question : str) (k : pyval)
    (answer : str) (cited : list str) :
  outcome (ask_law question k) = Ok (answer, cited) ->
  exists context sources,
    outcome (retrieve question k) = Ok (context, sources) /\
    (nonempty (strip context) = false \/ Z.of_nat (length context) < 300 ->
     cited = []) /\
    (nonempty (strip context) = true -> 300 <= Z.of_nat (length context) ->
     cited = _dedupe_sources sources).
Proof.
  unfold ask_law. intros ([context sources] & Hr & Hg)%outcome_bind_inv.
  exists context, sources. split; [exact Hr|].
  unfold generate_answer in Hg.
  destruct (nonempty (strip context)) eqn:Hs;
    destruct (Z.ltb_spec (Z.of_nat (length context)) 300) as [Hlt|Hge];
    cbn [negb orb] in Hg.
  - split; [|intros _ ?; lia]. intros _.
    cbn [outcome mret M_ret] in Hg. injection Hg as _ Hc. exact (eq_sym Hc).
  - split; [intros [?|?]; [done|lia]|]. intros _ _.
    rewrite bind_call in Hg. cbn [outcome mret M_ret] in Hg.
    injection Hg as _ Hc. exact (eq_sym Hc).
  - split; [|intros ?; done]. intros _.
    cbn [outcome mret M_ret] in Hg. injection Hg as _ Hc. exact (eq_sym Hc).
  - split; [|intros ?; done]. intros _.
    cbn [outcome mret M_ret] in Hg. injection Hg as _ Hc. exact (eq_sym Hc).
Qed.

(** C8, as amended: the citation list that [retrieve] produces for the ranked
    results holds the citation of every result, in rank order, and is not
    deduplicated.  Deduplication is done by [generate_answer]: the list that
    [ask_law] returns with the answer is empty when the retrieved context is
    blank or shorter than 300 characters, and is otherwise the deduplicated
    list.  Deduplication works on the citation strings after trimming,
    lower-casing and collapsing white space: an entry is kept exactly when
    its normalized form is not blank and no earlier entry has it, so the
    kept entries stand in their original order, no two of them share a
    normalized form, and every citation of the input is represented.  The
    input ["A", "b", "A", "C"] gives ["A", "b", "C"]. *)
Theorem dedupe_sources_first_seen {U : UnicodeDB} {E : Env} (question : str)
    (k : pyval) :
  (forall context sources,
      outcome (retrieve question k) = Ok (context, sources) ->
      exists n candidates top_results,
        outcome (retrieve_hybrid question (tune_alpha question 0.55)
                                 INITIAL_K) = Ok candidates /\
        outcome (rerank question candidates n) = Ok top_results /\
        sources = map (fun res => source_of (props res)) top_results) /\
  (forall answer cited,
      outcome (ask_law question k) = Ok (answer, cited) ->
      exists context sources,
        outcome (retrieve question k) = Ok (context, sources) /\
        (nonempty (strip context) = false
         \/ Z.of_nat (length context) < 300 -> cited = []) /\
        (nonempty (strip context) = true ->
         300 <= Z.of_nat (length context) ->
         cited = _dedupe_sources sources)) /\
  (forall sources,
      _dedupe_sources sources = first_occurrences [] sources /\
      _dedupe_sources sources `sublist_of` sources /\
      NoDup (dedupe_key <$> _dedupe_sources sources) /\
      (forall s, s ∈ sources -> dedupe_key s <> [] ->
                 dedupe_key s ∈ dedupe_key <$> _dedupe_sources sources) /\
      (forall s, s ∈ _dedupe_sources sources -> dedupe_key s <> [])) /\
  _dedupe_sources (U := vn_unicode) [lit "A"; lit "b"; lit "A"; lit "C"]
    = [lit "A"; lit "b"; lit "C"] /\
  _dedupe_sources (U := vn_unicode)
      [lit "Khoản 2  Điều 15"; lit " khoản 2 điều 15 "; lit "  ";
       lit "KHOẢN 2 ĐIỀU 15"; lit "khoản 1 Điều 5"]
    = [lit "Khoản 2  Điều 15"; lit "khoản 1 Điều 5"].
Proof.
  split; [intros context sources; apply retrieve_sources_ranked|].
  split; [intros answer cited; apply ask_law_cited|].
  split; [|split; vm_compute; reflexivity].
  intros sources. rewrite dedupe_sources_spec.
  split; [reflexivity|]. split; [apply first_occurrences_sublist|].
  split; [apply first_occurrences_NoDup|]. split.
  { intros s Hin Hk.
    destruct (first_occurrences_covers [] sources s Hin Hk) as [H|H]; [|done].
    simpl in H. now apply elem_of_nil in H. }
  intros s Hs. now apply first_occurrences_keys in Hs.
Qed.

(** C3 in the small environment: the pool of the demo question, cut to 2. *)
Definition demo_pool : list Candidate :=
  match outcome (retrieve_hybrid demo_question 0.75 INITIAL_K) with
  | Ok l => l
  | Raise _ => []
  end.


(** ** retrieve_bm25 *)

(** [a[i]], read as 0 outside the array *)
Definition item (a : list float) (i : nat) : float := default 0%float (a !! i).

(** What [np.argsort] promises for its default kind: the result is a
    permutation of the indices, and along it the values never go down.  The
    default kind is not a stable sort, so nothing is promised about the order
    of indices whose values are equal. *)
Definition argsort_spec (a : list float) (p : list nat) : Prop :=
  p ≡ₚ seq 0 (length a) /\
  forall i j pi pj,
    (i < j)%nat -> p !! i = Some pi -> p !! j = Some pj ->
    PrimFloat.ltb (item a pj) (item a pi) = false.

(** Ties are broken by corpus order. *)
Definition ties_in_corpus_order (idxs : list nat) (scs : list float) : Prop :=
  forall i j a b x y,
    (i < j)%nat -> idxs !! i = Some a -> idxs !! j = Some b ->
    scs !! i = Some x -> scs !! j = Some y ->
    PrimFloat.eqb x y = true -> (a < b)%nat.

Section LexicalFacts.
Context {U : UnicodeDB} {E : Env}.

Lemma np_take_ok (a : list float) (idxs : list nat) :
  Forall (fun i => (i < length a)%nat) idxs ->
  np_take a idxs = mret (map (item a) idxs).
Proof.
  unfold np_take. induction 1 as [|i idxs Hi _ IH]; [reflexivity|].
  destruct (lookup_lt_is_Some_2 a i Hi) as [x Hx].
  assert (Hit : item a i = x) by (unfold item; now rewrite Hx).
  cbn [mapM]. rewrite (py_index_Some _ _ _ Hx), bind_ret, IH, bind_ret.
  cbn [map]. now rewrite Hit.
Qed.

Lemma item_opp (a : list float) (i : nat) :
  (i < length a)%nat -> item (map PrimFloat.opp a) i = (- item a i)%float.
Proof.
  intros Hi. destruct (lookup_lt_is_Some_2 a i Hi) as [x Hx].
  unfold item. change (map PrimFloat.opp a) with (PrimFloat.opp <$> a).
  now rewrite list_lookup_fmap, Hx.
Qed.

Lemma argsort_in_range (a : list float) (p : list nat) (i pi : nat) :
  argsort_spec a p -> p !! i = Some pi -> (pi < length a)%nat.
Proof.
  intros [Hp _] Hi. apply list_elem_of_lookup_2 in Hi.
  rewrite Hp in Hi. apply elem_of_seq in Hi. lia.
Qed.

(** C5, as amended: provided [np.argsort] keeps its promise on the negated
    scores, no score is NaN and [k] is not negative, the lexical query scores
    every document and returns min(k, n) distinct document indices with their
    scores, in non-increasing order of score, and no document left out scores
    higher than a document returned.  The order among equal scores is the
    one [np.argsort] happens to produce. *)
Theorem retrieve_bm25_top_k (query : str) (k : Z) :
  let scores := bm25_get_scores (vi_tokenize query) in
  argsort_spec (map PrimFloat.opp scores)
               (np_argsort (map PrimFloat.opp scores)) ->
  Forall (fun s => is_nan s = false) scores ->
  0 <= k ->
  exists idxs scs,
    retrieve_bm25 query k = mret (idxs, scs) /\
    Z.of_nat (length idxs) = Z.min (Z.of_nat (length scores)) k /\
    NoDup idxs /\
    Forall (fun i => (i < length scores)%nat) idxs /\
    scs = map (item scores) idxs /\
    (forall i j x y, (i < j)%nat -> scs !! i = Some x -> scs !! j = Some y ->
                     PrimFloat.leb y x = true) /\
    (forall i j, i ∈ idxs -> j ∉ idxs -> (j < length scores)%nat ->
                 PrimFloat.leb (item scores j) (item scores i) = true).
Proof.
  intros scores Hspec Hnan Hk.
  set (a := map PrimFloat.opp scores) in *.
  set (p := np_argsort a) in *.
  assert (Hla : length a = length scores) by (unfold a; apply length_map).
  assert (Hitem : forall i, (i < length scores)%nat ->
                            is_nan (item scores i) = false).
  { intros i Hi. destruct (lookup_lt_is_Some_2 scores i Hi) as [x Hx].
    unfold item. rewrite Hx. simpl.
    eapply (proj1 (Forall_lookup _ _) Hnan); eauto. }
  assert (Hord : forall i j pi pj, (i < j)%nat -> p !! i = Some pi ->
                   p !! j = Some pj ->
                   PrimFloat.leb (item scores pj) (item scores pi) = true).
  { intros i j pi pj Hij Hi Hj.
    pose proof (argsort_in_range _ _ _ _ Hspec Hi) as Hri.
    pose proof (argsort_in_range _ _ _ _ Hspec Hj) as Hrj.
    rewrite Hla in Hri, Hrj.
    pose proof (proj2 Hspec i j pi pj Hij Hi Hj) as Hlt.
    unfold a in Hlt. rewrite !item_opp, ltb_opp in Hlt by done.
    apply ltb_false_leb; auto. }
  destruct Hspec as [Hperm Hsorted].
  assert (Hlp : length p = length scores).
  { rewrite Hperm, length_seq. exact Hla. }
  assert (Hnd : NoDup p) by (rewrite Hperm; apply NoDup_seq).
  set (n := Z.to_nat k).
  assert (Htake : slice_to p k = take n p) by now apply slice_to_take.
  assert (Hrange : Forall (fun i => (i < length scores)%nat) (take n p)).
  { apply Forall_forall. intros i Hi.
    apply list_elem_of_lookup in Hi as [m Hm].
    apply lookup_take_Some in Hm as [Hm _].
    apply list_elem_of_lookup_2 in Hm. rewrite Hperm in Hm.
    apply elem_of_seq in Hm. lia. }
  exists (take n p), (map (item scores) (take n p)).
  split; [|split; [|split; [|split; [|split; [|split]]]]].
  - unfold retrieve_bm25. fold scores. fold a. fold p.
    rewrite Htake, np_take_ok by done. now rewrite bind_ret.
  - rewrite length_take, Hlp. unfold n. lia.
  - exact (sublist_NoDup _ _ Hnd (sublist_take p n)).
  - exact Hrange.
  - reflexivity.
  - intros i j x y Hij Hx Hy.
    change (map (item scores) (take n p)) with (item scores <$> take n p)
      in Hx, Hy.
    rewrite list_lookup_fmap in Hx, Hy.
    destruct (take n p !! i) as [pi|] eqn:Hi; [|done].
    destruct (take n p !! j) as [pj|] eqn:Hj; [|done].
    simpl in Hx, Hy. injection Hx as <-. injection Hy as <-.
    apply lookup_take_Some in Hi as [Hi _].
    apply lookup_take_Some in Hj as [Hj _].
    eapply Hord; eauto.
  - intros i j Hi Hj Hjn.
    apply list_elem_of_lookup in Hi as [mi Hmi].
    apply lookup_take_Some in Hmi as [Hmi Hlt].
    assert (Hjp : j ∈ p).
    { rewrite Hperm. apply elem_of_seq. lia. }
    apply list_elem_of_lookup in Hjp as [mj Hmj].
    assert (Hge : (n <= mj)%nat).
    { destruct (Nat.le_gt_cases n mj) as [?|Hlt']; [done|].
      exfalso. apply Hj. apply list_elem_of_lookup. exists mj.
      apply lookup_take_Some. split; [done|lia]. }
    eapply (Hord mi mj); eauto. lia.
Qed.

End LexicalFacts.

(** A checker for [argsort_spec] on concrete arrays. *)
Fixpoint no_descent (a : list float) (p : list nat) : bool :=
  match p with
  | [] => true
  | x :: t =>
    forallb (fun y => negb (PrimFloat.ltb (item a y) (item a x))) t
    && no_descent a t
  end.

Definition argsort_ok (a : list float) (p : list nat) : bool :=
  bool_decide (p ≡ₚ seq 0 (length a)) && no_descent a p.

Lemma no_descent_spec (a : list float) (p : list nat) :
  no_descent a p = true ->
  forall i j pi pj,
    (i < j)%nat -> p !! i = Some pi -> p !! j = Some pj ->
    PrimFloat.ltb (item a pj) (item a pi) = false.
Proof.
  induction p as [|x t IH]; simpl; [intros _ i j ? ? _ H; done|].
  intros [Hx Ht]%andb_prop i j pi pj Hij Hi Hj.
  destruct j as [|j]; [lia|]. simpl in Hj.
  destruct i as [|i]; simpl in Hi.
  - injection Hi as <-.
    apply list_elem_of_lookup_2 in Hj.
    rewrite forallb_forall in Hx.
    apply list_elem_of_In in Hj. apply Hx in Hj.
    now apply negb_true_iff in Hj.
  - apply (IH Ht i j); auto. lia.
Qed.

Lemma argsort_ok_spec (a : list float) (p : list nat) :
  argsort_ok a p = true -> argsort_spec a p.
Proof.
  intros [Hp Hd]%andb_prop. split.
  - now apply bool_decide_eq_true in Hp.
  - now apply no_descent_spec.
Qed.

(** C5 in the small environment, for the three best documents. *)
Lemma retrieve_bm25_top_k_witness :
  argsort_spec (map PrimFloat.opp (bm25_get_scores (vi_tokenize demo_question)))
    (np_argsort (map PrimFloat.opp
                   (bm25_get_scores (vi_tokenize demo_question)))) /\
  Forall (fun s => is_nan s = false)
         (bm25_get_scores (vi_tokenize demo_question)) /\
  0 <= 3 /\
  exists idxs scs,
    retrieve_bm25 demo_question 3 = mret (idxs, scs) /\
    Z.of_nat (length idxs) = 3.
Proof.
  assert (H1 : argsort_spec
                 (map PrimFloat.opp (bm25_get_scores (vi_tokenize demo_question)))
                 (np_argsort (map PrimFloat.opp
                                (bm25_get_scores (vi_tokenize demo_question)))))
    by (apply argsort_ok_spec; vm_compute; reflexivity).
  assert (H2 : Forall (fun s => is_nan s = false)
                 (bm25_get_scores (vi_tokenize demo_question)))
    by (vm_compute; repeat constructor).
  assert (H3 : 0 <= 3) by lia.
  repeat (split; [assumption|]).
  destruct (retrieve_bm25_top_k demo_question 3 H1 H2 H3)
    as (idxs & scs & Hr & Hl & _).
  exists idxs, scs. split; [exact Hr|]. rewrite Hl. vm_compute. reflexivity.
Defined.

(** An index of two documents with equal scores, and an [argsort] that lists
    the later document first, as an unstable sort may. *)
Definition tie_env : Env := {|
  vi_tokenize := fun q => [q];
  bm25_get_scores := fun _ => [1; 1]%float;
  np_argsort := fun _ => [1; 0]%nat;
  emb_encode := fun _ => [1%float];
  near_vector := fun _ _ => [];
  reranker_predict := fun pairs => map (fun _ => 0%float) pairs;
  generate_content := fun _ => GemText None;
  chunks_cache := take 2 demo_chunks
|}.

(** C5, as stated, fails: [argsort] keeps its promise, yet the two documents
    with equal scores come back in the reverse of corpus order. *)
Lemma retrieve_bm25_ties_not_stable :
  argsort_spec (map PrimFloat.opp [1; 1]%float) [1; 0]%nat /\
  retrieve_bm25 (E := tie_env) demo_question 2
    = mret ([1; 0]%nat, [1; 1]%float) /\
  ~ ties_in_corpus_order [1; 0]%nat [1; 1]%float.
Proof.
  split; [apply argsort_ok_spec; vm_compute; reflexivity|].
  split; [vm_compute; reflexivity|].
  intros H.
  specialize (H 0%nat 1%nat 1%nat 0%nat 1%float 1%float).
  assert (Hlt : (1 < 0)%nat); [|lia].
  apply H; try reflexivity. lia.
Qed.

(** ** retrieve_hybrid *)

Definition cand_citation (c : Candidate) : option str := citation_of (props c).

(** The lexical scores divided by (max score + 1e-8). *)
Definition normalize (raw : list float) : list float :=
  match raw with
  | [] => []
  | x :: t => map (fun s => (s / (fold_left np_maximum t x + 1e-8))%float) raw
  end.

Definition insert_score (m : gmap (option str) float) (cs : Props * float)
    : gmap (option str) float :=
  <[citation_of cs.1 := cs.2]> m.

(** [bm25_score_map] for the fragments [chunks] and their normalized
    scores. *)
Definition score_map (chunks : list Props) (norm : list float)
    : gmap (option str) float :=
  foldl insert_score ∅ (zip chunks norm).

(** The lexical fragments whose citation no dense result carries. *)
Definition lexical_only (dense : list Candidate) (chunks : list Props)
    : list Props :=
  filter (fun ch => citation_of ch ∉ cand_citation <$> dense) chunks.

(** The list [combined] before it is sorted. *)
Definition fused (alpha : float) (chunks : list Props) (raw : list float)
    (dense : list Candidate) : list Candidate :=
  let m := score_map chunks (normalize raw) in
  map (fuse_dense alpha m) dense
  ++ map (fuse_bm25 alpha m) (lexical_only dense chunks).

Section HybridFacts.
Context {U : UnicodeDB} {E : Env}.

(** [chunks] are the fragments that the indices [idxs] select. *)
Definition selects (idxs : list nat) (chunks : list Props) : Prop :=
  Forall2 (fun i ch => chunks_cache !! i = Some ch) idxs chunks.

Lemma build_score_map_ok (idxs : list nat) (chunks : list Props)
    (norm : list float) (m : gmap (option str) float) :
  selects idxs chunks ->
  build_score_map (zip idxs norm) m
  = mret (foldl insert_score m (zip chunks norm)).
Proof.
  intros H. revert norm m.
  induction H as [|i ch idxs chunks Hi _ IH]; intros norm m; [done|].
  destruct norm as [|s norm]; [done|].
  cbn [zip zip_with build_score_map foldl].
  rewrite (py_index_Some _ _ _ Hi), bind_ret. apply IH.
Qed.

Lemma add_bm25_only_ok (alpha : float) (m : gmap (option str) float)
    (seen : gset (option str)) (idxs : list nat) (chunks : list Props)
    (combined : list Candidate) :
  selects idxs chunks ->
  add_bm25_only alpha m seen idxs combined
  = mret (combined
          ++ map (fuse_bm25 alpha m)
                 (filter (fun ch => citation_of ch ∉ seen) chunks)).
Proof.
  intros H. revert combined.
  induction H as [|i ch idxs chunks Hi _ IH]; intros combined.
  - simpl. now rewrite app_nil_r.
  - cbn [add_bm25_only]. rewrite (py_index_Some _ _ _ Hi), bind_ret.
    rewrite filter_cons.
    destruct (decide (citation_of ch ∈ seen)) as [Hin|Hin].
    + rewrite decide_False by tauto. apply IH.
    + rewrite decide_True by done. rewrite IH.
      cbn [map]. now rewrite <- app_assoc.
Qed.

Lemma np_max_ok (raw : list float) :
  raw <> [] -> exists top, np_max raw = mret top /\
    normalize raw = map (fun s => (s / (top + 1e-8))%float) raw.
Proof. destruct raw as [|x t]; [done|]. intros _. eexists. split; reflexivity. Qed.

(** The fused list, for a lexical result that is not empty and whose indices
    lie in the loaded corpus. *)
Lemma hybrid_combined_eq (query : str) (alpha : float) (k : Z)
    (idxs : list nat) (raw : list float) (chunks : list Props) :
  outcome (retrieve_bm25 query k) = Ok (idxs, raw) ->
  raw <> [] ->
  selects idxs chunks ->
  outcome (hybrid_combined query alpha k)
  = Ok (fused alpha chunks raw
          (map dense_candidate (near_vector (emb_encode query) k))).
Proof.
  intros Hb Hraw Hsel. unfold hybrid_combined.
  rewrite (outcome_bind_Ok _ _ _ Hb). cbn beta iota.
  destruct (np_max_ok raw Hraw) as (top & Htop & Hnorm).
  rewrite Htop, bind_ret. rewrite <- Hnorm.
  rewrite retrieve_dense_eq.
  set (dense := map dense_candidate (near_vector (emb_encode query) k)).
  unfold mbind at 1, M_bind at 1. cbn [outcome trace].
  rewrite (build_score_map_ok _ _ _ _ Hsel), bind_ret.
  rewrite (add_bm25_only_ok _ _ _ _ _ _ Hsel). cbn [outcome mret M_ret].
  unfold fused, score_map, lexical_only. do 3 f_equal.
  apply list_filter_iff. intros ch. unfold cand_citation.
  rewrite elem_of_list_to_set.
  change (map (fun r : Candidate => citation_of (props r)) dense)
    with ((fun r : Candidate => citation_of (props r)) <$> dense).
  reflexivity.
Qed.

Lemma retrieve_hybrid_eq (query : str) (alpha : float) (k : Z)
    (idxs : list nat) (raw : list float) (chunks : list Props) :
  outcome (retrieve_bm25 query k) = Ok (idxs, raw) ->
  raw <> [] ->
  selects idxs chunks ->
  outcome (retrieve_hybrid query alpha k)
  = Ok (slice_to
          (sort_desc score
             (fused alpha chunks raw
                (map dense_candidate (near_vector (emb_encode query) k)))) k).
Proof.
  intros Hb Hraw Hsel. unfold retrieve_hybrid.
  now rewrite (outcome_bind_Ok _ _ _ (hybrid_combined_eq _ alpha _ _ _ _ Hb Hraw Hsel)).
Qed.

End HybridFacts.

(** *** The score map *)

Lemma score_map_outside (chunks : list Props) (norm : list float)
    (m : gmap (option str) float) (cit : option str) :
  cit ∉ citation_of <$> chunks ->
  foldl insert_score m (zip chunks norm) !! cit = m !! cit.
Proof.
  revert norm m. induction chunks as [|ch chunks IH]; intros norm m Hout;
    [done|].
  destruct norm as [|s norm]; [done|].
  rewrite fmap_cons, not_elem_of_cons in Hout. destruct Hout as [Hne Hout].
  cbn [zip zip_with foldl]. rewrite IH by done.
  unfold insert_score. simpl. now rewrite lookup_insert_ne.
Qed.

Lemma score_map_inside (chunks : list Props) (norm : list float)
    (m : gmap (option str) float) (j : nat) (ch : Props) (s : float) :
  NoDup (citation_of <$> chunks) ->
  chunks !! j = Some ch -> norm !! j = Some s ->
  foldl insert_score m (zip chunks norm) !! citation_of ch = Some s.
Proof.
  revert norm m j. induction chunks as [|c0 chunks IH];
    intros norm m j Hnd Hch Hs; [done|].
  destruct norm as [|s0 norm]; [done|].
  rewrite fmap_cons, NoDup_cons in Hnd. destruct Hnd as [Hout Hnd].
  cbn [zip zip_with foldl]. destruct j as [|j]; simpl in Hch, Hs.
  - injection Hch as ->. injection Hs as ->.
    rewrite score_map_outside by done.
    unfold insert_score. simpl. apply lookup_insert_eq.
  - now apply (IH norm _ j).
Qed.

Lemma map_get_outside (chunks : list Props) (norm : list float)
    (cit : option str) :
  cit ∉ citation_of <$> chunks ->
  map_get (score_map chunks norm) cit = 0%float.
Proof.
  intros H. unfold map_get, score_map. now rewrite score_map_outside.
Qed.

Lemma map_get_inside (chunks : list Props) (norm : list float) (j : nat)
    (ch : Props) (s : float) :
  NoDup (citation_of <$> chunks) ->
  chunks !! j = Some ch -> norm !! j = Some s ->
  map_get (score_map chunks norm) (citation_of ch) = s.
Proof.
  intros Hnd Hch Hs. unfold map_get, score_map.
  now rewrite (score_map_inside _ _ _ j ch s).
Qed.

(** *** The fused list *)

Lemma fused_citations (alpha : float) (chunks : list Props)
    (raw : list float) (dense : list Candidate) :
  cand_citation <$> fused alpha chunks raw dense
  = (cand_citation <$> dense)
    ++ (citation_of <$> lexical_only dense chunks).
Proof.
  unfold fused. rewrite fmap_app. f_equal.
  - change (map ?f ?l) with (f <$> l). rewrite <- list_fmap_compose.
    now apply list_fmap_ext.
  - change (map ?f ?l) with (f <$> l). rewrite <- list_fmap_compose.
    now apply list_fmap_ext.
Qed.

Lemma fused_NoDup (alpha : float) (chunks : list Props) (raw : list float)
    (dense : list Candidate) :
  NoDup (cand_citation <$> dense) ->
  NoDup (citation_of <$> chunks) ->
  NoDup (cand_citation <$> fused alpha chunks raw dense).
Proof.
  intros Hd Hc. rewrite fused_citations. apply NoDup_app.
  split; [done|]. split.
  - intros cit Hin (ch & -> & Hch)%list_elem_of_fmap.
    unfold lexical_only in Hch. apply list_elem_of_filter in Hch as [Hn _].
    now apply Hn.
  - eapply sublist_NoDup; [exact Hc|].
    apply fmap_sublist, sublist_filter.
Qed.

Lemma fused_elem (alpha : float) (chunks : list Props) (raw : list float)
    (dense : list Candidate) (c : Candidate) :
  c ∈ fused alpha chunks raw dense ->
  let lex := map_get (score_map chunks (normalize raw)) in
  (exists d, d ∈ dense /\ props c = props d /\
     score c = (alpha * score d + (1 - alpha) * lex (cand_citation d))%float)
  \/
  (exists ch, ch ∈ chunks /\ (citation_of ch ∉ cand_citation <$> dense) /\
     props c = ch /\
     score c = ((1 - alpha) * lex (citation_of ch))%float).
Proof.
  intros H lex. unfold fused in H. cbv zeta in H.
  apply elem_of_app in H as [H|H].
  - apply list_elem_of_fmap in H as (d & -> & Hd). left. now exists d.
  - apply list_elem_of_fmap in H as (ch & -> & Hch). right.
    unfold lexical_only in Hch. apply list_elem_of_filter in Hch as [Hn Hch].
    now exists ch.
Qed.

Lemma slice_sorted_elem {A} (key : A -> float) (l : list A) (k : Z) (x : A) :
  x ∈ slice_to (sort_desc key l) k -> x ∈ l.
Proof.
  intros H. rewrite <- (sort_desc_perm key l).
  eapply elem_of_submseteq; [exact H|apply slice_to_submseteq].
Qed.

Lemma slice_sorted_NoDup {A B} `{EqDecision B} (f : A -> B) (key : A -> float)
    (l : list A) (k : Z) :
  NoDup (f <$> l) -> NoDup (f <$> slice_to (sort_desc key l) k).
Proof.
  intros H. destruct (slice_to_prefix (sort_desc key l) k) as [n ->].
  eapply sublist_NoDup; [|apply fmap_sublist, sublist_take].
  now rewrite sort_desc_perm.
Qed.

Section FusionClaims.
Context {U : UnicodeDB} {E : Env}.

(** C1, as amended: for a lexical result that is not empty and lies in the
    loaded corpus, fusion returns a pool of at most [k] candidates (for
    [k >= 0]); the pool is sorted non-increasing by fused score when no
    fused score is NaN; every candidate of the pool is a dense result scored
    alpha * dense + (1 - alpha) * lexical, the lexical share being 0 when the
    fragment is not in the lexical result, or a lexical fragment that no
    dense result cites, scored (1 - alpha) * lexical; and no two candidates
    share a citation provided that no two fragments of the lexical result,
    and no two results of the dense result, share one. *)
Theorem retrieve_hybrid_pool (query : str) (alpha : float) (k : Z)
    (idxs : list nat) (raw : list float) (chunks : list Props) :
  let dense := map dense_candidate (near_vector (emb_encode query) k) in
  let lex := map_get (score_map chunks (normalize raw)) in
  outcome (retrieve_bm25 query k) = Ok (idxs, raw) ->
  raw <> [] ->
  selects idxs chunks ->
  0 <= k ->
  exists out,
    outcome (retrieve_hybrid query alpha k) = Ok out /\
    Z.of_nat (length out) <= k /\
    (comparable score (fused alpha chunks raw dense) ->
     Sorted (desc score) out) /\
    (NoDup (cand_citation <$> dense) -> NoDup (citation_of <$> chunks) ->
     NoDup (cand_citation <$> out)) /\
    (forall c, c ∈ out ->
       (exists d, d ∈ dense /\ props c = props d /\
          score c
          = (alpha * score d + (1 - alpha) * lex (cand_citation d))%float)
       \/
       (exists ch, ch ∈ chunks /\ (citation_of ch ∉ cand_citation <$> dense) /\
          props c = ch /\
          score c = ((1 - alpha) * lex (citation_of ch))%float)) /\
    (NoDup (citation_of <$> chunks) ->
     forall j ch s, chunks !! j = Some ch -> normalize raw !! j = Some s ->
                    lex (citation_of ch) = s) /\
    (forall cit, cit ∉ citation_of <$> chunks -> lex cit = 0%float).
Proof.
  intros dense lex Hb Hraw Hsel Hk.
  exists (slice_to (sort_desc score (fused alpha chunks raw dense)) k).
  split; [now apply retrieve_hybrid_eq with (idxs := idxs)|].
  split; [rewrite slice_to_length by done; lia|].
  split; [intros Hc; now apply Sorted_slice_to, sort_desc_sorted|].
  split; [intros Hd Hc; now apply slice_sorted_NoDup, fused_NoDup|].
  split; [intros c Hc%slice_sorted_elem; now apply fused_elem|].
  split.
  - intros Hnd j ch s Hch Hs. now apply (map_get_inside _ _ j).
  - intros cit Hcit. now apply map_get_outside.
Qed.

End FusionClaims.

(** C1 in the small environment. *)
Definition demo_lexical : list nat * list float :=
  match outcome (retrieve_bm25 demo_question INITIAL_K) with
  | Ok r => r
  | Raise _ => ([], [])
  end.

Definition demo_selected : list Props :=
  default [] (mapM (fun i => chunks_cache !! i) demo_lexical.1).

Definition demo_dense : list Candidate :=
  map dense_candidate (near_vector (emb_encode demo_question) INITIAL_K).

Lemma demo_selects : selects demo_lexical.1 demo_selected.
Proof.
  apply mapM_Some.
  vm_cast_no_check (eq_refl (Some demo_selected)).
Qed.

Lemma retrieve_hybrid_pool_witness :
  outcome (retrieve_bm25 demo_question INITIAL_K)
    = Ok (demo_lexical.1, demo_lexical.2) /\
  demo_lexical.2 <> [] /\
  selects demo_lexical.1 demo_selected /\
  0 <= INITIAL_K /\
  exists out,
    outcome (retrieve_hybrid demo_question 0.75 INITIAL_K) = Ok out /\
    Z.of_nat (length out) <= INITIAL_K /\
    Sorted (desc score) out /\
    NoDup (cand_citation <$> out).
Proof.
  assert (H1 : outcome (retrieve_bm25 demo_question INITIAL_K)
               = Ok (demo_lexical.1, demo_lexical.2))
    by (vm_compute; reflexivity).
  assert (H2 : demo_lexical.2 <> []) by (vm_compute; discriminate).
  assert (H3 : 0 <= INITIAL_K) by (unfold INITIAL_K; lia).
  split; [exact H1|]. split; [exact H2|]. split; [exact demo_selects|].
  split; [exact H3|].
  destruct (retrieve_hybrid_pool demo_question 0.75 INITIAL_K _ _ _
              H1 H2 demo_selects H3)
    as (out & Ho & Hl & Hs & Hn & _).
  exists out. split; [exact Ho|]. split; [exact Hl|]. split.
  - apply Hs. vm_compute. repeat constructor.
  - apply Hn; apply (bool_decide_unpack _); vm_compute; exact I.
Defined.

(** A corpus in which a long leaf was cut into two windows: both carry the
    citation of the leaf. *)
Definition window_chunks : list Props :=
  [demo_chunk "khoản 2 Điều 15" "a: tốc độ tối đa (1)" "tốc độ tối đa";
   demo_chunk "khoản 2 Điều 15" "b: tốc độ tối đa (2)" "trong khu dân cư"].

Definition window_env : Env := {|
  vi_tokenize := fun q => [q];
  bm25_get_scores := fun _ => [2; 1]%float;
  np_argsort := demo_argsort;
  emb_encode := fun _ => [1%float];
  near_vector := fun _ k =>
    slice_to (map (fun ch => {| properties := ch;
                                distance := Some 0.25%float |})
                  window_chunks) k;
  reranker_predict := fun pairs => map (fun p => demo_relevance p.2) pairs;
  generate_content := fun _ => GemText None;
  chunks_cache := window_chunks
|}.

(** C1, as stated, fails: both windows are in the fused pool, under one
    citation. *)
Lemma retrieve_hybrid_duplicate_citation :
  exists out,
    outcome (retrieve_hybrid (E := window_env) demo_question 0.75 INITIAL_K)
      = Ok out /\
    cand_citation <$> out
      = [Some (lit "khoản 2 Điều 15"); Some (lit "khoản 2 Điều 15")] /\
    ~ NoDup (cand_citation <$> out).
Proof.
  destruct (outcome (retrieve_hybrid (E := window_env) demo_question 0.75
                       INITIAL_K)) as [out|e] eqn:Ho;
    [|vm_compute in Ho; discriminate].
  exists out. split; [reflexivity|].
  assert (Hc : cand_citation <$> out
               = [Some (lit "khoản 2 Điều 15"); Some (lit "khoản 2 Điều 15")]).
  { vm_compute in Ho. injection Ho as <-. vm_compute. reflexivity. }
  split; [exact Hc|]. rewrite Hc. intros Hnd.
  apply NoDup_cons in Hnd as [Hnd _]. apply Hnd. apply elem_of_cons. now left.
Qed.

(** C8, as stated, fails: the two ranked results of this corpus carry one
    citation, and the list that [retrieve] produces for them holds it twice;
    the retrieved context being shorter than 300 characters, the list that
    [ask_law] returns is empty.  Neither is the deduplicated list, which
    holds the citation once. *)
Lemma retrieve_citations_not_deduplicated :
  (exists context,
      outcome (retrieve (E := window_env) demo_question (PyInt 5))
      = Ok (context, [lit "khoản 2 Điều 15"; lit "khoản 2 Điều 15"])) /\
  _dedupe_sources [lit "khoản 2 Điều 15"; lit "khoản 2 Điều 15"]
    = [lit "khoản 2 Điều 15"] /\
  outcome (ask_law (E := window_env) demo_question (PyInt 5))
    = Ok (INSUFFICIENT, []).
Proof.
  split; [|split; vm_compute; reflexivity].
  destruct (outcome (retrieve (E := window_env) demo_question (PyInt 5)))
    as [[context sources]|e] eqn:Hr; [|vm_compute in Hr; discriminate].
  exists context. f_equal. f_equal.
  vm_compute in Hr. injection Hr as _ <-. vm_compute. reflexivity.
Qed.

(** ** A fragment found by the lexical side only *)

Definition raw_max (raw : list float) : float :=
  match raw with
  | [] => 0%float
  | x :: t => fold_left np_maximum t x
  end.

Section LexicalOnly.
Context {U : UnicodeDB} {E : Env}.

Lemma normalize_lookup (raw : list float) (j : nat) (r : float) :
  raw !! j = Some r ->
  normalize raw !! j = Some (r / (raw_max raw + 1e-8))%float.
Proof.
  destruct raw as [|x t]; [done|]. intros Hr. unfold normalize, raw_max.
  change (map ?f ?l) with (f <$> l). now rewrite list_lookup_fmap, Hr.
Qed.

(** The score map holds, for a citation that one fragment only carries, the
    score of that fragment. *)
Lemma score_map_unique (chunks : list Props) (norm : list float)
    (m : gmap (option str) float) (j : nat) (ch : Props) (s : float) :
  (forall j' ch', chunks !! j' = Some ch' ->
                  citation_of ch' = citation_of ch -> j' = j) ->
  chunks !! j = Some ch -> norm !! j = Some s ->
  foldl insert_score m (zip chunks norm) !! citation_of ch = Some s.
Proof.
  revert norm m j. induction chunks as [|c0 chunks IH];
    intros norm m j Huniq Hch Hs; [done|].
  destruct norm as [|s0 norm]; [done|].
  cbn [zip zip_with foldl]. destruct j as [|j]; simpl in Hch, Hs.
  - injection Hch as ->. injection Hs as ->.
    rewrite score_map_outside.
    + unfold insert_score. simpl. apply lookup_insert_eq.
    + intros (ch' & Hc & Hin)%list_elem_of_fmap.
      apply list_elem_of_lookup in Hin as [j' Hj'].
      specialize (Huniq (S j') ch' Hj' (eq_sym Hc)). discriminate.
  - apply (IH norm _ j); [|done..].
    intros j' ch' Hj' Hc. specialize (Huniq (S j') ch' Hj' Hc). lia.
Qed.

Lemma NoDup_unique_citation (chunks : list Props) (j : nat) (ch : Props) :
  NoDup (citation_of <$> chunks) ->
  chunks !! j = Some ch ->
  forall j' ch', chunks !! j' = Some ch' ->
                 citation_of ch' = citation_of ch -> j' = j.
Proof.
  intros Hnd Hch j' ch' Hch' Hc.
  apply (NoDup_lookup _ j' j (citation_of ch) Hnd).
  - rewrite list_lookup_fmap, Hch'. simpl. now rewrite Hc.
  - now rewrite list_lookup_fmap, Hch.
Qed.

(** C7, as amended: a fragment of the lexical top-k whose citation no dense
    result carries is put on the fused list with the score
    (1 - alpha) * raw / (max raw + 1e-8), provided no other fragment of the
    lexical result has its citation.  The returned pool is taken from the
    fused list; when no fused score is NaN it is the first [k] candidates of
    the list sorted by fused score; and the fragment is in the pool whenever
    the fused list has at most [k] candidates. *)
Theorem lexical_only_fragment (query : str) (alpha : float) (k : Z)
    (idxs : list nat) (raw : list float) (chunks : list Props)
    (j : nat) (ch : Props) (r : float) :
  let dense := map dense_candidate (near_vector (emb_encode query) k) in
  let c := {| props := ch;
              score := ((1 - alpha) * (r / (raw_max raw + 1e-8)))%float;
              rerank_score := None |} in
  outcome (retrieve_bm25 query k) = Ok (idxs, raw) ->
  selects idxs chunks ->
  chunks !! j = Some ch ->
  (forall j' ch', chunks !! j' = Some ch' ->
                  citation_of ch' = citation_of ch -> j' = j) ->
  raw !! j = Some r ->
  citation_of ch ∉ cand_citation <$> dense ->
  exists combined out,
    outcome (hybrid_combined query alpha k) = Ok combined /\
    c ∈ combined /\
    outcome (retrieve_hybrid query alpha k) = Ok out /\
    out ⊆+ combined /\
    (comparable score combined ->
     out = slice_to (sort_desc score combined) k /\
     Sorted (desc score) out) /\
    (Z.of_nat (length combined) <= k -> c ∈ out).
Proof.
  intros dense c Hb Hsel Hch Huniq Hr Hout.
  assert (Hraw : raw <> []) by (intros ->; done).
  exists (fused alpha chunks raw dense),
         (slice_to (sort_desc score (fused alpha chunks raw dense)) k).
  assert (Hc : c ∈ fused alpha chunks raw dense).
  { unfold fused. cbv zeta. apply elem_of_app. right.
    apply list_elem_of_fmap. exists ch. split.
    - unfold c, fuse_bm25. cbv zeta. f_equal. f_equal.
      symmetry. unfold map_get, score_map.
      rewrite (score_map_unique _ _ _ j ch (r / (raw_max raw + 1e-8))%float);
        [done..|].
      now apply normalize_lookup.
    - unfold lexical_only. apply list_elem_of_filter. split; [done|].
      eapply list_elem_of_lookup_2; eauto. }
  split; [now apply hybrid_combined_eq with (idxs := idxs)|].
  split; [exact Hc|].
  split; [now apply retrieve_hybrid_eq with (idxs := idxs)|].
  split.
  { etransitivity; [apply slice_to_submseteq|]. now rewrite sort_desc_perm. }
  split.
  { intros Hcmp. split; [reflexivity|].
    now apply Sorted_slice_to, sort_desc_sorted. }
  intros Hlen. rewrite slice_to_take by lia.
  rewrite take_ge by (rewrite sort_desc_length; lia).
  now rewrite sort_desc_perm.
Qed.

End LexicalOnly.

(** ** A side of fusion that returns nothing *)

Section MissingSide.
Context {U : UnicodeDB} {E : Env}.




End MissingSide.



(** C7 in the small environment: the second lexical hit, which the vector
    store does not return. *)
Definition demo_lexical_only : Props := default ∅ (demo_selected !! 1%nat).

Lemma lexical_only_fragment_witness :
  outcome (retrieve_bm25 demo_question INITIAL_K)
    = Ok (demo_lexical.1, demo_lexical.2) /\
  selects demo_lexical.1 demo_selected /\
  demo_selected !! 1%nat = Some demo_lexical_only /\
  (forall j' ch', demo_selected !! j' = Some ch' ->
                  citation_of ch' = citation_of demo_lexical_only ->
                  j' = 1%nat) /\
  demo_lexical.2 !! 1%nat = Some 5%float /\
  (citation_of demo_lexical_only ∉ cand_citation <$> demo_dense) /\
  exists out,
    outcome (retrieve_hybrid demo_question 0.75 INITIAL_K) = Ok out /\
    {| props := demo_lexical_only;
       score := ((1 - 0.75) * (5 / (raw_max demo_lexical.2 + 1e-8)))%float;
       rerank_score := None |} ∈ out.
Proof.
  assert (H1 : outcome (retrieve_bm25 demo_question INITIAL_K)
               = Ok (demo_lexical.1, demo_lexical.2))
    by (vm_compute; reflexivity).
  assert (H3 : demo_selected !! 1%nat = Some demo_lexical_only)
    by (vm_compute; reflexivity).
  assert (H2 : forall j' ch', demo_selected !! j' = Some ch' ->
                 citation_of ch' = citation_of demo_lexical_only ->
                 j' = 1%nat).
  { apply NoDup_unique_citation; [|exact H3].
    apply (bool_decide_unpack _); vm_compute; exact I. }
  assert (H4 : demo_lexical.2 !! 1%nat = Some 5%float)
    by (vm_compute; reflexivity).
  assert (H5 : citation_of demo_lexical_only ∉ cand_citation <$> demo_dense)
    by (apply (bool_decide_unpack _); vm_compute; exact I).
  split; [exact H1|]. split; [exact demo_selects|]. split; [exact H3|].
  split; [exact H2|]. split; [exact H4|]. split; [exact H5|].
  destruct (lexical_only_fragment demo_question 0.75 INITIAL_K _ _ _ _ _ _
              H1 demo_selects H3 H2 H4 H5)
    as (combined & out & Hc & _ & Ho & _ & _ & Hin).
  exists out. split; [exact Ho|]. apply Hin.
  vm_compute in Hc. injection Hc as <-. vm_compute. discriminate.
Defined.

(** A pool of size 1: the best lexical hit is one fragment, the only dense
    result is another. *)
Definition crowded_env : Env := {|
  vi_tokenize := fun q => [q];
  bm25_get_scores := fun _ => [1; 5]%float;
  np_argsort := demo_argsort;
  emb_encode := fun _ => [1%float];
  near_vector := fun _ k =>
    slice_to (map (fun ch => {| properties := ch;
                                distance := Some 0.1%float |})
                  (take 1 demo_chunks)) k;
  reranker_predict := fun pairs => map (fun p => demo_relevance p.2) pairs;
  generate_content := fun _ => GemText None;
  chunks_cache := take 2 demo_chunks
|}.

(** C7, as stated, fails: the fragment "khoản 1 Điều 5" is the lexical top-1
    and is absent from the dense top-1, and it is not in the fused pool of
    size 1, which holds the dense result alone. *)
Lemma lexical_only_fragment_dropped :
  retrieve_bm25 (E := crowded_env) demo_question 1
    = mret ([1%nat], [5%float]) /\
  citation_of <$> (chunks_cache (Env := crowded_env) !! 1%nat)
    = Some (Some (lit "khoản 1 Điều 5")) /\
  cand_citation <$> map dense_candidate
      (near_vector (Env := crowded_env) (emb_encode demo_question) 1)
    = [Some (lit "khoản 2 Điều 15")] /\
  exists out,
    outcome (retrieve_hybrid (E := crowded_env) demo_question 0.75 1) = Ok out
    /\ cand_citation <$> out = [Some (lit "khoản 2 Điều 15")].
Proof.
  split; [vm_compute; reflexivity|]. split; [vm_compute; reflexivity|].
  split; [vm_compute; reflexivity|].
  destruct (outcome (retrieve_hybrid (E := crowded_env) demo_question 0.75 1))
    as [out|e] eqn:Ho; [|vm_compute in Ho; discriminate].
  exists out. split; [reflexivity|].
  vm_compute in Ho. injection Ho as <-. vm_compute. reflexivity.
Qed.

(** * Further properties of the retriever and the generator *)

(** ** tune_alpha for any base weight *)

Lemma py_max_lower (a b : float) :
  is_nan a = false -> PrimFloat.leb a (py_max a b) = true.
Proof.
  intros Ha. unfold py_max. destruct (PrimFloat.ltb a b) eqn:Hlt.
  - now apply ltb_leb.
  - now apply leb_refl.
Qed.

Lemma py_min_upper (a b : float) :
  is_nan a = false -> PrimFloat.leb (py_min a b) a = true.
Proof.
  intros Ha. unfold py_min. destruct (PrimFloat.ltb b a) eqn:Hlt.
  - now apply ltb_leb.
  - now apply leb_refl.
Qed.

(** X1: Whatever [base_alpha] is given (NaN and the infinities included), the
    branch taken clamps on one side only: a legal-reference query never gets
    less than 0.30, a number-with-unit query never less than 0.40, and any
    other query never more than 0.75. *)
Theorem tune_alpha_clamps {U : UnicodeDB} (query : str) (base_alpha : float) :
  (holds_legal_reference query ->
   PrimFloat.leb 0.30 (tune_alpha query base_alpha) = true) /\
  (~ holds_legal_reference query -> holds_number_with_unit query ->
   PrimFloat.leb 0.40 (tune_alpha query base_alpha) = true) /\
  (~ holds_legal_reference query -> ~ holds_number_with_unit query ->
   PrimFloat.leb (tune_alpha query base_alpha) 0.75 = true).
Proof.
  rewrite <- legal_hint_search, <- numeric_info_search. unfold tune_alpha.
  destruct (re_search LEGAL_HINT_RE query);
    [|destruct (re_search NUMERIC_INFO_RE query)];
    repeat split; try done; intros;
    (apply py_max_lower || apply py_min_upper); vm_compute; reflexivity.
Qed.

(** X2: [LEGAL_HINT_RE.search] succeeds exactly on the queries that hold, at a
    word boundary, one of the five markers in any letter case, then white
    space, then a character of [IVXLC] (either case) or a decimal digit. *)
Theorem legal_hint_re_accepts {U : UnicodeDB} (query : str) :
  re_search LEGAL_HINT_RE query = true <->
  exists pre tok ws num post,
    query = pre ++ (tok ++ ws ++ num) ++ post /\
    boundary (last pre) (tok ++ ws ++ num ++ post) /\
    (exists t, t ∈ LEGAL_TOKENS /\ ieq_word t tok) /\
    ws <> [] /\ Forall (fun c => uni_isspace c = true) ws /\
    num <> [] /\
    Forall (fun c => in_class (CSet (lit "IVXLC") true) c = true) num.
Proof. apply legal_hint_search. Qed.

(** X3: [NUMERIC_INFO_RE.search] succeeds exactly on the queries that hold, at a
    word boundary, decimal digits, optional white space and one of the
    nineteen units in any letter case, the unit ending at a word boundary. *)
Theorem numeric_info_re_accepts {U : UnicodeDB} (query : str) :
  re_search NUMERIC_INFO_RE query = true <->
  exists pre digits ws unit post,
    query = pre ++ (digits ++ ws ++ unit) ++ post /\
    boundary (last pre) (digits ++ ws ++ unit ++ post) /\
    digits <> [] /\ Forall (fun c => uni_isdecimal c = true) digits /\
    Forall (fun c => uni_isspace c = true) ws /\
    (exists t, t ∈ NUMERIC_UNITS /\ ieq_word t unit) /\
    boundary (after (last pre) (digits ++ ws ++ unit)) post.
Proof. apply numeric_info_search. Qed.

(** ** _truncate_context *)

Lemma TRUNCATED_MARK_length : length TRUNCATED_MARK = 35%nat.
Proof. vm_compute. reflexivity. Qed.

Lemma truncate_context_length (ctx : str) (max_chars : Z) :
  0 <= max_chars ->
  Z.of_nat (length (_truncate_context ctx max_chars)) <= max_chars + 35.
Proof.
  intros Hk. unfold _truncate_context.
  destruct (Z.leb_spec (Z.of_nat (length ctx)) max_chars) as [Hle|Hgt]; [lia|].
  rewrite slice_to_take by done.
  rewrite length_app, length_take, TRUNCATED_MARK_length. lia.
Qed.

(** X4: For a limit that is not negative, a context within the limit is returned
    unchanged; a longer one is cut to its first [max_chars] characters and
    the 35 characters of the mark are added, so the result never has more
    than [max_chars + 35] characters and always starts with the first
    [max_chars] characters of the context. *)
Theorem truncate_context_bound (ctx : str) (max_chars : Z) :
  0 <= max_chars ->
  (Z.of_nat (length ctx) <= max_chars ->
   _truncate_context ctx max_chars = ctx) /\
  (max_chars < Z.of_nat (length ctx) ->
   _truncate_context ctx max_chars
     = take (Z.to_nat max_chars) ctx ++ TRUNCATED_MARK /\
   Z.of_nat (length (_truncate_context ctx max_chars)) = max_chars + 35) /\
  Z.of_nat (length (_truncate_context ctx max_chars)) <= max_chars + 35 /\
  take (Z.to_nat max_chars) (_truncate_context ctx max_chars)
    = take (Z.to_nat max_chars) ctx.
Proof.
  intros Hk. unfold _truncate_context.
  destruct (Z.leb_spec (Z.of_nat (length ctx)) max_chars) as [Hle|Hgt].
  - split; [done|]. split; [lia|]. split; [lia|done].
  - rewrite slice_to_take by done.
    assert (Hlen : length (take (Z.to_nat max_chars) ctx) = Z.to_nat max_chars).
    { rewrite length_take. lia. }
    split; [lia|]. split; [|split].
    + intros _. split; [done|].
      rewrite length_app, Hlen, TRUNCATED_MARK_length. lia.
    + rewrite length_app, Hlen, TRUNCATED_MARK_length. lia.
    + rewrite take_app_le by lia. rewrite take_take. f_equal. lia.
Qed.

(** X4 on the context "Điều 15" cut to 3 characters. *)
Lemma truncate_context_bound_witness :
  0 <= 3 /\
  _truncate_context (lit "Điều 15") 3 = lit "Điề" ++ TRUNCATED_MARK.
Proof.
  split; [lia|].
  destruct (truncate_context_bound (lit "Điều 15") 3 ltac:(lia))
    as (_ & H & _).
  destruct H as [H _]; [vm_compute; reflexivity|].
  rewrite H. vm_compute. reflexivity.
Defined.

(** ** Traces *)

Lemma trace_bind {A B} (m : M A) (f : A -> M B) :
  trace (m ≫= f)
  = trace m ++ match outcome m with Ok a => trace (f a) | Raise _ => [] end.
Proof.
  unfold mbind, M_bind. destruct (outcome m); simpl; [done|].
  now rewrite app_nil_r.
Qed.

Lemma outcome_bind {A B} (m : M A) (f : A -> M B) :
  outcome (m ≫= f)
  = match outcome m with Ok a => outcome (f a) | Raise e => Raise e end.
Proof. unfold mbind, M_bind. now destruct (outcome m). Qed.

Lemma py_index_trace {A} (l : list A) (i : nat) : trace (py_index l i) = [].
Proof. unfold py_index. now destruct (l !! i). Qed.

Lemma np_take_trace (a : list float) (idxs : list nat) :
  trace (np_take a idxs) = [].
Proof.
  unfold np_take. induction idxs as [|i idxs IH]; [done|].
  cbn [mapM]. rewrite trace_bind, py_index_trace.
  destruct (outcome (py_index a i)); [|done].
  rewrite trace_bind, IH. now destruct (outcome (mapM (py_index a) idxs)).
Qed.

(** ** generate_answer *)

Section GeneratorFacts.
Context {U : UnicodeDB} {E : Env}.

Lemma lstrip_length (s : str) : (length (lstrip s) <= length s)%nat.
Proof.
  induction s as [|c t IH]; simpl; [done|].
  destruct (uni_isspace c); simpl; lia.
Qed.

Lemma strip_length (s : str) : (length (strip s) <= length s)%nat.
Proof.
  unfold strip, rstrip. rewrite length_reverse.
  etrans; [apply lstrip_length|]. rewrite length_reverse. apply lstrip_length.
Qed.

Lemma app_nonempty {A} (a b : list A) : a <> [] -> a ++ b <> [].
Proof. destruct a; [done|]. discriminate. Qed.

Lemma INSUFFICIENT_nonempty : INSUFFICIENT <> [].
Proof. intros H. vm_compute in H. discriminate. Qed.

Lemma EMPTY_REPLY_nonempty : EMPTY_REPLY <> [].
Proof. intros H. vm_compute in H. discriminate. Qed.

(** The answer for a reply of the generation model. *)
Definition answer_of (resp : GemReply) : str :=
  match resp with
  | GemText t =>
      if nonempty (strip (or_empty t)) then strip (or_empty t)
      else EMPTY_REPLY
  | GemError message => lit "Lỗi khi gọi Gemini API: " ++ message
  end.

Lemma answer_of_nonempty (resp : GemReply) : answer_of resp <> [].
Proof.
  destruct resp as [t|message]; cbn [answer_of].
  - destruct (nonempty (strip (or_empty t))) eqn:Hn.
    + now apply nonempty_true.
    + apply EMPTY_REPLY_nonempty.
  - apply app_nonempty. intros H. vm_compute in H. discriminate.
Qed.

(** X5: [generate_answer] never raises and never returns an empty answer: a
    failure of the generation model becomes an error text, and an empty or
    missing reply becomes a fixed sentence.  The model is called at most
    once, exactly when the context has 300 characters or more and is not
    blank, with the prompt built from the context cut to 20000 characters. *)
Theorem generate_answer_never_raises (question context : str)
    (sources : option (list str)) :
  let prompt := _build_prompt question (_truncate_context context 20000) in
  exists text cited,
    outcome (generate_answer question context sources) = Ok (text, cited) /\
    text <> [] /\
    (nonempty (strip context) = false \/ Z.of_nat (length context) < 300 ->
     trace (generate_answer question context sources) = [] /\
     text = INSUFFICIENT /\ cited = []) /\
    (nonempty (strip context) = true -> 300 <= Z.of_nat (length context) ->
     trace (generate_answer question context sources) = [EvGenerate prompt] /\
     text = answer_of (generate_content prompt) /\
     cited = _dedupe_sources (default [] sources)).
Proof.
  intros prompt. unfold generate_answer. fold prompt.
  destruct (nonempty (strip context)) eqn:Hs;
    destruct (Z.ltb_spec (Z.of_nat (length context)) 300) as [Hl|Hl];
    cbn [negb orb].
  - exists INSUFFICIENT, []. split; [reflexivity|].
    split; [apply INSUFFICIENT_nonempty|]. split; [auto|]. intros _ ?; lia.
  - rewrite bind_call.
    exists (answer_of (generate_content prompt)),
           (_dedupe_sources (default [] sources)).
    split; [reflexivity|]. split; [apply answer_of_nonempty|].
    split; [intros [?|?]; [discriminate|lia]|]. intros _ _. auto.
  - exists INSUFFICIENT, []. split; [reflexivity|].
    split; [apply INSUFFICIENT_nonempty|]. split; [auto|]. intros ?; discriminate.
  - exists INSUFFICIENT, []. split; [reflexivity|].
    split; [apply INSUFFICIENT_nonempty|]. split; [auto|]. intros ?; discriminate.
Qed.

Lemma prompt_template_length (question context : str) :
  length (USER_PROMPT_TMPL question context)
  = (length (USER_PROMPT_TMPL [] []) + length question + length context)%nat.
Proof.
  unfold USER_PROMPT_TMPL, py_join. cbn [flat_map].
  rewrite !length_app. cbn [length]. lia.
Qed.

Lemma prompt_template_constant : length (USER_PROMPT_TMPL [] []) = 704%nat.
Proof. vm_compute. reflexivity. Qed.

(** X6: The prompt sent to the generation model has at most
    704 + |question| + 20035 characters, however long the retrieved context
    is. *)
Theorem prompt_length_bound (question context : str)
    (sources : option (list str)) (prompt : str) :
  EvGenerate prompt ∈ trace (generate_answer question context sources) ->
  prompt = _build_prompt question (_truncate_context context 20000) /\
  Z.of_nat (length prompt) <= 704 + Z.of_nat (length question) + 20035.
Proof.
  intros Hin.
  assert (Hp : prompt = _build_prompt question (_truncate_context context 20000)).
  { unfold generate_answer in Hin.
    destruct (negb (nonempty (strip context))
              || (Z.of_nat (length context) <? 300)).
    - now apply elem_of_nil in Hin.
    - rewrite bind_call in Hin. cbn [trace mret M_ret] in Hin.
      apply list_elem_of_singleton in Hin. now injection Hin. }
  split; [exact Hp|]. rewrite Hp. unfold _build_prompt.
  rewrite prompt_template_length, prompt_template_constant.
  pose proof (strip_length question) as Hq.
  pose proof (strip_length (_truncate_context context 20000)) as Hc.
  pose proof (truncate_context_length context 20000 ltac:(lia)) as Hb.
  lia.
Qed.

End GeneratorFacts.

(** ** _dedupe_sources, once more *)

Section DedupeTwice.
Context {U : UnicodeDB}.

Lemma first_occurrences_fixed (earlier sources : list str) :
  NoDup (dedupe_key <$> sources) ->
  (forall s, s ∈ sources ->
             dedupe_key s <> [] /\ dedupe_key s ∉ dedupe_key <$> earlier) ->
  first_occurrences earlier sources = sources.
Proof.
  revert earlier. induction sources as [|s t IH]; intros earlier Hnd Hk;
    [done|].
  rewrite fmap_cons, NoDup_cons in Hnd. destruct Hnd as [Hs Hnd].
  destruct (Hk s) as [Hne Hout]; [apply elem_of_cons; now left|].
  cbn [first_occurrences].
  apply nonempty_true in Hne. rewrite Hne.
  rewrite bool_decide_eq_false_2 by done. cbn [negb andb]. f_equal.
  apply IH; [done|]. intros x Hx.
  destruct (Hk x) as [Hxne Hxout]; [apply elem_of_cons; now right|].
  split; [done|]. rewrite fmap_app, elem_of_app. intros [Hin|Hin]; [done|].
  simpl in Hin. apply list_elem_of_singleton in Hin.
  apply Hs. rewrite <- Hin. now apply list_elem_of_fmap_2.
Qed.

(** X7: Deduplicating twice changes nothing more, and the result is never longer
    than the input. *)
Theorem dedupe_sources_idempotent (sources : list str) :
  _dedupe_sources (_dedupe_sources sources) = _dedupe_sources sources /\
  (length (_dedupe_sources sources) <= length sources)%nat.
Proof.
  split.
  - rewrite (dedupe_sources_spec (_dedupe_sources sources)).
    rewrite (dedupe_sources_spec sources).
    apply first_occurrences_fixed; [apply first_occurrences_NoDup|].
    intros s Hs. apply first_occurrences_keys in Hs. exact Hs.
  - rewrite dedupe_sources_spec.
    apply sublist_length, first_occurrences_sublist.
Qed.

End DedupeTwice.

(** ** The oracle calls of retrieval *)

Section TraceFacts.
Context {U : UnicodeDB} {E : Env}.

Lemma retrieve_bm25_trace (query : str) (k : Z) :
  trace (retrieve_bm25 query k) = [].
Proof.
  unfold retrieve_bm25. rewrite trace_bind, np_take_trace.
  now destruct (outcome (np_take _ _)).
Qed.

Lemma build_score_map_trace (pairs : list (nat * float))
    (m : gmap (option str) float) :
  trace (build_score_map pairs m) = [].
Proof.
  revert m. induction pairs as [|[idx sc] t IH]; intros m; [done|].
  cbn [build_score_map]. rewrite trace_bind, py_index_trace.
  destruct (outcome (py_index chunks_cache idx)); [|done]. apply IH.
Qed.

Lemma add_bm25_only_trace (alpha : float) (m : gmap (option str) float)
    (seen : gset (option str)) (idxs : list nat) (combined : list Candidate) :
  trace (add_bm25_only alpha m seen idxs combined) = [].
Proof.
  revert combined. induction idxs as [|idx t IH]; intros combined; [done|].
  cbn [add_bm25_only]. rewrite trace_bind, py_index_trace.
  destruct (outcome (py_index chunks_cache idx)) as [chunk|]; [|done].
  simpl. destruct (decide _); apply IH.
Qed.

Lemma np_max_trace (l : list float) : trace (np_max l) = [].
Proof. now destruct l. Qed.

(** Fusion asks the embedding model and the vector store once each, in this
    order and with its own pool size, or fails before asking anything. *)
Lemma hybrid_combined_trace (query : str) (alpha : float) (k : Z) :
  (trace (hybrid_combined query alpha k) = [] /\
   exists e, outcome (hybrid_combined query alpha k) = Raise e) \/
  trace (hybrid_combined query alpha k) = [EvEncode query; EvNearVector k].
Proof.
  unfold hybrid_combined.
  rewrite trace_bind, outcome_bind, retrieve_bm25_trace.
  destruct (outcome (retrieve_bm25 query k)) as [[idxs raw]|e];
    [|left; eauto].
  cbn [app]. rewrite trace_bind, outcome_bind, np_max_trace.
  destruct (outcome (np_max raw)) as [top|e]; [|left; eauto].
  right. cbn [app]. rewrite retrieve_dense_eq, trace_bind. cbn [trace outcome].
  rewrite trace_bind, build_score_map_trace.
  destruct (outcome (build_score_map _ _)); [|done].
  now rewrite add_bm25_only_trace.
Qed.

Lemma retrieve_hybrid_trace (query : str) (alpha : float) (k : Z) :
  (trace (retrieve_hybrid query alpha k) = [] /\
   exists e, outcome (retrieve_hybrid query alpha k) = Raise e) \/
  trace (retrieve_hybrid query alpha k) = [EvEncode query; EvNearVector k].
Proof.
  unfold retrieve_hybrid. rewrite trace_bind, outcome_bind.
  destruct (hybrid_combined_trace query alpha k) as [[-> [e ->]] | ->].
  - left. eauto.
  - right. destruct (outcome (hybrid_combined query alpha k)); auto.
Qed.

Lemma set_rerank_scores_trace (candidates : list Candidate)
    (scores : list float) (i : nat) :
  trace (set_rerank_scores candidates scores i) = [].
Proof.
  revert i. induction candidates as [|c t IH]; intros i; [done|].
  cbn [set_rerank_scores]. rewrite trace_bind, py_index_trace.
  destruct (outcome (py_index scores i)); [|done].
  rewrite trace_bind, IH. now destruct (outcome (set_rerank_scores t scores _)).
Qed.

Lemma rerank_trace (query : str) (candidates : list Candidate) (final_k : Z) :
  trace (rerank query candidates final_k)
  = match candidates with
    | [] => []
    | _ :: _ => [EvPredict (rerank_pairs query candidates)]
    end.
Proof.
  destruct candidates as [|c cs]; [done|]. unfold rerank.
  rewrite bind_call. cbn [trace]. rewrite trace_bind, set_rerank_scores_trace.
  now destruct (outcome (set_rerank_scores _ _ _)).
Qed.

(** X8: Whatever [k] is, [retrieve] asks the vector store for INITIAL_K = 20
    results: its oracle calls are, in this order, the embedding of the
    question, the vector search with limit 20 and one cross-encoder call, or
    a beginning of this sequence when it stops earlier; the generation model
    is never called. *)
Theorem retrieve_oracle_calls (question : str) (k : pyval) :
  exists pairs,
    trace (retrieve question k)
      `prefix_of` [EvEncode question; EvNearVector INITIAL_K; EvPredict pairs]
    /\ forall prompt, EvGenerate prompt ∉ trace (retrieve question k).
Proof.
  assert (Htop : forall n, exists pairs,
             trace (retrieve_top question n) `prefix_of`
               [EvEncode question; EvNearVector INITIAL_K; EvPredict pairs]).
  { intros n. unfold retrieve_top. rewrite trace_bind.
    set (h := retrieve_hybrid question (tune_alpha question 0.55) INITIAL_K).
    destruct (retrieve_hybrid_trace question (tune_alpha question 0.55)
                INITIAL_K) as [[Hh [e He]]|Hh]; fold h in Hh; rewrite Hh.
    - fold h in He. rewrite He. exists []. apply prefix_nil.
    - destruct (outcome h) as [cands|].
      + rewrite trace_bind, rerank_trace.
        destruct cands as [|c cs].
        * exists []. destruct (outcome (rerank _ _ _)); cbn [app];
            now exists [EvPredict []].
        * exists (rerank_pairs question (c :: cs)).
          destruct (outcome (rerank _ _ _)); cbn [app]; now exists [].
      + exists []. cbn [app]. now exists [EvPredict []]. }
  assert (Hret : exists n, trace (retrieve question k)
                           = trace (retrieve_top question n)
                           \/ trace (retrieve question k) = []).
  { unfold retrieve. destruct k as [|n|[]]; cbn [truthy py_int].
    - exists 5. left. now rewrite bind_ret.
    - exists (if negb (n =? 0) then n else 5). left.
      destruct (negb (n =? 0)); now rewrite bind_ret.
    - exists 1. left. now rewrite bind_ret.
    - exists 5. left. now rewrite bind_ret. }
  destruct Hret as (n & Hret). destruct (Htop n) as (pairs & Hp).
  exists pairs.
  assert (Hpre : trace (retrieve question k) `prefix_of`
            [EvEncode question; EvNearVector INITIAL_K; EvPredict pairs]).
  { destruct Hret as [-> | ->]; [exact Hp|apply prefix_nil]. }
  split; [exact Hpre|]. intros prompt Hin.
  destruct Hpre as (rest & Heq).
  assert (Hin' : EvGenerate prompt ∈
            [EvEncode question; EvNearVector INITIAL_K; EvPredict pairs]).
  { rewrite Heq. apply elem_of_app. now left. }
  apply elem_of_cons in Hin' as [?|Hin']; [discriminate|].
  apply elem_of_cons in Hin' as [?|Hin']; [discriminate|].
  apply list_elem_of_singleton in Hin'. discriminate.
Qed.

End TraceFacts.

(** ** Equal scores keep their order *)

Lemma SFcompare_Eq_inv (x v : spec_float) :
  SFcompare x v = Some Eq ->
  match x, v with
  | S754_zero _, S754_zero _ => True
  | S754_infinity s1, S754_infinity s2 => s1 = s2
  | S754_finite s1 m1 e1, S754_finite s2 m2 e2 => s1 = s2 /\ m1 = m2 /\ e1 = e2
  | _, _ => False
  end.
Proof.
  destruct x as [sx|sx| |sx mx ex], v as [sv|sv| |sv mv ev]; simpl;
    try discriminate; try (destruct sx; discriminate);
    try (destruct sv; discriminate); try done.
  - destruct sx, sv; try discriminate; done.
  - destruct sx, sv; try discriminate;
      destruct (Z.compare_spec ex ev) as [->| |]; try discriminate;
      change (Pos.compare_cont Eq mx mv) with (Pos.compare mx mv);
      destruct (Pos.compare_spec mx mv) as [->| |]; try discriminate; done.
Qed.

Lemma eqb_same_not_ltb (a b v : float) :
  PrimFloat.eqb a v = true -> PrimFloat.eqb b v = true ->
  PrimFloat.ltb a b = false.
Proof.
  rewrite !FloatAxioms.eqb_spec, FloatAxioms.ltb_spec.
  unfold SFeqb, SFltb. intros Ha Hb.
  destruct (SFcompare (Prim2SF a) (Prim2SF v)) as [[]|] eqn:Hav; try done.
  destruct (SFcompare (Prim2SF b) (Prim2SF v)) as [[]|] eqn:Hbv; try done.
  apply SFcompare_Eq_inv in Hav, Hbv.
  destruct (Prim2SF a) as [sa|sa| |sa ma ea], (Prim2SF v) as [sv|sv| |sv mv ev],
           (Prim2SF b) as [sb|sb| |sb mb eb]; try done.
  - subst. simpl. now destruct sv.
  - destruct Hav as (-> & -> & ->), Hbv as (-> & -> & ->). simpl.
    rewrite Z.compare_refl.
    change (Pos.compare_cont Eq mv mv) with (Pos.compare mv mv).
    rewrite Pos.compare_refl. now destruct sv.
Qed.

Section Stable.
Context {A : Type} (key : A -> float) (v : float).

(** The elements whose key equals [v]. *)
Definition with_key (l : list A) : list A :=
  filter (fun x => PrimFloat.eqb (key x) v = true) l.

Lemma insert_desc_with_key (x : A) (l : list A) :
  with_key (insert_desc key x l) = with_key (x :: l).
Proof.
  unfold with_key. induction l as [|y l IH]; [done|].
  cbn [insert_desc]. destruct (PrimFloat.ltb (key x) (key y)) eqn:Hlt; [|done].
  rewrite filter_cons, IH, !filter_cons.
  destruct (decide (PrimFloat.eqb (key y) v = true)) as [Hy|Hy];
    destruct (decide (PrimFloat.eqb (key x) v = true)) as [Hx|Hx]; try done.
  rewrite (eqb_same_not_ltb _ _ _ Hx Hy) in Hlt. discriminate.
Qed.

Lemma sort_desc_with_key (l : list A) :
  with_key (sort_desc key l) = with_key l.
Proof.
  induction l as [|x l IH]; [done|].
  rewrite sort_desc_cons, insert_desc_with_key.
  unfold with_key in *. now rewrite !filter_cons, IH.
Qed.

End Stable.

Section TieFacts.
Context {U : UnicodeDB} {E : Env}.

(** X9: Both sorts are stable when no key is NaN.  The reranked list is then
    a slice of a sorted list in which the candidates of any one reranker
    score stand in the order fusion gave them; the fused pool is a slice of a
    sorted list in which the candidates of any one fused score stand with the
    dense results first, in the store's order, and the lexical-only fragments
    after them, in lexical rank order. *)
Theorem ties_keep_input_order (query : str) (alpha : float) (k final_k : Z)
    (candidates : list Candidate) (idxs : list nat) (raw : list float)
    (chunks : list Props) :
  let scores := reranker_predict (rerank_pairs query candidates) in
  let dense := map dense_candidate (near_vector (emb_encode query) k) in
  length scores = length candidates ->
  outcome (retrieve_bm25 query k) = Ok (idxs, raw) ->
  raw <> [] ->
  selects idxs chunks ->
  (Forall (fun s => is_nan s = false) scores ->
   exists sorted,
      outcome (rerank query candidates final_k)
        = Ok (slice_to sorted final_k) /\
      sorted ≡ₚ zip_with with_rerank candidates scores /\
      Sorted (desc rerank_key) sorted /\
      forall v, with_key rerank_key v sorted
                = with_key rerank_key v
                    (zip_with with_rerank candidates scores)) /\
  (comparable score (fused alpha chunks raw dense) ->
   exists sorted,
      outcome (retrieve_hybrid query alpha k) = Ok (slice_to sorted k) /\
      sorted ≡ₚ fused alpha chunks raw dense /\
      Sorted (desc score) sorted /\
      forall v, with_key score v sorted
                = with_key score v (fused alpha chunks raw dense)).
Proof.
  intros scores dense Hlen Hb Hraw Hsel. split.
  - intros Hnan. destruct (decide (candidates = [])) as [->|Hne].
    + exists []. split; [|split; [done|split; [constructor|done]]].
      unfold slice_to. destruct (final_k <? 0); now rewrite take_nil.
    + exists (sort_desc rerank_key (zip_with with_rerank candidates scores)).
      split; [now rewrite rerank_eq|].
      split; [apply sort_desc_perm|].
      split; [now apply sort_desc_sorted, comparable_zip_with_rerank|].
      intros v. apply sort_desc_with_key.
  - intros Hcmp. exists (sort_desc score (fused alpha chunks raw dense)).
    split; [now apply retrieve_hybrid_eq with (idxs := idxs)|].
    split; [apply sort_desc_perm|].
    split; [now apply sort_desc_sorted|].
    intros v. apply sort_desc_with_key.
Qed.

End TieFacts.

(** X9 in the small environment, for the pool of the demo question. *)
Lemma ties_keep_input_order_witness :
  length (reranker_predict (rerank_pairs demo_question demo_pool))
    = length demo_pool /\
  outcome (retrieve_bm25 demo_question INITIAL_K)
    = Ok (demo_lexical.1, demo_lexical.2) /\
  demo_lexical.2 <> [] /\
  selects demo_lexical.1 demo_selected /\
  Forall (fun s => is_nan s = false)
         (reranker_predict (rerank_pairs demo_question demo_pool)) /\
  exists sorted,
    outcome (rerank demo_question demo_pool INITIAL_K)
      = Ok (slice_to sorted INITIAL_K) /\
    with_key rerank_key 0.1 sorted
      = with_key rerank_key 0.1
          (zip_with with_rerank demo_pool
             (reranker_predict (rerank_pairs demo_question demo_pool))).
Proof.
  assert (H1 : length (reranker_predict (rerank_pairs demo_question demo_pool))
               = length demo_pool) by (vm_compute; reflexivity).
  assert (H2 : outcome (retrieve_bm25 demo_question INITIAL_K)
               = Ok (demo_lexical.1, demo_lexical.2))
    by (vm_compute; reflexivity).
  assert (H3 : demo_lexical.2 <> []) by (vm_compute; discriminate).
  assert (H4 : Forall (fun s => is_nan s = false)
                 (reranker_predict (rerank_pairs demo_question demo_pool)))
    by (vm_compute; repeat constructor).
  split; [exact H1|]. split; [exact H2|]. split; [exact H3|].
  split; [exact demo_selects|]. split; [exact H4|].
  destruct (ties_keep_input_order demo_question 0.75 INITIAL_K INITIAL_K
              demo_pool _ _ _ H1 H2 H3 demo_selects)
    as [Hrerank _].
  destruct (Hrerank H4) as (sorted & Ho & _ & _ & Hv).
  exists sorted. split; [exact Ho|apply Hv].
Defined.

(** ** Errors of fusion and reranking *)

Section ErrorFacts.
Context {U : UnicodeDB} {E : Env}.

Lemma build_score_map_outcome (pairs : list (nat * float))
    (m : gmap (option str) float) :
  (exists m', outcome (build_score_map pairs m) = Ok m') \/
  outcome (build_score_map pairs m) = Raise IndexError.
Proof.
  revert m. induction pairs as [|[idx sc] t IH]; intros m.
  - left. now exists m.
  - cbn [build_score_map]. unfold py_index.
    destruct (chunks_cache !! idx) as [chunk|]; [|now right].
    rewrite bind_ret. apply IH.
Qed.

Lemma add_bm25_only_stale (alpha : float) (m : gmap (option str) float)
    (seen : gset (option str)) (idxs : list nat) (combined : list Candidate)
    (i : nat) :
  i ∈ idxs -> (length chunks_cache <= i)%nat ->
  outcome (add_bm25_only alpha m seen idxs combined) = Raise IndexError.
Proof.
  intros Hin Hi. revert combined.
  induction idxs as [|idx t IH]; intros combined;
    [now apply elem_of_nil in Hin|].
  cbn [add_bm25_only]. unfold py_index.
  destruct (chunks_cache !! idx) as [chunk|] eqn:Hidx; [|done].
  rewrite bind_ret.
  apply elem_of_cons in Hin as [->|Hin].
  - apply lookup_lt_Some in Hidx. lia.
  - destruct (decide _); now apply IH.
Qed.

(** X10: A lexical index that is ahead of the loaded corpus: when BM25 returns the
    index of a document that [chunks_cache] does not hold, fusion raises
    IndexError, after the embedding model and the vector store were asked. *)
Theorem retrieve_hybrid_stale_index (query : str) (alpha : float) (k : Z)
    (idxs : list nat) (raw : list float) (i : nat) :
  outcome (retrieve_bm25 query k) = Ok (idxs, raw) ->
  raw <> [] ->
  i ∈ idxs ->
  (length chunks_cache <= i)%nat ->
  retrieve_hybrid query alpha k
  = MkM [EvEncode query; EvNearVector k] (Raise IndexError).
Proof.
  intros Hb Hraw Hin Hi.
  assert (Ho : outcome (hybrid_combined query alpha k) = Raise IndexError).
  { unfold hybrid_combined. rewrite (outcome_bind_Ok _ _ _ Hb). cbn beta iota.
    destruct (np_max_ok raw Hraw) as (top & Htop & _).
    rewrite Htop, bind_ret, retrieve_dense_eq, outcome_bind. cbn [outcome].
    rewrite outcome_bind.
    destruct (build_score_map_outcome
                (zip idxs (map (fun s => (s / (top + 1e-8))%float) raw)) ∅)
      as [[m' ->]| ->]; [|done].
    now apply add_bm25_only_stale with (i := i). }
  assert (Ht : trace (hybrid_combined query alpha k)
               = [EvEncode query; EvNearVector k]).
  { destruct (hybrid_combined_trace query alpha k) as [[Ht _]|Ht]; [|done].
    exfalso. revert Ht. unfold hybrid_combined.
    rewrite trace_bind, retrieve_bm25_trace, Hb. cbn [app].
    destruct (np_max_ok raw Hraw) as (top & Htop & _).
    rewrite Htop, bind_ret, retrieve_dense_eq, trace_bind. cbn [trace].
    discriminate. }
  unfold retrieve_hybrid. rewrite (bind_Raise _ _ _ Ho). now rewrite Ht.
Qed.


Lemma rerank_enough_scores (query : str) (candidates : list Candidate)
    (final_k : Z) :
  (length candidates
   <= length (reranker_predict (rerank_pairs query candidates)))%nat ->
  outcome (rerank query candidates final_k)
  = Ok (slice_to (sort_desc rerank_key
                    (zip_with with_rerank candidates
                       (reranker_predict (rerank_pairs query candidates))))
                 final_k).
Proof.
  intros Hle. destruct candidates as [|c cs].
  - change (sort_desc rerank_key (zip_with with_rerank [] _))
      with (@nil Candidate).
    unfold slice_to. destruct (final_k <? 0); now rewrite take_nil.
  - unfold rerank.
    change (map (fun text => (query, text)) _)
      with (rerank_pairs query (c :: cs)).
    rewrite bind_call. cbn [outcome].
    rewrite set_rerank_scores_ok by (simpl in *; lia).
    now rewrite bind_ret.
Qed.


(** X12: A negative [final_k] is not refused: as a slice bound it drops the
    last [-final_k] candidates of the reranked list, so that
    max(0, |input| + final_k) candidates are returned; when no score is NaN
    they are the first ones of the list sorted by reranker score. *)
Theorem rerank_negative_final_k (query : str) (candidates : list Candidate)
    (final_k : Z) :
  let scores := reranker_predict (rerank_pairs query candidates) in
  (length candidates <= length scores)%nat ->
  final_k < 0 ->
  exists out,
    outcome (rerank query candidates final_k) = Ok out /\
    Z.of_nat (length out)
      = Z.max 0 (Z.of_nat (length candidates) + final_k) /\
    out ⊆+ zip_with with_rerank candidates scores /\
    (Forall (fun s => is_nan s = false) scores ->
     out `prefix_of`
       sort_desc rerank_key (zip_with with_rerank candidates scores) /\
     Sorted (desc rerank_key) out).
Proof.
  intros scores Hle Hk.
  pose proof (rerank_enough_scores query candidates final_k Hle) as Hok.
  fold scores in Hok.
  eexists. split; [exact Hok|]. split; [|split].
  - unfold slice_to. destruct (Z.ltb_spec final_k 0); [|lia].
    rewrite length_take, sort_desc_length, length_zip_with. lia.
  - etransitivity; [apply slice_to_submseteq|]. now rewrite sort_desc_perm.
  - intros Hnan. split.
    + destruct (slice_to_prefix
                  (sort_desc rerank_key
                     (zip_with with_rerank candidates scores)) final_k)
        as [n ->].
      apply prefix_take.
    + now apply Sorted_slice_to, sort_desc_sorted, comparable_zip_with_rerank.
Qed.

End ErrorFacts.

(** A lexical index of six documents over a corpus of four fragments. *)
Definition stale_env : Env := {|
  vi_tokenize := fun q => [q];
  bm25_get_scores := fun _ => [10; 5; 0; 3; 0; 1]%float;
  np_argsort := demo_argsort;
  emb_encode := fun _ => [1%float];
  near_vector := fun _ k => slice_to demo_objects k;
  reranker_predict := fun pairs => map (fun p => demo_relevance p.2) pairs;
  generate_content := fun _ => GemText None;
  chunks_cache := take 4 demo_chunks
|}.

(** X10 with a lexical index of six documents over a corpus of four fragments.
    *)
Lemma retrieve_hybrid_stale_index_witness :
  outcome (retrieve_bm25 (E := stale_env) demo_question INITIAL_K)
    = Ok ([0; 1; 3; 5; 2; 4]%nat, [10; 5; 3; 1; 0; 0]%float) /\
  [10; 5; 3; 1; 0; 0]%float <> [] /\
  5%nat ∈ [0; 1; 3; 5; 2; 4]%nat /\
  (length (chunks_cache (Env := stale_env)) <= 5)%nat /\
  retrieve_hybrid (E := stale_env) demo_question 0.75 INITIAL_K
  = MkM [EvEncode demo_question; EvNearVector INITIAL_K] (Raise IndexError).
Proof.
  assert (H1 : outcome (retrieve_bm25 (E := stale_env) demo_question INITIAL_K)
               = Ok ([0; 1; 3; 5; 2; 4]%nat, [10; 5; 3; 1; 0; 0]%float))
    by (vm_compute; reflexivity).
  assert (H2 : [10; 5; 3; 1; 0; 0]%float <> []) by discriminate.
  assert (H3 : 5%nat ∈ [0; 1; 3; 5; 2; 4]%nat)
    by (apply (bool_decide_unpack _); vm_compute; exact I).
  assert (H4 : (length (chunks_cache (Env := stale_env)) <= 5)%nat)
    by (vm_compute; lia).
  split; [exact H1|]. split; [exact H2|]. split; [exact H3|].
  split; [exact H4|].
  exact (retrieve_hybrid_stale_index (E := stale_env) demo_question 0.75
           INITIAL_K _ _ 5%nat H1 H2 H3 H4).
Defined.

(** X12 in the small environment: [final_k = -1] on the pool of six gives five
    candidates. *)
Lemma rerank_negative_final_k_witness :
  (length demo_pool
   <= length (reranker_predict (rerank_pairs demo_question demo_pool)))%nat /\
  -1 < 0 /\
  exists out,
    outcome (rerank demo_question demo_pool (-1)) = Ok out /\
    Z.of_nat (length out) = 5.
Proof.
  assert (H1 : (length demo_pool <= length (reranker_predict
                  (rerank_pairs demo_question demo_pool)))%nat)
    by (vm_compute; lia).
  assert (H2 : -1 < 0) by lia.
  split; [exact H1|]. split; [exact H2|].
  destruct (rerank_negative_final_k demo_question demo_pool (-1) H1 H2)
    as (out & Ho & Hl & _).
  exists out. split; [exact Ho|]. rewrite Hl. vm_compute. reflexivity.
Defined.

(** A context of 320 characters. *)
Definition demo_long_context : str :=
  concat (replicate 40 (lit "Điều 15 ")).

(** X6 on the demo question and a context of 320 characters. *)
Lemma prompt_length_bound_witness :
  EvGenerate (_build_prompt demo_question
                (_truncate_context demo_long_context 20000))
    ∈ trace (generate_answer demo_question demo_long_context None) /\
  Z.of_nat (length (_build_prompt demo_question
                      (_truncate_context demo_long_context 20000)))
    <= 704 + Z.of_nat (length demo_question) + 20035.
Proof.
  assert (Ht : trace (generate_answer demo_question demo_long_context None)
               = [EvGenerate (_build_prompt demo_question
                               (_truncate_context demo_long_context 20000))])
    by (vm_compute; reflexivity).
  assert (H : EvGenerate (_build_prompt demo_question
                            (_truncate_context demo_long_context 20000))
              ∈ trace (generate_answer demo_question demo_long_context None)).
  { rewrite Ht. apply list_elem_of_singleton. reflexivity. }
  split; [exact H|].
  exact (proj2 (prompt_length_bound demo_question demo_long_context None _ H)).
Defined.

(** ** ask_law *)

Section AskLaw.
Context {U : UnicodeDB} {E : Env}.

Lemma generate_answer_returns (question context : str)
    (sources : option (list str)) :
  exists text cited,
    outcome (generate_answer question context sources) = Ok (text, cited)
    /\ text <> [].
Proof.
  unfold generate_answer.
  destruct (negb (nonempty (strip context))
            || (Z.of_nat (length context) <? 300)).
  - exists INSUFFICIENT, []. split; [reflexivity|apply INSUFFICIENT_nonempty].
  - rewrite bind_call. cbn [outcome mret M_ret]. eexists _, _.
    split; [reflexivity|].
    exact (answer_of_nonempty
             (generate_content
                (_build_prompt question (_truncate_context context 20000)))).
Qed.

(** X13: [ask_law] adds no failure of its own: an exception of retrieval comes out
    unchanged, before the generation model is touched; when retrieval
    returns, generation runs after it on the retrieved context and
    citations, and a non-empty answer comes back. *)
Theorem ask_law_composes (question : str) (k : pyval) :
  (forall e,
      outcome (retrieve question k) = Raise e ->
      ask_law question k = MkM (trace (retrieve question k)) (Raise e)) /\
  (forall context sources,
      outcome (retrieve question k) = Ok (context, sources) ->
      ask_law question k
      = MkM (trace (retrieve question k)
             ++ trace (generate_answer question context (Some sources)))
            (outcome (generate_answer question context (Some sources)))
      /\ exists text cited,
           outcome (ask_law question k) = Ok (text, cited) /\ text <> []).
Proof.
  split.
  - intros e He. unfold ask_law. now rewrite (bind_Raise _ _ _ He).
  - intros context sources Hr.
    assert (Ha : ask_law question k
                 = MkM (trace (retrieve question k)
                        ++ trace (generate_answer question context
                                    (Some sources)))
                       (outcome (generate_answer question context
                                   (Some sources)))).
    { unfold ask_law. now rewrite (bind_Ok _ _ _ Hr). }
    split; [exact Ha|]. rewrite Ha. cbn [outcome].
    apply generate_answer_returns.
Qed.

End AskLaw.

(** ** The context block of one fragment *)

Section BlockFacts.
Context {U : UnicodeDB}.

Lemma lstrip_keeps (a b : str) (c : N) :
  uni_isspace c = false ->
  exists a', lstrip (a ++ c :: b) = a' ++ c :: b /\ a' `suffix_of` a.
Proof.
  intros Hc. induction a as [|x a IH].
  - exists []. simpl. rewrite Hc. split; [done|]. now exists [].
  - simpl. destruct (uni_isspace x).
    + destruct IH as (a' & -> & Ha). exists a'. split; [done|].
      now apply suffix_cons_r.
    + exists (x :: a). split; [done|]. now exists [].
Qed.

(** A text that starts and ends with characters that are not white space
    survives [strip] when more text follows it: only the end is trimmed. *)
Lemma strip_keeps_head (c1 c2 : N) (mid rest : str) :
  uni_isspace c1 = false -> uni_isspace c2 = false ->
  exists rest', strip ((c1 :: mid ++ [c2]) ++ rest)
                = (c1 :: mid ++ [c2]) ++ rest'
                /\ rest' `prefix_of` rest.
Proof.
  intros H1 H2. unfold strip, rstrip.
  assert (Hl : lstrip ((c1 :: mid ++ [c2]) ++ rest)
               = (c1 :: mid ++ [c2]) ++ rest) by (simpl; now rewrite H1).
  rewrite Hl, reverse_app.
  replace (reverse (c1 :: mid ++ [c2])) with (c2 :: reverse (c1 :: mid)).
  2:{ change (c1 :: mid ++ [c2]) with ((c1 :: mid) ++ [c2]).
      now rewrite reverse_app. }
  destruct (lstrip_keeps (reverse rest) (reverse (c1 :: mid)) c2 H2)
    as (a' & -> & [pre Hpre]).
  exists (reverse a'). split.
  - rewrite reverse_app. f_equal.
    change (c1 :: mid ++ [c2]) with ((c1 :: mid) ++ [c2]).
    rewrite reverse_cons, reverse_involutive. done.
  - exists (reverse pre).
    rewrite <- reverse_app, <- Hpre. now rewrite reverse_involutive.
Qed.

Lemma py_join_cons (sep x : str) (l : list str) :
  py_join sep (x :: l) = x ++ flat_map (fun y => sep ++ y) l.
Proof. reflexivity. Qed.

Lemma joined_tail (l : list str) (rest : str) :
  rest `prefix_of` flat_map (fun y => nl ++ y) l ->
  rest = [] \/ exists r, rest = nl ++ r.
Proof.
  intros [post Hp]. destruct rest as [|c rest]; [now left|right].
  destruct l as [|y l]; [done|]. simpl in Hp. injection Hp as <- _.
  now exists rest.
Qed.

(** X14: When the fragment has a citation, and the brackets are not white space
    (as in Unicode), its context block begins with the reference line
    "[Căn cứ: citation]", which is the whole block or is followed by a line
    break: the line that the prompt tells the model to cite from. *)
Theorem format_chunk_reference_line (p : Props) :
  uni_isspace 91 = false ->
  uni_isspace 93 = false ->
  field p "display_citation" <> [] ->
  exists rest,
    format_chunk p
    = lit "[Căn cứ: " ++ field p "display_citation" ++ lit "]" ++ rest /\
    (rest = [] \/ exists r, rest = nl ++ r).
Proof.
  intros H1 H2 Hc. unfold format_chunk. cbv zeta.
  apply nonempty_true in Hc. rewrite Hc. cbn [when app].
  rewrite py_join_cons.
  set (tail := flat_map _ _).
  assert (Hl : lit "[Căn cứ: " ++ field p "display_citation" ++ lit "]"
               = 91%N :: (lit "Căn cứ: " ++ field p "display_citation")
                 ++ [93%N]).
  { change (lit "[Căn cứ: ") with (91%N :: lit "Căn cứ: ").
    change (lit "]") with [93%N]. now rewrite <- app_assoc. }
  rewrite Hl.
  destruct (strip_keeps_head 91 93
              (lit "Căn cứ: " ++ field p "display_citation") tail H1 H2)
    as (rest & Hs & Hp).
  exists rest. split.
  - rewrite Hs. rewrite <- Hl. now rewrite <- !app_assoc.
  - now apply joined_tail in Hp.
Qed.

End BlockFacts.

(** X14 on the lexical-only fragment of the small environment. *)
Lemma format_chunk_reference_line_witness :
  uni_isspace 91 = false /\ uni_isspace 93 = false /\
  field demo_lexical_only "display_citation" <> [] /\
  exists rest,
    format_chunk demo_lexical_only
    = lit "[Căn cứ: " ++ lit "khoản 1 Điều 5" ++ lit "]" ++ rest.
Proof.
  assert (H1 : uni_isspace 91 = false) by reflexivity.
  assert (H2 : uni_isspace 93 = false) by reflexivity.
  assert (H3 : field demo_lexical_only "display_citation" <> [])
    by (vm_compute; discriminate).
  split; [exact H1|]. split; [exact H2|]. split; [exact H3|].
  destruct (format_chunk_reference_line demo_lexical_only H1 H2 H3)
    as (rest & Hr & _).
  exists rest. rewrite Hr. reflexivity.
Defined.

(** ** build_bm25_index *)

Definition BM25_FIELDS : list string :=
  ["article_no"; "article_title"; "clause_no"; "point"; "clause_head";
   "text"]%string.

(** A field as [[f for f in fields if f]] keeps it: present and not empty. *)
Definition truthy_field (c : Props) (k : string) : option str :=
  match get_or_empty c k with
  | Some (x :: t) => Some (x :: t)
  | _ => None
  end.

(** [combined], the text of a fragment that BM25 indexes *)
Definition bm25_text (c : Props) : str :=
  py_join (lit " ") (omap (truthy_field c) BM25_FIELDS).

(** [tokenized_corpus] *)
Definition tokenized_corpus {E : Env} (chunks : list Props) : list (list str) :=
  map (fun c => vi_tokenize (bm25_text c)) chunks.

Lemma omap_ext_in {A B} (f g : A -> option B) (l : list A) :
  (forall x, x ∈ l -> f x = g x) -> omap f l = omap g l.
Proof.
  intros H. apply list_omap_ext, Forall2_same_length_lookup.
  split; [done|]. intros i x y Hx Hy. rewrite Hx in Hy. injection Hy as <-.
  apply H. eapply list_elem_of_lookup_2; eauto.
Qed.

Lemma omap_ext_all {A B} (f g : A -> option B) (l : list A) :
  (forall x, f x = g x) -> omap f l = omap g l.
Proof. intros H. apply omap_ext_in. auto. Qed.

(** X15: The lexical index sees the six fields [article_no], [article_title],
    [clause_no], [point], [clause_head] and [text] only: setting or deleting
    any other property of a fragment (its citation, law, chapter, section or
    enriched text) leaves the indexed text unchanged; a null or empty field
    counts as a missing one; and document [i] of the tokenized corpus is made
    from fragment [i]. *)
Theorem bm25_text_fields {E : Env} (c : Props) (k : string) (v : option str) :
  (k ∉ BM25_FIELDS ->
   bm25_text (<[k := v]> c) = bm25_text c /\
   bm25_text (delete k c) = bm25_text c) /\
  bm25_text (<[k := None]> c) = bm25_text (delete k c) /\
  bm25_text (<[k := Some []]> c) = bm25_text (delete k c) /\
  (forall chunks i,
      tokenized_corpus chunks !! i
      = (fun ch => vi_tokenize (bm25_text ch)) <$> chunks !! i).
Proof.
  assert (Hother : forall (m1 m2 : Props),
             (forall f, f <> k -> m1 !! f = m2 !! f) ->
             forall f, f <> k -> truthy_field m1 f = truthy_field m2 f).
  { intros m1 m2 H f Hf. unfold truthy_field, get_or_empty. now rewrite H. }
  split; [|split; [|split]].
  - intros Hk. split; unfold bm25_text; f_equal; apply omap_ext_in;
      intros f Hf; apply Hother; try (intros ->; done).
    + intros g Hg. now apply lookup_insert_ne.
    + intros g Hg. now apply lookup_delete_ne.
  - unfold bm25_text. f_equal. apply omap_ext_all. intros f.
    destruct (decide (f = k)) as [->|Hf].
    + unfold truthy_field, get_or_empty.
      now rewrite lookup_insert_eq, lookup_delete_eq.
    + apply Hother; [|done]. intros g Hg.
      now rewrite lookup_insert_ne, lookup_delete_ne.
  - unfold bm25_text. f_equal. apply omap_ext_all. intros f.
    destruct (decide (f = k)) as [->|Hf].
    + unfold truthy_field, get_or_empty.
      now rewrite lookup_insert_eq, lookup_delete_eq.
    + apply Hother; [|done]. intros g Hg.
      now rewrite lookup_insert_ne, lookup_delete_ne.
  - intros chunks i. unfold tokenized_corpus.
    change (map ?f chunks) with (f <$> chunks). apply list_lookup_fmap.
Qed.

(** ** frontend/app.py: the user's message on the page *)

(** [s.split(sep)] for a separator of one character *)
Fixpoint split_on (sep : N) (s : str) : list str :=
  match s with
  | [] => [[]]
  | c :: t =>
    if (c =? sep)%N then [] :: split_on sep t
    else match split_on sep t with
         | l :: ls => (c :: l) :: ls
         | [] => [[c]]
         end
  end.

(** [s.replace(c, by)] for a pattern of one character *)
Definition replace_char (c : N) (by_ : str) (s : str) : str :=
  flat_map (fun x => if (x =? c)%N then by_ else [x]) s.

Definition BR : str := lit "<br>".

Section UserText.
Context {U : UnicodeDB}.

(** The text of a user message as it is put into the page. *)
Definition render_user_text (content : str) : str :=
  let user_text := strip content in
  let user_text :=
    py_join nl (filter (fun l => nonempty l = true)
                       (map strip (split_on 10 user_text))) in
  let user_text :=
    replace_char 62 (lit "&gt;") (replace_char 60 (lit "&lt;") user_text) in
  replace_char 10 BR user_text.

Lemma escaped_no_brackets (s : str) :
  Forall (fun c => c <> 60%N /\ c <> 62%N)
         (replace_char 62 (lit "&gt;") (replace_char 60 (lit "&lt;") s)).
Proof.
  unfold replace_char. induction s as [|c s IH]; [constructor|].
  cbn [flat_map]. rewrite flat_map_app. apply Forall_app. split; [|exact IH].
  destruct (N.eqb_spec c 60) as [->|H60].
  - vm_compute. repeat constructor; discriminate.
  - cbn [flat_map]. rewrite app_nil_r.
    destruct (N.eqb_spec c 62) as [->|H62].
    + vm_compute. repeat constructor; discriminate.
    + repeat constructor; done.
Qed.

(** X16: Whatever the user typed, the text put into the page is a sequence of
    line-break tags and of single characters none of which is an angle
    bracket or a line feed: no markup of the user's survives. *)
Theorem render_user_text_escaped (content : str) :
  exists pieces,
    render_user_text content = concat pieces /\
    Forall (fun piece =>
              piece = BR \/
              exists c, piece = [c] /\ c <> 60%N /\ c <> 62%N /\ c <> 10%N)
           pieces.
Proof.
  unfold render_user_text. cbv zeta.
  set (t := replace_char 62 _ _).
  assert (Ht : Forall (fun c => c <> 60%N /\ c <> 62%N) t)
    by apply escaped_no_brackets.
  clearbody t. unfold replace_char.
  exists (map (fun x => if (x =? 10)%N then BR else [x]) t). split.
  - now rewrite flat_map_concat_map.
  - induction Ht as [|c t [H60 H62] _ IH]; [constructor|].
    cbn [map]. constructor; [|exact IH].
    destruct (N.eqb_spec c 10) as [->|H10]; [now left|right].
    exists c. auto.
Qed.

End UserText.

Example render_user_text_script :
  render_user_text (lit "  <b>xin chào</b>

  Điều 15 > Điều 5  ")
  = lit "&lt;b&gt;xin chào&lt;/b&gt;<br>Điều 15 &gt; Điều 5".
Proof. vm_compute. reflexivity. Qed.

(** * backend/clean_and_split.py: cutting a long leaf into windows *)

Module Chunker.

Definition LAW_CODE_MAP : gmap str str :=
  list_to_map
    [ (lit "Nghị định số 168/2024/NĐ-CP", lit "ND168-2024");
      (lit "Luật số 36/2024/QH15", lit "L36-2024-QH15");
      (lit "Luật số 35/2024/QH15", lit "L35-2024-QH15") ].

Definition MAX_TOKENS_LEAF : Z := 1500.
Definition WIN_TOK : Z := 900.
Definition OVERLAP_TOK : Z := 300.

Inductive error := KeyError | IndexError.

(** What a call comes to: a value, an exception, or a loop that was given
    too few steps. *)
Inductive run (A : Type) :=
  | Returned (a : A)
  | Raised (e : error)
  | Unfinished.
Arguments Returned {A} a.
Arguments Raised {A} e.
Arguments Unfinished {A}.

(** [l[i]] for a Python [int], negative ones counting from the end *)
Definition getitem {A} (l : list A) (i : Z) : option A :=
  if i <? 0
  then (if 0 <=? Z.of_nat (length l) + i
        then l !! Z.to_nat (Z.of_nat (length l) + i) else None)
  else l !! Z.to_nat i.

(** [l[a:b]] for bounds that are not negative *)
Definition slice {A} (l : list A) (a b : nat) : list A :=
  take (b - a) (drop a l).

(** [f"{n}"] and [str(n)] for an [int] *)
Definition str_of_int (n : Z) : str :=
  lit (NilZero.string_of_int (Z.to_int n)).

(** [sub in s] *)
Fixpoint contains (sub s : str) : bool :=
  bool_decide (sub `prefix_of` s)
  || match s with
     | [] => false
     | _ :: t => contains sub t
     end.

Section Tokens.
Context {U : UnicodeDB}.

(** [t.isspace()] *)
Definition isspace (t : str) : bool := nonempty t && forallb uni_isspace t.

(** [re.findall(r'\S+|\s+', text)]: the text cut into its maximal runs of
    white space and of other characters. *)
Fixpoint findall_runs (text : str) : list str :=
  match text with
  | [] => []
  | c :: t =>
    match findall_runs t with
    | (d :: r) :: ts =>
      if Bool.eqb (uni_isspace c) (uni_isspace d)
      then (c :: d :: r) :: ts
      else [c] :: (d :: r) :: ts
    | ts => [c] :: ts
    end
  end.

(** [re.findall(r'\S+', text)] *)
Fixpoint findall_words (text : str) : list str :=
  match text with
  | [] => []
  | c :: t =>
    if uni_isspace c then findall_words t
    else match t with
         | d :: _ =>
           if uni_isspace d then [c] :: findall_words t
           else match findall_words t with
                | w :: ws => (c :: w) :: ws
                | [] => [[c]]
                end
         | [] => [[c]]
         end
  end.

Definition token_count (text : option str) : Z :=
  Z.of_nat (length (findall_words (or_empty text))).

(** [[i for i, t in enumerate(toks) if not t.isspace()]], counting from
    [i] *)
Fixpoint word_positions (i : nat) (toks : list str) : list nat :=
  match toks with
  | [] => []
  | t :: ts =>
    if isspace t then word_positions (S i) ts
    else i :: word_positions (S i) ts
  end.

(** The [while] loop of [sliding_windows_by_tokens]. *)
Fixpoint windows_loop (fuel : nat) (toks : list str) (words : list nat)
    (win_tokens step : Z) (i : Z) (out : list str) : run (list str) :=
  match fuel with
  | O => Unfinished
  | S fuel =>
    if i <? Z.of_nat (length words) then
      let j := Z.min (i + win_tokens) (Z.of_nat (length words)) in
      match getitem words i with
      | None => Raised IndexError
      | Some start_tok_idx =>
        match getitem words (j - 1) with
        | None => Raised IndexError
        | Some last =>
          let end_tok_idx := S last in
          let chunk := strip (concat (slice toks start_tok_idx end_tok_idx)) in
          let out := if nonempty chunk then out ++ [chunk] else out in
          if Z.of_nat (length words) <=? j then Returned out
          else windows_loop fuel toks words win_tokens step (i + step) out
        end
      end
    else Returned out
  end.

Definition sliding_windows_by_tokens (text : str)
    (win_tokens overlap_tokens : Z) : run (list str) :=
  let toks := findall_runs text in
  let words := word_positions 0 toks in
  match words with
  | [] => Returned (if nonempty (strip text) then [strip text] else [])
  | _ :: _ =>
    let step := Z.max 1 (win_tokens - overlap_tokens) in
    windows_loop (S (length words)) toks words win_tokens step 0 []
  end.

End Tokens.

(** ** The labels of a leaf *)

Definition some_text (v : option str) : bool :=
  match v with
  | Some s => nonempty s
  | None => false
  end.

Definition build_path (chapter section article_no : str)
    (clause_no : option Z) (point_letter : option str)
    (bullet_idx : option Z) : str :=
  py_join (lit " > ")
    (when (nonempty chapter) chapter
     ++ when (nonempty section) section
     ++ when (nonempty article_no) (lit "Điều " ++ article_no)
     ++ from_option (fun n => [lit "Khoản " ++ str_of_int n]) [] clause_no
     ++ when (some_text point_letter) (lit "Điểm " ++ or_empty point_letter)
     ++ from_option (fun n => [lit "Gạch " ++ str_of_int n]) [] bullet_idx).

Definition header_of (article_no : str) (clause_no : option Z)
    (point_letter : option str) (bullet_idx : option Z) : str :=
  py_join (lit " ")
    (from_option (fun n => [lit "Gạch " ++ str_of_int n]) [] bullet_idx
     ++ when (some_text point_letter) (lit "Điểm " ++ or_empty point_letter)
     ++ from_option (fun n => [lit "Khoản " ++ str_of_int n]) [] clause_no
     ++ [lit "Điều " ++ article_no]).

Definition citation_of (law article_no : str) (clause_no : option Z)
    (point_letter : option str) (bullet_idx : option Z) : str :=
  py_join (lit " ")
    (from_option (fun n => [lit "gạch " ++ str_of_int n]) [] bullet_idx
     ++ when (some_text point_letter) (lit "điểm " ++ or_empty point_letter)
     ++ from_option (fun n => [lit "khoản " ++ str_of_int n]) [] clause_no
     ++ [lit "Điều " ++ article_no ++ lit " " ++ law]).

Record Leaf := {
  id : str;
  granularity : str;
  law : str;
  law_code : str;
  chapter : str;
  section : str;
  article_no : str;
  article_title : str;
  clause_no : option str;
  point : option str;
  bullet_idx : option Z;
  header : str;
  display_citation : str;
  path : str;
  path_text : str;
  clause_head : str;
  text : str;
  enriched_text : str;
  source_file : str
}.

Section EmitLeaf.
Context {U : UnicodeDB}.
(** [Path(p).stem] and [os.path.basename(p)] *)
Variables (path_stem os_path_basename : str -> str).

Definition enrich_text_full (chapter article_no article_title : str)
    (clause_no : option Z) (clause_head : str) (point_letter : option str)
    (point_text : option str) : str :=
  strip (py_join nl
    (when (nonempty chapter) (lit "[CHAPTER] " ++ chapter)
     ++ (if nonempty article_no && nonempty article_title
         then [lit "[ARTICLE] Điều " ++ article_no ++ lit ". " ++ article_title]
         else when (nonempty article_no) (lit "[ARTICLE] Điều " ++ article_no))
     ++ from_option
          (fun n => [if nonempty clause_head
                     then lit "[CLAUSE] Khoản " ++ str_of_int n ++ lit ". "
                          ++ clause_head
                     else lit "[CLAUSE] Khoản " ++ str_of_int n]) [] clause_no
     ++ when (some_text point_letter)
          (if some_text point_text
           then lit "[POINT] Điểm " ++ or_empty point_letter ++ lit ") "
                ++ or_empty point_text
           else lit "[POINT] Điểm " ++ or_empty point_letter ++ lit ")"))).

Definition base_id (source_file article_no : str) (clause_no : option Z)
    (point_letter : option str) (bullet_idx : option Z) : str :=
  let base_id := path_stem source_file ++ lit "_D" ++ article_no in
  let base_id :=
    from_option (fun n => base_id ++ lit "_K" ++ str_of_int n) base_id
                clause_no in
  let base_id :=
    if some_text point_letter then base_id ++ lit "_" ++ or_empty point_letter
    else base_id in
  from_option (fun n => base_id ++ lit "_b" ++ str_of_int n) base_id
              bullet_idx.

Definition enriched (chapter article_no article_title : str)
    (clause_no : option Z) (point_letter : option str)
    (bullet_idx : option Z) (clause_head text : str) : str :=
  let point_text_for_enrich :=
    match bullet_idx with
    | Some _ => None
    | None => if some_text point_letter then Some text else None
    end in
  let enriched :=
    enrich_text_full chapter article_no article_title clause_no clause_head
                     point_letter point_text_for_enrich in
  if nonempty text && (bool_decide (bullet_idx <> None)
                       || negb (some_text point_letter))
  then strip (enriched ++ nl ++ text)
  else enriched.

Definition leaf_record (law law_code source_file chapter section
    article_no article_title : str) (clause_no : option Z)
    (point_letter : option str) (bullet_idx : option Z)
    (clause_head text : str) (_id _enriched : str) : Leaf := {|
  id := _id;
  granularity :=
    if negb (contains (lit "_w") _id) then lit "leaf" else lit "leaf_window";
  law := law;
  law_code := law_code;
  chapter := chapter;
  section := section;
  article_no := article_no;
  article_title := article_title;
  clause_no := str_of_int <$> clause_no;
  point := point_letter;
  bullet_idx := bullet_idx;
  header := header_of article_no clause_no point_letter bullet_idx;
  display_citation :=
    citation_of law article_no clause_no point_letter bullet_idx;
  path := build_path chapter section article_no clause_no point_letter
                     bullet_idx;
  path_text := build_path chapter section article_no clause_no point_letter
                          bullet_idx;
  clause_head := clause_head;
  text := strip text;
  enriched_text := strip _enriched;
  source_file := os_path_basename source_file
|}.

(** [add_leaf_record]: [items.append({...})] *)
Definition add_leaf_record (law law_code source_file chapter section
    article_no article_title : str) (clause_no : option Z)
    (point_letter : option str) (bullet_idx : option Z)
    (clause_head text : str) (items : list Leaf) (_id _enriched : str)
    : list Leaf :=
  items ++ [leaf_record law law_code source_file chapter section article_no
              article_title clause_no point_letter bullet_idx clause_head
              text _id _enriched].

(** [enumerate(windows, i)] with a record added for every window *)
Fixpoint add_windows (add : list Leaf -> str -> str -> list Leaf)
    (base : str) (i : Z) (windows : list str) (items : list Leaf)
    : list Leaf :=
  match windows with
  | [] => items
  | w :: ws =>
    add_windows add base (i + 1) ws
                (add items (base ++ lit "_w" ++ str_of_int i) w)
  end.

Definition emit_leaf (items : list Leaf) (law source_file chapter section
    article_no article_title : str) (clause_no : option Z)
    (point_letter : option str) (bullet_idx : option Z)
    (clause_head text : str) : run (list Leaf) :=
  match LAW_CODE_MAP !! law with
  | None => Raised KeyError
  | Some law_code =>
    let base := base_id source_file article_no clause_no point_letter
                        bullet_idx in
    let enr := enriched chapter article_no article_title clause_no
                        point_letter bullet_idx clause_head text in
    let add := add_leaf_record law law_code source_file chapter section
                 article_no article_title clause_no point_letter bullet_idx
                 clause_head text in
    if MAX_TOKENS_LEAF <? token_count (Some enr) then
      match sliding_windows_by_tokens enr WIN_TOK OVERLAP_TOK with
      | Returned windows => Returned (add_windows add base 1 windows items)
      | Raised e => Raised e
      | Unfinished => Unfinished
      end
    else Returned (add items base enr)
  end.

End EmitLeaf.

End Chunker.

(** * The windows of a long leaf *)

Section WindowFacts.
Context {U : UnicodeDB}.
Import Chunker.

Definition is_word_run (t : str) : Prop := isspace t = false.

#[local] Instance is_word_dec (t : str) : Decision (is_word_run t).
Proof. unfold is_word_run. apply _. Defined.

(** A run of the text: not empty, and of one kind of character. *)
Definition is_run (t : str) : Prop :=
  t <> [] /\ Forall (fun c => uni_isspace c = isspace t) t.

Fixpoint alternating (ts : list str) : Prop :=
  match ts with
  | [] => True
  | t :: ts' =>
    is_run t /\
    match ts' with
    | [] => True
    | u :: _ => isspace t <> isspace u
    end /\
    alternating ts'
  end.

Lemma isspace_cons (c : N) (t : str) :
  isspace (c :: t) = uni_isspace c && forallb uni_isspace t.
Proof. reflexivity. Qed.

Lemma isspace_cons_same (c d : N) (r : str) :
  uni_isspace c = uni_isspace d ->
  isspace (c :: d :: r) = isspace (d :: r).
Proof.
  intros H. rewrite !isspace_cons. cbn [forallb]. rewrite H.
  now destruct (uni_isspace d).
Qed.

Lemma is_run_head (c : N) (t : str) :
  is_run (c :: t) -> isspace (c :: t) = uni_isspace c.
Proof. intros [_ H]. apply Forall_cons in H as [H _]. now rewrite H. Qed.

Lemma findall_runs_nil (s : str) : findall_runs s = [] -> s = [].
Proof.
  destruct s as [|c t]; [done|]. simpl.
  destruct (findall_runs t) as [|[|d r] ts]; [done..|].
  now destruct (Bool.eqb _ _).
Qed.

Lemma findall_runs_alternating (s : str) : alternating (findall_runs s).
Proof.
  induction s as [|c t IH]; [exact I|]. simpl.
  destruct (findall_runs t) as [|[|d r] ts] eqn:Ht.
  - repeat split; [done|]. repeat constructor. rewrite isspace_cons. simpl.
    now rewrite andb_true_r.
  - destruct IH as ([Hne _] & _). done.
  - destruct IH as (Hrun & Hnext & Hrest).
    pose proof (is_run_head _ _ Hrun) as Hd.
    destruct (Bool.eqb (uni_isspace c) (uni_isspace d)) eqn:Hcd.
    + apply Bool.eqb_prop in Hcd.
      assert (Hs : isspace (c :: d :: r) = isspace (d :: r))
        by now apply isspace_cons_same.
      split; [|now rewrite Hs].
      split; [done|]. rewrite Hs. constructor; [congruence|apply Hrun].
    + apply Bool.eqb_false_iff in Hcd.
      assert (Hc : isspace [c] = uni_isspace c).
      { rewrite isspace_cons. simpl. now rewrite andb_true_r. }
      split; [|split; [congruence|done]].
      split; [done|]. rewrite Hc. now repeat constructor.
Qed.

Lemma findall_runs_concat (s : str) : concat (findall_runs s) = s.
Proof.
  induction s as [|c t IH]; [done|]. simpl.
  destruct (findall_runs t) as [|[|d r] ts]; simpl in *; try congruence.
  destruct (Bool.eqb _ _); simpl; congruence.
Qed.

Lemma findall_runs_run (t rest : str) (ts : list str) :
  is_run t ->
  findall_runs rest = ts ->
  alternating ts ->
  match ts with
  | [] => True
  | u :: _ => isspace t <> isspace u
  end ->
  findall_runs (t ++ rest) = t :: ts.
Proof.
  intros Hrun Hrest Halt Hnext. induction t as [|c t IH]; [now destruct Hrun|].
  pose proof (is_run_head _ _ Hrun) as Hc.
  destruct t as [|c' t].
  - simpl. rewrite Hrest. destruct ts as [|[|d r] ts]; [done| |].
    + now destruct Halt as ([? _] & _).
    + destruct Halt as (Hu & _). apply is_run_head in Hu.
      rewrite Hc, Hu in Hnext.
      destruct (Bool.eqb (uni_isspace c) (uni_isspace d)) eqn:Hcd; [|done].
      now apply Bool.eqb_prop in Hcd.
  - assert (Hcc : uni_isspace c = uni_isspace c').
    { destruct Hrun as [_ H]. apply Forall_cons in H as [H1 H].
      apply Forall_cons in H as [H2 _]. congruence. }
    assert (Hs : isspace (c :: c' :: t) = isspace (c' :: t))
      by now apply isspace_cons_same.
    change ((c :: c' :: t) ++ rest) with (c :: ((c' :: t) ++ rest)).
    cbn [findall_runs]. rewrite IH.
    + now rewrite Hcc, Bool.eqb_reflx.
    + split; [done|]. destruct Hrun as [_ H].
      apply Forall_cons in H as [_ H]. now rewrite <- Hs.
    + now rewrite <- Hs.
Qed.

(** Cutting is undone by joining, and a sequence of runs is cut back into
    itself. *)
Lemma findall_runs_of_concat (ts : list str) :
  alternating ts -> findall_runs (concat ts) = ts.
Proof.
  induction ts as [|t ts IH]; [done|]. intros (Hrun & Hnext & Halt).
  simpl. now apply findall_runs_run; [|apply IH| |].
Qed.

Lemma alternating_drop (n : nat) (ts : list str) :
  alternating ts -> alternating (drop n ts).
Proof.
  revert ts. induction n as [|n IH]; intros [|t ts]; try done.
  intros (_ & _ & H). now apply IH.
Qed.

Lemma alternating_take (n : nat) (ts : list str) :
  alternating ts -> alternating (take n ts).
Proof.
  revert ts. induction n as [|n IH]; intros [|t ts]; try done.
  intros (Hrun & Hnext & H). simpl. split; [done|]. split; [|now apply IH].
  destruct ts as [|u ts]; [now rewrite take_nil|]. now destruct n.
Qed.

(** The words of a text are the runs that are not white space. *)
Lemma findall_words_runs (s : str) :
  findall_words s = filter is_word_run (findall_runs s).
Proof.
  induction s as [|c t IH]; [done|].
  pose proof (findall_runs_concat t) as Hcat.
  pose proof (findall_runs_alternating t) as Halt.
  cbn [findall_words findall_runs].
  destruct (findall_runs t) as [|[|d r] ts] eqn:Ht.
  - simpl in Hcat. subst t. unfold is_word_run.
    destruct (uni_isspace c) eqn:Hc.
    + rewrite filter_cons_False; [done|]. rewrite isspace_cons, Hc. done.
    + rewrite filter_cons_True; [done|]. now rewrite isspace_cons, Hc.
  - now destruct Halt as ([? _] & _).
  - simpl in Hcat. destruct t as [|d' t']; [done|].
    injection Hcat as <- Hcat.
    destruct Halt as (Hrun & _). apply is_run_head in Hrun.
    unfold is_word_run in *.
    destruct (uni_isspace c) eqn:Hc, (uni_isspace d) eqn:Hd; cbn [Bool.eqb].
    all: rewrite IH.
    all: try (assert (Hs : isspace (c :: d :: r) = isspace (d :: r))
                by (apply isspace_cons_same; congruence)).
    all: assert (H1 : isspace [c] = uni_isspace c)
           by (rewrite isspace_cons; simpl; apply andb_true_r).
    + rewrite !filter_cons_False; [done|..]; unfold is_word_run; congruence.
    + rewrite (filter_cons_False _ [c]); [done|]. unfold is_word_run. congruence.
    + rewrite (filter_cons_True _ [c]); [done|]. unfold is_word_run. congruence.
    + rewrite !filter_cons_True; [done|..]; unfold is_word_run; congruence.
Qed.


Lemma alternating_runs (ts : list str) : alternating ts -> Forall is_run ts.
Proof.
  induction ts as [|t ts IH]; [constructor|].
  intros (H & _ & Hrest). constructor; auto.
Qed.

(** ** Words by position *)

Lemma word_positions_length (i : nat) (toks : list str) :
  length (word_positions i toks) = length (filter is_word_run toks).
Proof.
  revert i. induction toks as [|t ts IH]; intros i; [done|].
  cbn [word_positions]. unfold is_word_run at 1.
  destruct (isspace t) eqn:Ht.
  - rewrite filter_cons_False by (unfold is_word_run; congruence). apply IH.
  - rewrite filter_cons_True by done. simpl. now rewrite IH.
Qed.

Definition words_before (toks : list str) (p : nat) : nat :=
  length (filter is_word_run (take p toks)).

Lemma word_positions_lookup (i : nat) (toks : list str) (k p : nat) :
  word_positions i toks !! k = Some p ->
  (i <= p)%nat /\
  exists x, toks !! (p - i)%nat = Some x /\ is_word_run x /\
            words_before toks (p - i) = k.
Proof.
  unfold words_before.
  revert i k. induction toks as [|t ts IH]; intros i k; [done|].
  cbn [word_positions]. destruct (isspace t) eqn:Ht.
  - intros H. destruct (IH _ _ H) as (Hle & x & Hx & Hw & Hk).
    split; [lia|]. exists x.
    replace (p - i)%nat with (S (p - S i)) by lia.
    split; [done|]. split; [done|].
    cbn [take]. rewrite filter_cons_False by (unfold is_word_run; congruence).
    done.
  - destruct k as [|k].
    + intros [= <-]. split; [lia|]. exists t. rewrite Nat.sub_diag.
      now repeat split.
    + intros H. cbn [lookup list_lookup] in H.
      destruct (IH _ _ H) as (Hle & x & Hx & Hw & Hk).
      split; [lia|]. exists x.
      replace (p - i)%nat with (S (p - S i)) by lia.
      split; [done|]. split; [done|].
      cbn [take]. rewrite filter_cons_True by done. simpl. now rewrite Hk.
Qed.

Lemma words_before_mono (toks : list str) (p q : nat) :
  (p <= q)%nat -> (words_before toks p <= words_before toks q)%nat.
Proof.
  intros Hpq. unfold words_before.
  rewrite <- (take_drop p (take q toks)), take_take, Nat.min_l by done.
  rewrite filter_app, length_app. lia.
Qed.

Lemma words_before_S (toks : list str) (p : nat) (x : str) :
  toks !! p = Some x -> is_word_run x ->
  words_before toks (S p) = S (words_before toks p).
Proof.
  intros Hx Hw. unfold words_before.
  rewrite (take_S_r _ _ _ Hx), filter_app, length_app.
  rewrite filter_cons_True by done. simpl. lia.
Qed.

Lemma filter_take_words (toks : list str) (p : nat) :
  filter is_word_run (take p toks)
  = take (words_before toks p) (filter is_word_run toks).
Proof.
  unfold words_before.
  rewrite <- (take_drop p toks) at 3. rewrite filter_app.
  now rewrite take_app_length.
Qed.

(** The tokens from the [a]-th word to the [b]-th word hold exactly the
    words [a..b], and start and end with a word. *)
Lemma slice_words (toks : list str) (a b pa pb : nat) :
  word_positions 0 toks !! a = Some pa ->
  word_positions 0 toks !! b = Some pb ->
  (a <= b)%nat ->
  filter is_word_run (slice toks pa (S pb))
  = take (S b - a) (drop a (filter is_word_run toks)) /\
  exists xa xb,
    slice toks pa (S pb) !! 0%nat = Some xa /\ is_word_run xa /\
    last (slice toks pa (S pb)) = Some xb /\ is_word_run xb.
Proof.
  intros Ha Hb Hab.
  destruct (word_positions_lookup _ _ _ _ Ha) as (_ & xa & Hxa & Hwa & Hca).
  destruct (word_positions_lookup _ _ _ _ Hb) as (_ & xb & Hxb & Hwb & Hcb).
  rewrite Nat.sub_0_r in *.
  assert (Hle : (pa <= pb)%nat).
  { destruct (Nat.le_gt_cases pa pb) as [|Hlt]; [done|].
    pose proof (words_before_mono toks (S pb) pa Hlt) as Hm.
    rewrite (words_before_S _ _ _ Hxb Hwb) in Hm. lia. }
  pose proof (lookup_lt_Some _ _ _ Hxb) as Hpb.
  assert (Hs : slice toks pa (S pb) = drop pa (take (S pb) toks)).
  { unfold slice. rewrite take_drop_commute. f_equal. f_equal. lia. }
  split.
  - assert (Ht : take (S pb) toks = take pa toks ++ slice toks pa (S pb)).
    { rewrite Hs. rewrite <- (take_drop pa (take (S pb) toks)) at 1.
      rewrite take_take. f_equal. f_equal. lia. }
    apply (f_equal (filter is_word_run)) in Ht.
    rewrite filter_app, !filter_take_words in Ht.
    rewrite (words_before_S _ _ _ Hxb Hwb), Hca, Hcb in Ht.
    set (W := filter is_word_run toks) in *.
    assert (Hn : (S b <= length W)%nat).
    { apply lookup_lt_Some in Hb. unfold W.
      rewrite <- (word_positions_length 0). lia. }
    rewrite <- (take_drop a (take (S b) W)) in Ht.
    rewrite take_take, Nat.min_l in Ht by lia.
    apply app_inv_head in Ht. rewrite <- Ht.
    rewrite take_drop_commute. f_equal. f_equal. lia.
  - exists xa, xb. unfold slice. repeat split; try done.
    + rewrite lookup_take_lt by lia. rewrite lookup_drop.
      now rewrite Nat.add_0_r.
    + rewrite last_lookup, length_take, length_drop.
      replace (Init.Nat.pred _) with (pb - pa)%nat by lia.
      rewrite lookup_take_lt by lia. rewrite lookup_drop.
      now replace (pa + (pb - pa))%nat with pb by lia.
Qed.

(** ** One window *)

Lemma lstrip_fixed (c : N) (s : str) :
  uni_isspace c = false -> lstrip (c :: s) = c :: s.
Proof. intros H. simpl. now rewrite H. Qed.

Lemma strip_fixed (s : str) (c c' : N) :
  head s = Some c -> last s = Some c' ->
  uni_isspace c = false -> uni_isspace c' = false ->
  strip s = s.
Proof.
  intros Hh Hl Hc Hc'. unfold strip, rstrip.
  destruct s as [|x s]; [done|]. injection Hh as ->.
  rewrite lstrip_fixed by done.
  apply last_Some in Hl as [s' Hs']. rewrite Hs', reverse_app.
  change (reverse [c']) with [c']. simpl.
  rewrite Hc'. now rewrite reverse_cons, reverse_involutive.
Qed.

Lemma word_chars (x : str) :
  is_run x -> is_word_run x ->
  exists c c', head x = Some c /\ last x = Some c' /\
               uni_isspace c = false /\ uni_isspace c' = false.
Proof.
  intros [Hne Hall] Hw. unfold is_word_run in Hw. rewrite Hw in Hall.
  destruct x as [|c x]; [done|].
  destruct (last (c :: x)) as [c'|] eqn:Hl.
  - exists c, c'. split; [done|]. split; [done|].
    rewrite Forall_forall in Hall. split.
    + apply Hall. now left.
    + apply Hall. apply last_Some in Hl as [l' ->].
      apply elem_of_app. right. now left.
  - now apply last_None in Hl.
Qed.

(** A window that starts and ends with a word is unchanged by [strip], is
    not empty, and holds the words of its tokens. *)
Lemma window_chunk (sl : list str) (xa xb : str) :
  alternating sl ->
  sl !! 0%nat = Some xa -> is_word_run xa ->
  last sl = Some xb -> is_word_run xb ->
  strip (concat sl) = concat sl /\ concat sl <> [] /\
  findall_words (concat sl) = filter is_word_run sl.
Proof.
  intros Halt Ha Hwa Hb Hwb.
  pose proof (alternating_runs _ Halt) as Hruns.
  rewrite Forall_forall in Hruns.
  destruct (word_chars xa) as (c & _ & Hc & _ & Hsp & _);
    [apply Hruns; eapply list_elem_of_lookup_2; eauto|done|].
  destruct (word_chars xb) as (_ & c' & _ & Hc' & _ & Hsp');
    [apply Hruns; apply last_Some in Hb as [l' ->]; apply elem_of_app; right;
     now left|done|].
  assert (Hhead : head (concat sl) = Some c).
  { destruct sl as [|x sl]; [done|]. injection Ha as ->.
    destruct xa as [|y xa]; [done|]. now injection Hc as ->. }
  assert (Hlast : last (concat sl) = Some c').
  { apply last_Some in Hb as [l' ->]. apply last_Some in Hc' as [x' ->].
    rewrite concat_app. simpl. rewrite app_nil_r, app_assoc.
    apply last_snoc. }
  split; [now apply (strip_fixed _ c c')|]. split.
  - intros E. now rewrite E in Hhead.
  - now rewrite findall_words_runs, findall_runs_of_concat.
Qed.


(** ** The loop *)

Lemma getitem_nat {A} (l : list A) (i : nat) :
  getitem l (Z.of_nat i) = l !! i.
Proof.
  unfold getitem. destruct (Z.ltb_spec (Z.of_nat i) 0); [lia|].
  now rewrite Nat2Z.id.
Qed.

Lemma windows_loop_S (fuel : nat) (toks : list str) (words : list nat)
    (win_tokens step i : Z) (out : list str) :
  windows_loop (S fuel) toks words win_tokens step i out
  = if i <? Z.of_nat (length words) then
      let j := Z.min (i + win_tokens) (Z.of_nat (length words)) in
      match getitem words i with
      | None => Raised IndexError
      | Some start_tok_idx =>
        match getitem words (j - 1) with
        | None => Raised IndexError
        | Some last =>
          let chunk := strip (concat (slice toks start_tok_idx (S last))) in
          let out := if nonempty chunk then out ++ [chunk] else out in
          if Z.of_nat (length words) <=? j then Returned out
          else windows_loop fuel toks words win_tokens step (i + step) out
        end
      end
    else Returned out.
Proof. reflexivity. Qed.

Lemma windows_loop_done (fuel : nat) (toks : list str) (words : list nat)
    (win_tokens step i : Z) (out : list str) :
  (0 < fuel)%nat -> Z.of_nat (length words) <= i ->
  windows_loop fuel toks words win_tokens step i out = Returned out.
Proof.
  intros Hf Hi. destruct fuel as [|fuel]; [lia|]. rewrite windows_loop_S.
  destruct (Z.ltb_spec i (Z.of_nat (length words))); [lia|done].
Qed.

(** What the loop adds when it is entered at word [i] of the words [W]:
    window [m] is not empty, is unchanged by [strip] and holds the words
    from [i + m * st], at most [wn] of them; when the step is not larger
    than the window, every word from [i] on lies in a window. *)
Definition windows_from (W : list str) (wn st i : nat) (ws : list str)
    : Prop :=
  (forall m w, ws !! m = Some w ->
     (i + m * st < length W)%nat /\ w <> [] /\ strip w = w /\
     findall_words w = take wn (drop (i + m * st) W)) /\
  ((st <= wn)%nat -> forall k, (i <= k < length W)%nat ->
     exists m, (m < length ws)%nat /\
               (i + m * st <= k < i + m * st + wn)%nat).

Lemma windows_from_one (W : list str) (wn st i : nat) (chunk : str) :
  (i < length W)%nat -> chunk <> [] -> strip chunk = chunk ->
  findall_words chunk = take wn (drop i W) ->
  ((st <= wn)%nat -> (length W <= i + wn)%nat) ->
  windows_from W wn st i [chunk].
Proof.
  intros Hi Hne Hs Hw Hend. split.
  - intros [|m] w; [|done]. intros [= <-].
    rewrite Nat.mul_0_l, Nat.add_0_r. done.
  - intros Hst k Hk. exists 0%nat. simpl. specialize (Hend Hst). lia.
Qed.

Lemma windows_from_cons (W : list str) (wn st i : nat) (chunk : str)
    (ws : list str) :
  (i < length W)%nat -> chunk <> [] -> strip chunk = chunk ->
  findall_words chunk = take wn (drop i W) ->
  windows_from W wn st (i + st) ws ->
  windows_from W wn st i (chunk :: ws).
Proof.
  intros Hi Hne Hs Hw [Hall Hcov]. split.
  - intros [|m] w.
    + intros [= <-]. rewrite Nat.mul_0_l, Nat.add_0_r. done.
    + intros Hm. cbn [lookup list_lookup] in Hm.
      destruct (Hall m w Hm) as (H1 & H2 & H3 & H4).
      replace (i + S m * st)%nat with (i + st + m * st)%nat by lia. done.
  - intros Hst k Hk. destruct (Nat.lt_ge_cases k (i + st)) as [Hlt|Hge].
    + exists 0%nat. simpl. lia.
    + destruct (Hcov Hst k ltac:(lia)) as (m & Hm & Hkm).
      exists (S m). simpl. lia.
Qed.

Lemma windows_loop_spec (toks : list str) (win_tokens step : Z) :
  alternating toks -> 1 <= win_tokens -> 1 <= step ->
  forall (fuel i : nat) (out : list str),
    (i < length (filter is_word_run toks))%nat ->
    (length (filter is_word_run toks) - i < fuel)%nat ->
    exists ws,
      windows_loop fuel toks (word_positions 0 toks) win_tokens step
                   (Z.of_nat i) out = Returned (out ++ ws) /\
      ws <> [] /\
      windows_from (filter is_word_run toks) (Z.to_nat win_tokens)
                   (Z.to_nat step) i ws.
Proof.
  intros Halt Hwin Hstep.
  set (words := word_positions 0 toks). set (W := filter is_word_run toks).
  assert (Hn : length words = length W) by apply word_positions_length.
  set (wn := Z.to_nat win_tokens). set (st := Z.to_nat step).
  induction fuel as [|fuel IH]; intros i out Hi Hf; [lia|].
  rewrite windows_loop_S. cbv zeta.
  destruct (Z.ltb_spec (Z.of_nat i) (Z.of_nat (length words))) as [_|];
    [|lia].
  set (jn := Nat.min (i + wn) (length W)).
  replace (Z.min (Z.of_nat i + win_tokens) (Z.of_nat (length words)))
    with (Z.of_nat jn) by lia.
  replace (Z.of_nat jn - 1) with (Z.of_nat (jn - 1)) by lia.
  rewrite !getitem_nat.
  destruct (words !! i) as [pa|] eqn:Ha;
    [|apply lookup_ge_None in Ha; lia].
  destruct (words !! (jn - 1)%nat) as [pb|] eqn:Hb;
    [|apply lookup_ge_None in Hb; lia].
  destruct (slice_words toks i (jn - 1) pa pb Ha Hb ltac:(lia))
    as (Hfilter & xa & xb & Hxa & Hwa & Hxb & Hwb).
  destruct (window_chunk (slice toks pa (S pb)) xa xb)
    as (Hstrip & Hne & Hwords);
    [apply alternating_take, alternating_drop, Halt|done..|].
  rewrite Hstrip.
  set (chunk := concat (slice toks pa (S pb))) in *.
  assert (Hchunk : findall_words chunk = take wn (drop i W)).
  { rewrite Hwords, Hfilter. fold W.
    replace (S (jn - 1) - i)%nat with (jn - i)%nat by lia.
    destruct (Nat.le_gt_cases (i + wn) (length W)).
    - f_equal. lia.
    - rewrite !take_ge; [done|..]; rewrite length_drop; lia. }
  replace (nonempty chunk) with true by (now destruct chunk).
  destruct (Z.leb_spec (Z.of_nat (length words)) (Z.of_nat jn))
    as [Hbreak|Hgo].
  - exists [chunk]. split; [done|]. split; [done|].
    apply windows_from_one; try done. lia.
  - replace (Z.of_nat i + step) with (Z.of_nat (i + st)) by lia.
    destruct (Nat.le_gt_cases (length W) (i + st)) as [Hend|Hmore].
    + rewrite windows_loop_done by lia.
      exists [chunk]. split; [done|]. split; [done|].
      apply windows_from_one; try done. lia.
    + destruct (IH (i + st)%nat (out ++ [chunk])) as (ws & -> & _ & Hws);
        [lia..|].
      exists (chunk :: ws). split; [now rewrite <- app_assoc|].
      split; [done|]. now apply windows_from_cons.
Qed.

(** ** Blank text *)

Lemma no_words_blank (s : str) :
  findall_words s = [] -> Forall (fun c => uni_isspace c = true) s.
Proof.
  induction s as [|c t IH]; [constructor|]. cbn [findall_words].
  destruct (uni_isspace c) eqn:Hc; [auto|].
  destruct t as [|d t]; [done|]. destruct (uni_isspace d); [done|].
  now destruct (findall_words (d :: t)).
Qed.

Lemma lstrip_blank (s : str) :
  Forall (fun c => uni_isspace c = true) s -> lstrip s = [].
Proof. induction 1 as [|c t Hc _ IH]; [done|]. simpl. now rewrite Hc. Qed.

Lemma strip_blank (s : str) : findall_words s = [] -> strip s = [].
Proof.
  intros H. unfold strip, rstrip.
  now rewrite (lstrip_blank s) by now apply no_words_blank.
Qed.

(** ** [sliding_windows_by_tokens], whole *)

Lemma sliding_windows_spec (text : str) (win_tokens overlap_tokens : Z) :
  1 <= win_tokens ->
  exists ws,
    sliding_windows_by_tokens text win_tokens overlap_tokens = Returned ws /\
    (findall_words text = [] <-> ws = []) /\
    windows_from (findall_words text) (Z.to_nat win_tokens)
      (Z.to_nat (Z.max 1 (win_tokens - overlap_tokens))) 0 ws.
Proof.
  intros Hwin. unfold sliding_windows_by_tokens. cbv zeta.
  pose proof (word_positions_length 0 (findall_runs text)) as Hlen.
  rewrite <- findall_words_runs in Hlen.
  destruct (word_positions 0 (findall_runs text)) as [|p ps] eqn:Hw.
  - destruct (findall_words text) eqn:Hnil; [|done].
    rewrite (strip_blank text Hnil). simpl.
    exists []. split; [done|]. split; [done|]. split; [done|].
    intros _ k Hk. simpl in Hk. lia.
  - rewrite <- Hw.
    destruct (windows_loop_spec (findall_runs text) win_tokens
                (Z.max 1 (win_tokens - overlap_tokens))
                (findall_runs_alternating text) Hwin ltac:(lia)
                (S (length (word_positions 0 (findall_runs text)))) 0%nat [])
      as (ws & Hrun & Hne & Hfrom).
    + rewrite <- findall_words_runs, <- Hlen. simpl. lia.
    + rewrite <- findall_words_runs, <- Hlen. rewrite Hw. simpl. lia.
    + exists ws. split; [exact Hrun|]. rewrite findall_words_runs. split.
      * split; [|done]. intros E. rewrite <- findall_words_runs in E.
        rewrite E in Hlen. done.
      * exact Hfrom.
Qed.


(** X17: Each window holds between one and [win_tokens] words, taken from the
    text in order, window [m] starting at word [m * step]; it is not empty
    and has no white space at its ends.  A text without words gives no
    window.  When the overlap is not negative no word is lost: every word of
    the text lies in some window.  ([step] is [max(1, win_tokens -
    overlap_tokens)].) *)
Theorem sliding_windows_cover (text : str) (win_tokens overlap_tokens : Z) :
  1 <= win_tokens ->
  let step := Z.to_nat (Z.max 1 (win_tokens - overlap_tokens)) in
  let words := findall_words text in
  exists windows,
    sliding_windows_by_tokens text win_tokens overlap_tokens
      = Returned windows /\
    (words = [] <-> windows = []) /\
    (forall m w, windows !! m = Some w ->
       w <> [] /\ strip w = w /\
       findall_words w = take (Z.to_nat win_tokens) (drop (m * step) words) /\
       1 <= token_count (Some w) <= win_tokens) /\
    (0 <= overlap_tokens ->
     forall k, (k < length words)%nat ->
       exists m, (m < length windows)%nat /\
                 (m * step <= k < m * step + Z.to_nat win_tokens)%nat).
Proof.
  intros Hwin. cbv zeta.
  destruct (sliding_windows_spec text win_tokens overlap_tokens Hwin)
    as (ws & Hrun & Hnil & Hall & Hcov).
  exists ws. split; [exact Hrun|]. split; [exact Hnil|]. split.
  - intros m w Hm. destruct (Hall m w Hm) as (Hlt & Hne & Hs & Hw).
    rewrite Nat.add_0_l in Hlt, Hw.
    split; [done|]. split; [done|]. split; [done|].
    change (token_count (Some w)) with (Z.of_nat (length (findall_words w))).
    rewrite Hw, length_take, length_drop. lia.
  - intros Hov k Hk.
    destruct (Hcov ltac:(lia) k ltac:(lia)) as (m & Hm & Hkm).
    exists m. split; [done|]. lia.
Qed.

(** ** Records *)

Lemma lstrip_head (s : str) :
  match lstrip s with
  | [] => True
  | c :: _ => uni_isspace c = false
  end.
Proof.
  induction s as [|c t IH]; [done|]. simpl.
  now destruct (uni_isspace c) eqn:Hc.
Qed.

Lemma strip_idempotent (s : str) : strip (strip s) = strip s.
Proof.
  pose proof (lstrip_head s) as Hh. unfold strip at 2 3.
  destruct (lstrip s) as [|c y]; [reflexivity|].
  unfold rstrip. pose proof (lstrip_head (reverse (c :: y))) as Hl.
  rewrite reverse_cons in *.
  destruct (lstrip_keeps (reverse y) [] c Hh) as (a' & Ha & _).
  rewrite Ha in *.
  destruct (a' ++ [c]) as [|z l] eqn:Hz; [now destruct a'|].
  apply (strip_fixed _ c z); [| |done|done].
  - rewrite <- Hz, reverse_app. done.
  - now rewrite last_reverse.
Qed.

Lemma contains_mark (sub a b : str) : contains sub (a ++ sub ++ b) = true.
Proof.
  induction a as [|c a IH].
  - destruct (sub ++ b) eqn:E; simpl; rewrite <- E;
      (rewrite bool_decide_eq_true_2; [done|now exists b]).
  - simpl. rewrite IH. apply orb_true_r.
Qed.

Section EmitLeafFacts.
Variables (path_stem os_path_basename : str -> str).

Lemma enriched_stripped (chapter article_no article_title : str)
    (clause_no : option Z) (point_letter : option str)
    (bullet_idx : option Z) (clause_head text : str) :
  strip (enriched chapter article_no article_title clause_no point_letter
                  bullet_idx clause_head text)
  = enriched chapter article_no article_title clause_no point_letter
             bullet_idx clause_head text.
Proof.
  unfold enriched, enrich_text_full. cbv zeta.
  destruct (_ && _); apply strip_idempotent.
Qed.

Lemma add_windows_spec (add : list Leaf -> str -> str -> list Leaf)
    (rec : str -> str -> Leaf) (base : str) :
  (forall items _id _enriched,
     add items _id _enriched = items ++ [rec _id _enriched]) ->
  forall windows i items,
    add_windows add base i windows items
    = items ++ imap (fun m w =>
                       rec (base ++ lit "_w" ++ str_of_int (i + Z.of_nat m)) w)
                    windows.
Proof.
  intros Hadd. induction windows as [|w ws IH]; intros i items.
  - simpl. now rewrite app_nil_r.
  - cbn [add_windows imap]. rewrite IH, Hadd, <- app_assoc.
    change (Z.of_nat 0) with 0. rewrite Z.add_0_r. cbn [app].
    do 2 f_equal. apply imap_ext. intros m x _. unfold compose.
    replace (i + 1 + Z.of_nat m) with (i + Z.of_nat (S m)) by lia.
    reflexivity.
Qed.

(** X18: [emit_leaf] raises KeyError for a law that is not in [LAW_CODE_MAP];
    otherwise it returns, having added records to the end of the list.  All
    the records added by one call carry the same citation and leaf text, and
    none holds more than [MAX_TOKENS_LEAF] tokens of enriched text.  A leaf
    within that limit gives one record, whose id is the base id; a longer
    leaf gives at least three, the windows of the enriched text: numbered
    from 1 in their ids, labelled as windows, of at most [WIN_TOK] tokens
    each and starting 600 words apart. *)
Theorem emit_leaf_records (items : list Leaf) (law source_file chapter
    section article_no article_title : str) (clause_no : option Z)
    (point_letter : option str) (bullet_idx : option Z)
    (clause_head text : str) :
  let emitted :=
    emit_leaf path_stem os_path_basename items law source_file chapter
      section article_no article_title clause_no point_letter bullet_idx
      clause_head text in
  let base :=
    base_id path_stem source_file article_no clause_no point_letter
            bullet_idx in
  let enr :=
    enriched chapter article_no article_title clause_no point_letter
             bullet_idx clause_head text in
  (LAW_CODE_MAP !! law = None -> emitted = Raised KeyError) /\
  (is_Some (LAW_CODE_MAP !! law) ->
   exists new,
     emitted = Returned (items ++ new) /\
     Forall (fun r =>
               display_citation r
               = citation_of law article_no clause_no point_letter bullet_idx
               /\ Chunker.text r = strip text
               /\ token_count (Some (enriched_text r)) <= MAX_TOKENS_LEAF)
            new /\
     (token_count (Some enr) <= MAX_TOKENS_LEAF ->
      exists r, new = [r] /\ id r = base /\ enriched_text r = enr) /\
     (MAX_TOKENS_LEAF < token_count (Some enr) ->
      (3 <= length new)%nat /\
      forall m r, new !! m = Some r ->
        id r = base ++ lit "_w" ++ str_of_int (Z.of_nat m + 1) /\
        granularity r = lit "leaf_window" /\
        token_count (Some (enriched_text r)) <= WIN_TOK /\
        findall_words (enriched_text r)
        = take 900 (drop (m * 600) (findall_words enr)))).
Proof.
  intros emitted base enr. subst emitted. unfold emit_leaf.
  destruct (LAW_CODE_MAP !! law) as [code|]; [|split; [done|]];
    [split; [done|intros _]|now intros [? ?]].
  cbv zeta. fold base enr.
  set (rec := leaf_record os_path_basename law code source_file chapter
                section article_no article_title clause_no point_letter
                bullet_idx clause_head text).
  destruct (Z.ltb_spec MAX_TOKENS_LEAF (token_count (Some enr)))
    as [Hlong|Hshort].
  - destruct (sliding_windows_spec enr WIN_TOK OVERLAP_TOK)
      as (ws & -> & _ & Hall & Hcov); [done|].
    rewrite (add_windows_spec _ rec) by done.
    change (Z.to_nat WIN_TOK) with 900%nat in *.
    change (Z.to_nat (Z.max 1 (WIN_TOK - OVERLAP_TOK))) with 600%nat in *.
    assert (Hrec : forall m r,
               imap (fun m w =>
                       rec (base ++ lit "_w" ++ str_of_int (1 + Z.of_nat m)) w)
                    ws !! m = Some r ->
               exists w, ws !! m = Some w /\
                 r = rec (base ++ lit "_w" ++ str_of_int (Z.of_nat m + 1)) w
                 /\ strip w = w /\
                 findall_words w
                 = take 900 (drop (m * 600) (findall_words enr))).
    { intros m r Hm. rewrite list_lookup_imap in Hm.
      destruct (ws !! m) as [w|] eqn:Hw; [|done]. injection Hm as <-.
      destruct (Hall m w Hw) as (_ & _ & Hs & Hwords).
      exists w. rewrite (Z.add_comm 1). now repeat split. }
    eexists. split; [reflexivity|]. split; [|split; [unfold MAX_TOKENS_LEAF in *; lia|]].
    + apply Forall_lookup. intros m r Hm.
      destruct (Hrec m r Hm) as (w & _ & -> & Hs & Hwords).
      split; [done|]. split; [done|].
      unfold token_count. simpl. rewrite Hs, Hwords, length_take.
      unfold MAX_TOKENS_LEAF. lia.
    + intros _. split.
      * rewrite length_imap.
        unfold token_count, MAX_TOKENS_LEAF in Hlong. simpl in Hlong.
        destruct (Hcov ltac:(lia) 1500%nat ltac:(lia)) as (m & Hm & Hk).
        lia.
      * intros m r Hm.
        destruct (Hrec m r Hm) as (w & _ & -> & Hs & Hwords).
        split; [done|]. split.
        { unfold rec, leaf_record. cbn [granularity].
          now rewrite contains_mark. }
        split; [|now simpl; rewrite Hs].
        unfold token_count. simpl. rewrite Hs, Hwords, length_take.
        unfold WIN_TOK. lia.
  - unfold add_leaf_record. fold rec.
    exists [rec base enr]. split; [done|].
    assert (He : enriched_text (rec base enr) = enr)
      by apply enriched_stripped.
    split; [|split; [|lia]].
    + repeat constructor. now rewrite He.
    + intros _. now exists (rec base enr).
Qed.

End EmitLeafFacts.

End WindowFacts.

(** X17 on a sentence of eight words, with windows of three words that overlap
    by one. *)
Lemma sliding_windows_cover_witness :
  1 <= 3 /\
  exists windows,
    Chunker.sliding_windows_by_tokens
      (lit "  xe máy  chạy quá tốc độ   quy định  ") 3 1
      = Chunker.Returned windows /\
    windows = [lit "xe máy  chạy"; lit "chạy quá tốc"; lit "tốc độ   quy";
               lit "quy định"] /\
    forall k, (k < 8)%nat ->
      exists m, (m < length windows)%nat /\ (m * 2 <= k < m * 2 + 3)%nat.
Proof.
  split; [lia|].
  destruct (sliding_windows_cover
              (lit "  xe máy  chạy quá tốc độ   quy định  ") 3 1 ltac:(lia))
    as (ws & Hrun & _ & _ & Hcov).
  exists ws. split; [exact Hrun|]. split.
  - assert (Hc : Chunker.sliding_windows_by_tokens
                   (lit "  xe máy  chạy quá tốc độ   quy định  ") 3 1
                 = Chunker.Returned
                     [lit "xe máy  chạy"; lit "chạy quá tốc";
                      lit "tốc độ   quy"; lit "quy định"])
      by (vm_compute; reflexivity).
    rewrite Hc in Hrun. injection Hrun as <-. reflexivity.
  - intros k Hk. apply (Hcov ltac:(lia) k). exact Hk.
Defined.

(** A leaf of 1501 words under a known law: three records, one citation. *)
Definition long_leaf : Chunker.run (list Chunker.Leaf) :=
  Chunker.emit_leaf (fun p => p) (fun p => p) []
    (lit "Luật số 36/2024/QH15") (lit "luat36") [] [] (lit "9") []
    (Some 2) None None [] (concat (replicate 1501 (lit "xe "))).

Example emit_leaf_long_leaf :
  match long_leaf with
  | Chunker.Returned new =>
    map Chunker.id new
    = [lit "luat36_D9_K2_w1"; lit "luat36_D9_K2_w2"; lit "luat36_D9_K2_w3"]
    /\ map Chunker.display_citation new
       = replicate 3 (lit "khoản 2 Điều 9 Luật số 36/2024/QH15")
    /\ map (fun r => Chunker.token_count (Some (Chunker.enriched_text r))) new
       = [900; 900; 307]
  | _ => False
  end.
Proof. vm_compute. repeat split. Qed.
